(** * Grid search planners of Search_2D: a shallow embedding

    The development follows the four planners of
    [PathPlanning/Search_based_Planning/Search_2D]:

    - [Real_Astar.py]: class [AStar], weighted A* over eight directions with a
      seeded terrain overlay;
    - [Standard_Dijkstra.py]: class [Dijkstra], four directions, terrain cost;
    - [Standard_BFS.py]: class [BFS], four directions, unit cost, a counter as
      heap priority;
    - [Standard_DFS.py]: class [DFS], explicit stack and visited set.

    Python objects become explicit state: the attributes [OPEN], [CLOSED],
    [PARENT] and [g] of a planner are the fields of a record that the search
    loop threads through, dictionaries are [gmap]s, the obstacle set is a
    [gset], and [heapq] works on a list exactly as the library does on a Python
    list.  A Python exception is a value of the [result] type.

    [Dijkstra], [BFS] and [DFS] import their base class from the module
    [Astar], which is not among the sources at hand; what they inherit from it
    ([get_neighbor], [is_collision], [extract_path] and the four attributes) is
    read from the class [AStar] of [Real_Astar.py]. *)

From Stdlib Require Import ZArith List Floats Lia.
From stdpp Require Import gmap list strings.

Local Open Scope Z_scope.

(** ** Coordinates

    A node is a pair of Python integers.  Tuples compare lexicographically. *)

Abbreviation coord := (Z * Z)%type.

Definition coord_lt (a b : coord) : bool :=
  if a.1 =? b.1 then a.2 <? b.2 else a.1 <? b.1.

(** ** Exceptions and loops

    [Raise] is a Python exception reaching the caller.  A [while] loop is run
    with a bound on its number of iterations; [NoFuel] says the bound was
    reached before the loop condition failed. *)

Inductive exn := KeyError | IndexError.

Inductive result (A : Type) :=
| Ok (a : A)
| Raise (e : exn)
| NoFuel.
Arguments Ok {A} a.
Arguments Raise {A} e.
Arguments NoFuel {A}.

#[export] Instance result_bind : MBind result := fun A B k r =>
  match r with
  | Ok a => k a
  | Raise e => Raise e
  | NoFuel => NoFuel
  end.

(** [d[k]] on a dictionary: [KeyError] when the key is absent. *)
Definition getitem `{Countable K} {V} (d : gmap K V) (k : K) : result V :=
  match d !! k with
  | Some v => Ok v
  | None => Raise KeyError
  end.

(** A [for] loop whose body may raise. *)
Fixpoint for_each {A S} (body : S -> A -> result S) (l : list A) (st : S) : result S :=
  match l with
  | [] => Ok st
  | x :: l' => st' ← body st x; for_each body l' st'
  end.

(** ** Numbers

    The planners are written once and inherited: the same loop adds and
    compares Python [int]s in [Dijkstra] and [BFS] and [float]s in [AStar].
    [Num] is the arithmetic the loop uses. *)

Class Num (N : Type) := {
  n_of_Z : Z -> N;            (* an [int] value *)
  n_inf : N;                  (* [math.inf] *)
  n_add : N -> N -> N;        (* [+] *)
  n_lt : N -> N -> bool;      (* [<] *)
  n_eq : N -> N -> bool;      (* [==] *)
}.

(** Python integers together with [math.inf]: the values of [g] and of the
    heap priorities in [Dijkstra], [BFS] and [DFS].  [int + inf] is [inf],
    every [int] is below [inf], and [inf < inf] is false. *)
Inductive pyint := Int (z : Z) | Inf.

Definition pyint_add (a b : pyint) : pyint :=
  match a, b with
  | Int x, Int y => Int (x + y)
  | _, _ => Inf
  end.

Definition pyint_lt (a b : pyint) : bool :=
  match a, b with
  | Int x, Int y => x <? y
  | Int _, Inf => true
  | Inf, _ => false
  end.

Definition pyint_eq (a b : pyint) : bool :=
  match a, b with
  | Int x, Int y => x =? y
  | Inf, Inf => true
  | _, _ => false
  end.

#[export] Instance pyint_num : Num pyint :=
  {| n_of_Z := Int; n_inf := Inf; n_add := pyint_add; n_lt := pyint_lt; n_eq := pyint_eq |}.

(** ** heapq

    [heappush] and [heappop] of the standard library, on the list that holds
    the heap.  [_siftdown] moves the item at [pos] towards the root,
    [_siftup] moves the smaller child up until a leaf and then sifts down. *)

Module heapq.
Section heapq.
Context {A : Type} (lt : A -> A -> bool).

Fixpoint siftdown_loop (fuel : nat) (heap : list A) (newitem : A)
    (startpos pos : nat) : list A :=
  match fuel with
  | O => <[pos := newitem]> heap
  | S fuel' =>
      if (startpos <? pos)%nat then
        let parentpos := ((pos - 1) / 2)%nat in
        match heap !! parentpos with
        | Some parent =>
            if lt newitem parent
            then siftdown_loop fuel' (<[pos := parent]> heap) newitem startpos parentpos
            else <[pos := newitem]> heap
        | None => <[pos := newitem]> heap
        end
      else <[pos := newitem]> heap
  end.

Definition siftdown (heap : list A) (startpos pos : nat) : list A :=
  match heap !! pos with
  | Some newitem => siftdown_loop pos heap newitem startpos pos
  | None => heap
  end.

Fixpoint siftup_loop (fuel : nat) (heap : list A) (endpos pos : nat)
    : list A * nat :=
  match fuel with
  | O => (heap, pos)
  | S fuel' =>
      let childpos := (2 * pos + 1)%nat in
      if (childpos <? endpos)%nat then
        let rightpos := (childpos + 1)%nat in
        let childpos :=
          match heap !! childpos, heap !! rightpos with
          | Some l, Some r => if lt l r then childpos else rightpos
          | _, _ => childpos
          end in
        match heap !! childpos with
        | Some c => siftup_loop fuel' (<[pos := c]> heap) endpos childpos
        | None => (heap, pos)
        end
      else (heap, pos)
  end.

Definition siftup (heap : list A) (pos : nat) : list A :=
  match heap !! pos with
  | Some newitem =>
      let '(heap', pos') := siftup_loop (length heap) heap (length heap) pos in
      siftdown (<[pos' := newitem]> heap') pos pos'
  | None => heap
  end.

Definition heappush (heap : list A) (item : A) : list A :=
  siftdown (heap ++ [item]) 0 (length heap).

(** [heappop]: the smallest item and the remaining heap; [IndexError] on an
    empty heap. *)
Definition heappop (heap : list A) : result (A * list A) :=
  match last heap with
  | None => Raise IndexError
  | Some lastelt =>
      let heap' := removelast heap in
      match heap' with
      | [] => Ok (lastelt, [])
      | returnitem :: _ => Ok (returnitem, siftup (<[0%nat := lastelt]> heap') 0)
      end
  end.
End heapq.
End heapq.

(** ** The search state and the helpers every planner inherits

    [OPEN] is the heap of [(priority, node)] tuples, [CLOSED] the nodes in the
    order they were popped, [PARENT] and [g] the two dictionaries.  The
    obstacle set [obs] comes from [env.Env()]; it is a parameter here. *)

Record state (N : Type) := State {
  OPEN : list (N * coord);
  CLOSED : list coord;
  PARENT : gmap coord coord;
  g : gmap coord N;
}.
Arguments State {N} _ _ _ _.
Arguments OPEN {N} _.
Arguments CLOSED {N} _.
Arguments PARENT {N} _.
Arguments g {N} _.

(** [(p1, s1) < (p2, s2)] on heap entries: the first components decide unless
    they are equal. *)
Definition item_lt {N : Type} `{!Num N} (a b : N * coord) : bool :=
  if n_eq a.1 b.1 then coord_lt a.2 b.2 else n_lt a.1 b.1.

Definition motions4 : list coord := [(0, 1); (0, -1); (-1, 0); (1, 0)].

Definition motions8 : list coord :=
  [(-1, 0); (-1, 1); (0, 1); (1, 1); (1, 0); (1, -1); (0, -1); (-1, -1)].

Section Planner.
Context {N : Type} `{Num N}.
Variable obs : gset coord.
Variable u_set : list coord.
Variables s_start s_goal : coord.

Definition get_neighbor (s : coord) : list coord :=
  map (fun u : coord => (s.1 + u.1, s.2 + u.2)) u_set.

Definition is_collision (s_start s_end : coord) : bool :=
  if bool_decide (s_start ∈ obs) || bool_decide (s_end ∈ obs) then true
  else if negb (s_start.1 =? s_end.1) && negb (s_start.2 =? s_end.2) then
    let '(s1, s2) :=
      if s_end.1 - s_start.1 =? s_start.2 - s_end.2
      then ((Z.min s_start.1 s_end.1, Z.min s_start.2 s_end.2),
            (Z.max s_start.1 s_end.1, Z.max s_start.2 s_end.2))
      else ((Z.min s_start.1 s_end.1, Z.max s_start.2 s_end.2),
            (Z.max s_start.1 s_end.1, Z.min s_start.2 s_end.2)) in
    if bool_decide (s1 ∈ obs) || bool_decide (s2 ∈ obs) then true else false
  else false.

(** [extract_path]: follow [PARENT] from the goal until the start is met.
    The loop body runs at least once. *)
Fixpoint extract_path_loop (fuel : nat) (PARENT : gmap coord coord)
    (path : list coord) (s : coord) : result (list coord) :=
  match fuel with
  | O => NoFuel
  | S fuel' =>
      s' ← getitem PARENT s;
      let path' := path ++ [s'] in
      if bool_decide (s' = s_start) then Ok path'
      else extract_path_loop fuel' PARENT path' s'
  end.

Definition extract_path (fuel : nat) (PARENT : gmap coord coord) : result (list coord) :=
  extract_path_loop fuel PARENT [s_goal] s_goal.

(** The loop of [searching].  The three heap planners share it word for word
    except for the priority of the pushed entry, which is [priority] here:
    it is evaluated after [g] and [PARENT] have been updated and before the
    push. *)
Variable cost : coord -> coord -> N.
Variable priority : state N -> N -> coord -> result N.

Definition relax (s : coord) (st : state N) (s_n : coord) : result (state N) :=
  gs ← getitem (g st) s;
  let new_cost := n_add gs (cost s s_n) in
  let g1 := match g st !! s_n with
            | Some _ => g st
            | None => <[s_n := n_inf]> (g st)
            end in
  gn ← getitem g1 s_n;
  if n_lt new_cost gn then
    let st1 := State (OPEN st) (CLOSED st) (<[s_n := s]> (PARENT st))
                     (<[s_n := new_cost]> g1) in
    p ← priority st1 new_cost s_n;
    Ok (State (heapq.heappush (item_lt (N:=N)) (OPEN st1) (p, s_n))
              (CLOSED st1) (PARENT st1) (g st1))
  else Ok (State (OPEN st) (CLOSED st) (PARENT st) g1).

Fixpoint search_loop (fuel : nat) (st : state N) : result (state N) :=
  match OPEN st with
  | [] => Ok st
  | _ :: _ =>
      match fuel with
      | O => NoFuel
      | S fuel' =>
          '(item, open') ← heapq.heappop (item_lt (N:=N)) (OPEN st);
          let s := item.2 in
          let st1 := State open' (CLOSED st ++ [s]) (PARENT st) (g st) in
          if bool_decide (s = s_goal) then Ok st1
          else
            st2 ← for_each (relax s) (get_neighbor s) st1;
            search_loop fuel' st2
      end
  end.

(** The state at the first line of the loop: [PARENT[s_start] = s_start],
    [g[s_start] = 0], [g[s_goal] = inf], and the start pushed with priority
    [p0]. *)
Definition init_state (p0 : N) : state N :=
  State (heapq.heappush (item_lt (N:=N)) [] (p0, s_start)) []
        {[ s_start := s_start ]}
        (<[s_goal := n_inf]> {[ s_start := n_of_Z 0 ]}).

(** The last line of [searching]:
    [return self.extract_path(self.PARENT), self.CLOSED]. *)
Definition finish (fuel : nat) (st : state N) : result (list coord * list coord) :=
  path ← extract_path fuel (PARENT st);
  Ok (path, CLOSED st).
End Planner.

(** [get_terrain_cost]: the multiplier of a node, 1 when the overlay has no
    entry for it.  [AStar] and [Dijkstra] define it alike. *)
Definition get_terrain_cost (terrain_cost : gmap coord Z) (node : coord) : Z :=
  match terrain_cost !! node with
  | Some c => c
  | None => 1
  end.

(** ** Standard_BFS.py

    [search] is the loop of [searching] and yields the state of the object
    when the loop is left; [searching] adds the path extraction. *)

Module BFS.
Section BFS.
Variable obs : gset coord.
Variables s_start s_goal : coord.

Definition u_set : list coord := motions4.

Definition cost (s_start s_goal : coord) : pyint :=
  if is_collision obs s_start s_goal then Inf else Int 1.

(** [prior = self.OPEN[-1][0]+1 if len(self.OPEN)>0 else 0] *)
Definition prior (st : state pyint) (new_cost : pyint) (s_n : coord) : result pyint :=
  match last (OPEN st) with
  | Some e => Ok (pyint_add e.1 (Int 1))
  | None => Ok (Int 0)
  end.

Definition search (fuel : nat) : result (state pyint) :=
  search_loop u_set s_goal cost prior fuel (init_state s_start s_goal (Int 0)).

Definition searching (fuel : nat) : result (list coord * list coord) :=
  st ← search fuel; finish s_start s_goal fuel st.
End BFS.
End BFS.

(** ** Standard_Dijkstra.py

    The priority of a pushed entry is [new_cost]; the cost of a move is the
    terrain multiplier of its destination.  Its numbers are Python integers
    and [inf], the instance [pyint]; the class is written over [Num] so that
    it can be set next to [AStar] on the same numbers. *)

Module Dijkstra.
Section Dijkstra.
Context {N : Type} `{!Num N}.
Variable obs : gset coord.
Variable terrain_cost : gmap coord Z.
Variables s_start s_goal : coord.

Definition u_set : list coord := motions4.

Definition cost (s_start s_goal : coord) : N :=
  if is_collision obs s_start s_goal then n_inf
  else n_of_Z (get_terrain_cost terrain_cost s_goal).

Definition priority (st : state N) (new_cost : N) (s_n : coord) : result N :=
  Ok new_cost.

Definition search (fuel : nat) : result (state N) :=
  search_loop u_set s_goal cost priority fuel (init_state s_start s_goal (n_of_Z 0)).

Definition searching (fuel : nat) : result (list coord * list coord) :=
  st ← search fuel; finish s_start s_goal fuel st.
End Dijkstra.
End Dijkstra.

(** ** Real_Astar.py

    [AStar] multiplies and takes [math.hypot]; [Metric] adds the two
    operations to [Num].  Its numbers are IEEE doubles, [float_num] and
    [float_metric] below. *)

Class Metric (N : Type) := {
  n_mul : N -> N -> N;        (* [*] *)
  n_hypot : Z -> Z -> N;      (* [math.hypot] of two [int]s *)
}.

Module AStar.
Section AStar.
Context {N : Type} `{!Num N} `{!Metric N}.
Variable obs : gset coord.
Variable terrain_cost : gmap coord Z.
Variables s_start s_goal : coord.
Variable heuristic_type : string.
Variable heuristic_weight : N.
(** [self.u_set]; the constructor sets it to the eight directions. *)
Variable u_set : list coord.

Definition heuristic (s : coord) : N :=
  if String.eqb heuristic_type "manhattan"%string
  then n_of_Z (Z.abs (s_goal.1 - s.1) + Z.abs (s_goal.2 - s.2))
  else n_hypot (s_goal.1 - s.1) (s_goal.2 - s.2).

Definition f_value (g : gmap coord N) (s : coord) : result N :=
  gs ← getitem g s;
  Ok (n_add gs (n_mul heuristic_weight (heuristic s))).

Definition cost (s_start s_goal : coord) : N :=
  if is_collision obs s_start s_goal then n_inf
  else
    let base_distance := n_hypot (s_goal.1 - s_start.1) (s_goal.2 - s_start.2) in
    let terrain_factor := get_terrain_cost terrain_cost s_goal in
    n_mul base_distance (n_of_Z terrain_factor).

Definition priority (st : state N) (new_cost : N) (s_n : coord) : result N :=
  f_value (g st) s_n.

Definition search (fuel : nat) : result (state N) :=
  p0 ← f_value (g (init_state s_start s_goal (n_of_Z 0))) s_start;
  search_loop u_set s_goal cost priority fuel (init_state s_start s_goal p0).

Definition searching (fuel : nat) : result (list coord * list coord) :=
  st ← search fuel; finish s_start s_goal fuel st.
End AStar.
End AStar.

(** IEEE doubles.  An [int] becomes the nearest double; [math.hypot] on two
    [int]s is the correctly rounded square root of the sum of the squares. *)
Definition float_of_Z (z : Z) : float :=
  SF2Prim (binary_normalize prec emax z 0 false).

Definition float_hypot (x y : Z) : float :=
  PrimFloat.sqrt (PrimFloat.add (PrimFloat.mul (float_of_Z x) (float_of_Z x))
                                (PrimFloat.mul (float_of_Z y) (float_of_Z y))).

#[export] Instance float_num : Num float :=
  {| n_of_Z := float_of_Z; n_inf := infinity; n_add := PrimFloat.add;
     n_lt := PrimFloat.ltb; n_eq := PrimFloat.eqb |}.

#[export] Instance float_metric : Metric float :=
  {| n_mul := PrimFloat.mul; n_hypot := float_hypot |}.

(** ** Standard_DFS.py

    The stack is a Python list whose top is its last element; [visited] is
    filled when a node is pushed.  [g] only feeds the display. *)

Module DFS.
Record dfs_state := DfsState {
  stack : list coord;
  visited : gset coord;
  CLOSED : list coord;
  PARENT : gmap coord coord;
  g : gmap coord Z;
}.

Section DFS.
Variable obs : gset coord.
Variables s_start s_goal : coord.

Definition u_set : list coord := motions4.

Definition visit (s : coord) (st : dfs_state) (s_n : coord) : result dfs_state :=
  if negb (bool_decide (s_n ∈ visited st)) && negb (is_collision obs s s_n) then
    gs ← getitem (g st) s;
    Ok (DfsState (stack st ++ [s_n]) ({[ s_n ]} ∪ visited st) (CLOSED st)
                 (<[s_n := s]> (PARENT st)) (<[s_n := gs + 1]> (g st)))
  else Ok st.

Fixpoint search_loop (fuel : nat) (st : dfs_state) : result dfs_state :=
  match last (stack st) with
  | None => Ok st
  | Some s =>
      match fuel with
      | O => NoFuel
      | S fuel' =>
          let st1 := DfsState (removelast (stack st)) (visited st)
                              (CLOSED st ++ [s]) (PARENT st) (g st) in
          if bool_decide (s = s_goal) then Ok st1
          else
            st2 ← for_each (visit s) (get_neighbor u_set s) st1;
            search_loop fuel' st2
      end
  end.

Definition init_state : dfs_state :=
  DfsState [s_start] {[ s_start ]} [] {[ s_start := s_start ]} {[ s_start := 0 ]}.

Definition search (fuel : nat) : result dfs_state :=
  search_loop fuel init_state.

Definition searching (fuel : nat) : result (list coord * list coord) :=
  st ← search fuel;
  path ← extract_path s_start s_goal fuel (PARENT st);
  Ok (path, CLOSED st).
End DFS.
End DFS.

(** ** The terrain overlay

    [AStar.__init__] and [Dijkstra.__init__] call [random.seed(42)], empty
    [terrain_cost] and [terrain_colors] and run [_initialize_terrain]; the two
    classes define [_initialize_terrain] and [_set_surrounding_costs] with the
    same text.  The module [random] keeps one generator for the process: its
    state is threaded through, and the generator itself is a parameter, given
    by [seed], the state [random.seed(a)] leaves when called in state [r], and
    by [choice], which draws from a list of [int]s and steps the state. *)

Module Terrain.
Record overlay := Overlay {
  terrain_cost : gmap coord Z;
  terrain_colors : gmap coord string;
}.

Definition range (a b : Z) : list Z :=
  map (fun i => a + Z.of_nat i) (seq 0 (Z.to_nat (b - a))).

Definition color_map : gmap Z string :=
  <[2 := "red"%string]> (<[3 := "yellow"%string]> (<[4 := "blue"%string]>
    (<[5 := "green"%string]> ∅))).

Definition terrain_types : list (Z * string * nat) :=
  [(2, "red"%string, 40%nat); (3, "yellow"%string, 35%nat);
   (4, "blue"%string, 25%nat); (5, "green"%string, 30%nat)].

Section Terrain.
Variable rng : Type.
Variable seed : rng -> Z -> rng.
Variable choice : rng -> list Z -> Z * rng.
Variable obs : gset coord.
Variables s_start s_goal : coord.

Definition ring_cell (center : coord) (distance : Z) (st : overlay * rng)
    (d : Z * Z) : result (overlay * rng) :=
  let '(dx, dy) := d in
  if Z.abs dx + Z.abs dy =? distance then
    let node := (center.1 + dx, center.2 + dy) in
    if negb (bool_decide (node ∈ obs)) && negb (bool_decide (node = s_start))
       && negb (bool_decide (node = s_goal)) then
      let '(cost, r) := choice st.2 [2; 3; 4; 5] in
      let tc := <[node := cost]> (terrain_cost st.1) in
      color ← getitem color_map cost;
      Ok (Overlay tc (<[node := color]> (terrain_colors st.1)), r)
    else Ok st
  else Ok st.

Definition _set_surrounding_costs (center : coord) (distance : Z)
    (st : overlay * rng) : result (overlay * rng) :=
  for_each (ring_cell center distance)
    (dx ← range (- distance) (distance + 1);
     dy ← range (- distance) (distance + 1);
     [(dx, dy)])
    st.

(** [while placed < count and attempts < 1000]; [budget] is what is left
    of the thousand attempts. *)
Fixpoint place (budget : nat) (cost_value : Z) (color : string)
    (count placed : nat) (st : overlay * rng) : overlay * rng :=
  match budget with
  | O => st
  | S budget' =>
      if (placed <? count)%nat then
        let '(x, r1) := choice st.2 (range 8 43) in
        let '(y, r2) := choice r1 (range 3 28) in
        let node := (x, y) in
        if negb (bool_decide (is_Some (terrain_cost st.1 !! node)))
           && negb (bool_decide (node = s_start))
           && negb (bool_decide (node = s_goal))
           && negb (bool_decide (node ∈ obs)) then
          place budget' cost_value color count (S placed)
            (Overlay (<[node := cost_value]> (terrain_cost st.1))
                     (<[node := color]> (terrain_colors st.1)), r2)
        else place budget' cost_value color count placed (st.1, r2)
      else st
  end.

Definition _initialize_terrain (st : overlay * rng) : result (overlay * rng) :=
  st1 ← _set_surrounding_costs s_start 3 st;
  st2 ← _set_surrounding_costs s_goal 3 st1;
  Ok (fold_left (fun st '(cost_value, color, count) =>
                   place 1000 cost_value color count 0 st)
                terrain_types st2).

(** The part of [__init__] that builds the overlay.  [r] is the state of
    the generator when the constructor is entered; in [Dijkstra] it is the
    state the constructor of the base class has left. *)
Definition init (r : rng) : result (overlay * rng) :=
  _initialize_terrain (Overlay ∅ ∅, seed r 42).
End Terrain.
End Terrain.

(** ** Invariants of the search loop

    The predicates the proofs carry through the loop.  [obs], [s_start] and
    the order on numbers are those of the planner at hand. *)

Section Invariants.
Context {N : Type} `{!Num N}.
Variable obs : gset coord.
Variable u_set : list coord.
Variable s_start : coord.

(** An obstacle other than the start has no parent, and its [g] is absent
    or [inf]. *)
Definition blocked_inv (st : state N) : Prop :=
  ∀ c, c ∈ obs → c ≠ s_start →
    PARENT st !! c = None ∧ (g st !! c = None ∨ g st !! c = Some n_inf).

(** Neither end of a parent link is an obstacle. *)
Definition parents_free (st : state N) : Prop :=
  ∀ s p, PARENT st !! s = Some p → (s ∉ obs) ∧ (p ∉ obs).

(** Every node with a parent is waiting in [OPEN] or has been popped into
    [CLOSED]. *)
Definition discovered_inv (st : state N) : Prop :=
  ∀ c, is_Some (PARENT st !! c) → c ∈ (OPEN st).*2 ∨ c ∈ CLOSED st.
End Invariants.

(** What C9 asks of a planner, given the loop [search] and the whole
    [searching]: obstacles stay without parent and without finite cost, and
    a returned path avoids them when the start is free. *)
Definition avoids_obstacles {N : Type} `{!Num N} (obs : gset coord) (s_start : coord)
    (search : nat → result (state N))
    (searching : nat → result (list coord * list coord)) : Prop :=
  (∀ fuel st, search fuel = Ok st → blocked_inv obs s_start st)
  ∧ (s_start ∉ obs → ∀ fuel path closed,
       searching fuel = Ok (path, closed) → ∀ c, c ∈ path → c ∉ obs).

(** ** Grids used in the examples *)

(** The four cells around [(0, 0)]: they block its eight moves, the diagonal
    ones through their corners. *)
Definition walled_in : gset coord := {[ (0, 1); (0, -1); (1, 0); (-1, 0) ]}.

(** The invariant of the depth-first loop: the nodes popped so far and the
    nodes on the stack are pairwise distinct and all marked visited. *)
Definition dfs_inv (st : DFS.dfs_state) : Prop :=
  NoDup (DFS.CLOSED st ++ DFS.stack st)
  ∧ ∀ c, c ∈ DFS.CLOSED st ++ DFS.stack st → c ∈ DFS.visited st.

(** A small congruential generator, to run the overlay construction in the
    examples: seeding sets the state, a draw indexes the list by the state. *)
Definition lcg_seed (r a : Z) : Z := a.

Definition lcg_choice (r : Z) (l : list Z) : Z * Z :=
  (nth (Z.to_nat (r mod Z.of_nat (length l))) l 0,
   (r * 1103515245 + 12345) mod 2147483648).

(** ** The pops of a run

    [pop_trace] replays the loop of [searching] and records, on the side,
    the node of every entry that [heappop] returns. *)

Section Pops.
Context {N : Type} `{!Num N}.
Variable u_set : list coord.
Variable s_goal : coord.
Variable cost : coord -> coord -> N.
Variable priority : state N -> N -> coord -> result N.

Fixpoint pop_trace (fuel : nat) (st : state N) : list coord :=
  match fuel with
  | O => []
  | S fuel' =>
      match heapq.heappop (item_lt (N:=N)) (OPEN st) with
      | Ok (item, open') =>
          let s := item.2 in
          let st1 := State open' (CLOSED st ++ [s]) (PARENT st) (g st) in
          if bool_decide (s = s_goal) then [s]
          else
            match for_each (relax cost priority s) (get_neighbor u_set s) st1 with
            | Ok st2 => s :: pop_trace fuel' st2
            | _ => [s]
            end
      | _ => []
      end
  end.
End Pops.

(** The grid of the example for C2: the frame of the square of half-width
    4 with one opening at [(4, 1)], and ten cells inside it. *)
Definition frame (r : Z) : list coord :=
  List.filter (fun c : coord => Z.max (Z.abs c.1) (Z.abs c.2) =? r)
    (x ← Terrain.range (- r) (r + 1); y ← Terrain.range (- r) (r + 1); [(x, y)]).

Definition maze : gset coord :=
  list_to_set
    (List.filter (fun c : coord => negb (bool_decide (c = (4, 1)))) (frame 4)
     ++ [(-3, -2); (-3, 0); (-2, -1); (-2, 3); (0, -2); (0, 2); (1, -3); (1, 0);
         (1, 1); (2, -1)]).

(** ** The parent links form a tree (C8)

    [num_order] is what the proof asks of [<]: a strict order with [inf] not
    below zero.  [tree_inv] says that the start is the root, that costs are
    not negative, and that every other parent link is a free move of the
    direction set from a node that has been popped and has a strictly
    smaller cost. *)

Record num_order (N : Type) `{!Num N} : Prop := {
  lt_irrefl : ∀ x : N, n_lt x x = false;
  lt_trans : ∀ x y z : N, n_lt x y = true → n_lt y z = true → n_lt x z = true;
  inf_nonneg : n_lt (n_inf : N) (n_of_Z 0) = false;
}.

Section Tree.
Context {N : Type} `{!Num N}.
Variable obs : gset coord.
Variable u_set : list coord.
Variables s_start s_goal : coord.

Record tree_inv (st : state N) : Prop := {
  tree_start_parent : PARENT st !! s_start = Some s_start;
  tree_start_g : g st !! s_start = Some (n_of_Z 0);
  tree_nonneg : ∀ c v, g st !! c = Some v → n_lt v (n_of_Z 0) = false;
  tree_link : ∀ c p, PARENT st !! c = Some p → c ≠ s_start →
    c ∈ get_neighbor u_set p ∧ is_collision obs p c = false
    ∧ p ∈ CLOSED st ∧ is_Some (PARENT st !! p)
    ∧ ∃ gp gc, g st !! p = Some gp ∧ g st !! c = Some gc ∧ n_lt gp gc = true;
  tree_open : ∀ e, e ∈ OPEN st → is_Some (PARENT st !! e.2);
  tree_closed : ∀ c, c ∈ CLOSED st → is_Some (PARENT st !! c);
}.

(** A route from the start to the goal: no node twice, every step a move
    of the direction set that the collision test lets through. *)
Definition valid_route (route : list coord) : Prop :=
  head route = Some s_start ∧ last route = Some s_goal ∧ NoDup route
  ∧ ∀ (i : nat) a b, route !! i = Some a → route !! S i = Some b →
      b ∈ get_neighbor u_set a ∧ is_collision obs a b = false.

(** The list [extract_path] builds, from the goal back to the start: each
    node is followed by its parent, and only the last one is the start. *)
Definition parent_chain (PARENT : gmap coord coord) (path : list coord) : Prop :=
  ∀ (i : nat) a b, path !! i = Some a → path !! S i = Some b →
    PARENT !! a = Some b ∧ a ≠ s_start.
End Tree.

(** [cheaper g p c]: both nodes have a cost and the cost of [p] is strictly
    below the cost of [c]. *)
Definition cheaper {N : Type} `{!Num N} (g : gmap coord N) (p c : coord) : Prop :=
  ∃ gp gc, g !! p = Some gp ∧ g !! c = Some gc ∧ n_lt gp gc = true.

(** What C8 asks of a planner: when the loop [search] ends with the goal
    popped, [searching] returns with the same fuel, and the returned path,
    reversed, is a valid route from the start to the goal. *)
Definition returns_valid_path {N : Type} `{!Num N} (obs : gset coord)
    (u_set : list coord) (s_start s_goal : coord)
    (search : nat → result (state N))
    (searching : nat → result (list coord * list coord)) : Prop :=
  ∀ fuel st, search fuel = Ok st → last (CLOSED st) = Some s_goal →
    ∃ path, searching fuel = Ok (path, CLOSED st)
      ∧ NoDup path ∧ valid_route obs u_set s_start s_goal (reverse path).

(** Integer arithmetic for [AStar], used to run it next to [Dijkstra]: the
    product of two integers, and [hypot] rounded down.  It is exact on the
    four axis moves and on the Manhattan heuristic, where every value is an
    integer; no product with [inf] occurs in the planner, both factors of a
    cost and of a priority being finite. *)
Definition pyint_mul (a b : pyint) : pyint :=
  match a, b with
  | Int x, Int y => Int (x * y)
  | _, _ => Inf
  end.

#[export] Instance pyint_metric : Metric pyint :=
  {| n_mul := pyint_mul; n_hypot := fun x y => Int (Z.sqrt (x * x + y * y)) |}.

(** ** What the loop knows about a pushed node

    [known_inv]: a node waiting in [OPEN] or popped into [CLOSED] has an
    entry in [PARENT] and in [g], and the parent of a node has a parent
    itself.  [finite_inv]: the cost of a node with a parent is below [inf].
    [first_inv]: the start is the first node popped. *)

Section Known.
Context {N : Type} `{!Num N}.
Variable s_start : coord.

Definition known_inv (st : state N) : Prop :=
  (∀ c, c ∈ (OPEN st).*2 ∨ c ∈ CLOSED st →
     is_Some (PARENT st !! c) ∧ is_Some (g st !! c))
  ∧ (∀ c p, PARENT st !! c = Some p → is_Some (PARENT st !! p)).

Definition finite_inv (st : state N) : Prop :=
  ∀ c, is_Some (PARENT st !! c) → ∃ v, g st !! c = Some v ∧ n_lt v n_inf = true.

Definition first_inv (st : state N) : Prop :=
  (CLOSED st = [] ∧ ∃ p0, OPEN st = [(p0, s_start)])
  ∨ head (CLOSED st) = Some s_start.
End Known.

(** What [<] and [inf] have to satisfy for [finite_inv]: zero is below
    [inf], and whatever is below something is below [inf]. *)
Record num_inf (N : Type) `{!Num N} : Prop := {
  zero_lt_inf : n_lt (n_of_Z 0 : N) n_inf = true;
  lt_lt_inf : ∀ x y : N, n_lt x y = true → n_lt x n_inf = true;
}.

(** How a run of a planner ends, given its loop [search] and the whole
    [searching].  [ends_at_goal]: a returned trace begins with the start and
    ends with the goal, a returned path begins with the goal and ends with
    the start.  [raises_when_exhausted]: the loop never raises, and
    [searching] raises, a [KeyError], exactly when the loop has emptied
    [OPEN] without popping the goal. *)
Definition ends_at_goal (s_start s_goal : coord)
    (searching : nat → result (list coord * list coord)) : Prop :=
  ∀ fuel path closed, searching fuel = Ok (path, closed) →
    head closed = Some s_start ∧ last closed = Some s_goal
    ∧ head path = Some s_goal ∧ last path = Some s_start.

Definition raises_when_exhausted {N : Type} (s_goal : coord)
    (search : nat → result (state N))
    (searching : nat → result (list coord * list coord)) : Prop :=
  (∀ fuel e, search fuel ≠ Raise e)
  ∧ (∀ fuel e, searching fuel = Raise e → e = KeyError)
  ∧ (∀ fuel, searching fuel = Raise KeyError
       ↔ ∃ st, search fuel = Ok st ∧ OPEN st = [] ∧ s_goal ∉ CLOSED st).

(** [visited_costs_finite]: every node of the trace [CLOSED] has a cost in
    [g], and that cost is below [inf]. *)
Definition visited_costs_finite {N : Type} `{!Num N}
    (search : nat → result (state N)) : Prop :=
  ∀ fuel st, search fuel = Ok st →
    ∀ c, c ∈ CLOSED st → ∃ v, g st !! c = Some v ∧ n_lt v n_inf = true.

(** ** Where the overlay puts its costs

    [on_ring]: the node is at Manhattan distance [distance] from [center].
    [eligible]: the node is no obstacle, not the start and not the goal.
    [in_rectangle]: the node lies in [range(8, 43)] by [range(3, 28)].
    [overlay_ok] is what the construction keeps true of every node: a cost
    between 2 and 5 on an eligible node of one of the two rings or of the
    rectangle, with the colour [color_map] gives to that cost, or no cost
    and no colour.  [draws_from_list] is what is asked of [random.choice]:
    the value drawn from a list that is not empty is one of its elements. *)

Section Overlay.
Variable obs : gset coord.
Variables s_start s_goal : coord.

Definition on_ring (center : coord) (distance : Z) (node : coord) : Prop :=
  Z.abs (node.1 - center.1) + Z.abs (node.2 - center.2) = distance.

Definition eligible (node : coord) : Prop :=
  (node ∉ obs) ∧ node ≠ s_start ∧ node ≠ s_goal.

Definition in_rectangle (node : coord) : Prop :=
  8 ≤ node.1 ≤ 42 ∧ 3 ≤ node.2 ≤ 27.

Definition overlay_ok (ov : Terrain.overlay) : Prop :=
  ∀ node,
    match Terrain.terrain_cost ov !! node with
    | Some c =>
        2 ≤ c ≤ 5 ∧ eligible node
        ∧ Terrain.terrain_colors ov !! node = Terrain.color_map !! c
        ∧ (on_ring s_start 3 node ∨ on_ring s_goal 3 node ∨ in_rectangle node)
    | None => Terrain.terrain_colors ov !! node = None
    end.
End Overlay.

Definition draws_from_list {rng : Type} (choice : rng → list Z → Z * rng) : Prop :=
  ∀ r l, l ≠ [] → (choice r l).1 ∈ l.

(** ** The depth-first tree

    What the loop of [DFS.searching] keeps true.  The start is the root
    with depth 0.  The visited set is the set of the nodes popped or on the
    stack, and these are the nodes with a parent.  The entry of a node in
    [g] is its depth, at most the number of nodes popped so far and below it
    once the node itself is popped.  Every other parent link is a free move
    of the four directions from a popped node, one level up. *)

Section DFS_tree.
Variable obs : gset coord.
Variable s_start : coord.

Record dfs_tree (st : DFS.dfs_state) : Prop := {
  dfs_start_parent : DFS.PARENT st !! s_start = Some s_start;
  dfs_start_g : DFS.g st !! s_start = Some 0;
  dfs_first : (DFS.CLOSED st = [] ∧ DFS.stack st = [s_start])
              ∨ head (DFS.CLOSED st) = Some s_start;
  dfs_visited : ∀ c, c ∈ DFS.visited st ↔ c ∈ DFS.CLOSED st ++ DFS.stack st;
  dfs_parent : ∀ c, is_Some (DFS.PARENT st !! c) ↔ c ∈ DFS.visited st;
  dfs_depth : ∀ c, c ∈ DFS.visited st →
    ∃ z, DFS.g st !! c = Some z ∧ 0 ≤ z ≤ Z.of_nat (length (DFS.CLOSED st))
      ∧ (c ∈ DFS.CLOSED st → z < Z.of_nat (length (DFS.CLOSED st)));
  dfs_link : ∀ c p, DFS.PARENT st !! c = Some p → c ≠ s_start →
    p ∈ DFS.CLOSED st ∧ c ∈ get_neighbor motions4 p ∧ is_collision obs p c = false
    ∧ ∃ gp, DFS.g st !! p = Some gp ∧ DFS.g st !! c = Some (gp + 1);
}.
End DFS_tree.

(** How a run of [DFS] ends: as [raises_when_exhausted], on the stack. *)
Definition dfs_raises_when_exhausted (obs : gset coord) (s_start s_goal : coord) : Prop :=
  (∀ fuel e, DFS.search obs s_start s_goal fuel ≠ Raise e)
  ∧ (∀ fuel e, DFS.searching obs s_start s_goal fuel = Raise e → e = KeyError)
  ∧ (∀ fuel, DFS.searching obs s_start s_goal fuel = Raise KeyError
       ↔ ∃ st, DFS.search obs s_start s_goal fuel = Ok st
           ∧ DFS.stack st = [] ∧ s_goal ∉ DFS.CLOSED st).

(** A set of nodes that no free move of the four directions leaves. *)
Definition closed_region (obs : gset coord) (R : gset coord) : Prop :=
  ∀ a b, a ∈ R → b ∈ get_neighbor motions4 a → is_collision obs a b = false → b ∈ R.

(** ** The heap order of [OPEN]

    [heapq] keeps its list in heap order: no item is below the item at its
    parent position [(i - 1) / 2].  [heap_but pos] is heap order with a hole
    at [pos], as it is inside [_siftdown] and [_siftup]: every item away
    from the hole is in order with its parent, and the children of the hole
    are in order with the parent of the hole.  [strict_weak] is what the
    comparison of the items has to satisfy. *)

Definition heap_parent (i : nat) : nat := ((i - 1) / 2)%nat.

Record strict_weak {A : Type} (lt : A → A → bool) : Prop := {
  sw_irrefl : ∀ a, lt a a = false;
  sw_asym : ∀ a b, lt a b = true → lt b a = false;
  sw_negtrans : ∀ a b c, lt a b = false → lt b c = false → lt a c = false;
}.

Section Heap_order.
Context {A : Type} (lt : A → A → bool).

Definition is_heap (heap : list A) : Prop :=
  ∀ (i : nat) x p, (0 < i)%nat →
    heap !! i = Some x → heap !! heap_parent i = Some p → lt x p = false.

Definition heap_but (pos : nat) (heap : list A) : Prop :=
  (∀ (i : nat) x p, (0 < i)%nat → i ≠ pos → heap_parent i ≠ pos →
     heap !! i = Some x → heap !! heap_parent i = Some p → lt x p = false)
  ∧ (∀ (c : nat) x q, (0 < pos)%nat → (0 < c)%nat → heap_parent c = pos →
       heap !! c = Some x → heap !! heap_parent pos = Some q → lt x q = false).
End Heap_order.

(** [pops_least] replays the loop of [searching] and says, at every pop,
    that no entry of [OPEN] is below the entry popped. *)
Section Pops_least.
Context {N : Type} `{!Num N}.
Variable u_set : list coord.
Variable s_goal : coord.
Variable cost : coord -> coord -> N.
Variable priority : state N -> N -> coord -> result N.

Fixpoint pops_least (fuel : nat) (st : state N) : Prop :=
  match fuel with
  | O => True
  | S fuel' =>
      match heapq.heappop (item_lt (N:=N)) (OPEN st) with
      | Ok (item, open') =>
          (∀ e, e ∈ OPEN st → item_lt e item = false)
          ∧ (if bool_decide (item.2 = s_goal) then True
             else
               match for_each (relax cost priority item.2) (get_neighbor u_set item.2)
                       (State open' (CLOSED st ++ [item.2]) (PARENT st) (g st)) with
               | Ok st2 => pops_least fuel' st2
               | _ => True
               end)
      | _ => True
      end
  end.
End Pops_least.

(** ** Walks and their cost

    A walk is a list of nodes in which every node is followed by one of its
    neighbours.  Its cost is summed as the loop of [searching] sums [g]:
    from the first node on, adding the cost of each move to the sum so
    far. *)

Section Routes.
Context {N : Type} `{!Num N}.
Variable u_set : list coord.
Variable cost : coord → coord → N.

Fixpoint route_cost_from (acc : N) (a : coord) (rest : list coord) : N :=
  match rest with
  | [] => acc
  | b :: rest' => route_cost_from (n_add acc (cost a b)) b rest'
  end.

Definition route_cost (route : list coord) : N :=
  match route with
  | [] => n_of_Z 0
  | a :: rest => route_cost_from (n_of_Z 0) a rest
  end.

Definition walk (a b : coord) (route : list coord) : Prop :=
  head route = Some a ∧ last route = Some b
  ∧ ∀ (i : nat) x y, route !! i = Some x → route !! S i = Some y →
      y ∈ get_neighbor u_set x.
End Routes.

(** ** The invariant of [Dijkstra]

    Costs are integers here.  [cheapest v z]: no walk of the four directions
    from the start to [v] costs less than [z].  [relaxed st u n]: if the
    move from [u] to [n] is free, [g] of [n] is at most [g] of [u] plus the
    cost of the move.  [dij_core] holds throughout the loop: [OPEN] is a
    heap; the start has cost 0; an integer in [g] is the cost of some walk
    from the start; an entry of [OPEN] has a priority that is not below the
    cost of its node; a node with an integer cost that has not been popped
    has an entry in [OPEN] with that very cost; the cost of a popped node
    is the cheapest; and the parent of a node is a popped node from which a
    free move leads to it, its cost being the cost of the parent plus the
    cost of the move.  [dij_inv] adds, between two turns of the loop, that
    the goal has not been popped and that the moves out of every popped
    node are relaxed; [dij_mid v done] is the state while [v] is expanded
    and the neighbours in [done] have been handled. *)

Section Dijkstra_inv.
Variable obs : gset coord.
Variable terrain_cost : gmap coord Z.
Variables s_start s_goal : coord.

Definition cheapest (v : coord) (z : Z) : Prop :=
  ∀ route w, walk motions4 s_start v route →
    route_cost (Dijkstra.cost (N:=pyint) obs terrain_cost) route = Int w → z ≤ w.

Definition relaxed (st : state pyint) (u n : coord) : Prop :=
  is_collision obs u n = false →
  ∃ zu zn, g st !! u = Some (Int zu) ∧ g st !! n = Some (Int zn)
    ∧ zn ≤ zu + get_terrain_cost terrain_cost n.

Record dij_core (st : state pyint) : Prop := {
  dij_heap : is_heap (item_lt (N:=pyint)) (OPEN st);
  dij_start : g st !! s_start = Some (Int 0);
  dij_walk : ∀ v z, g st !! v = Some (Int z) →
    ∃ route, walk motions4 s_start v route
      ∧ route_cost (Dijkstra.cost (N:=pyint) obs terrain_cost) route = Int z;
  dij_entry : ∀ p v, (p, v) ∈ OPEN st →
    ∃ q z, p = Int q ∧ g st !! v = Some (Int z) ∧ z ≤ q;
  dij_fresh : ∀ v z, g st !! v = Some (Int z) → v ∉ CLOSED st → (Int z, v) ∈ OPEN st;
  dij_closed : ∀ u, u ∈ CLOSED st → ∃ zu, g st !! u = Some (Int zu) ∧ cheapest u zu;
  dij_parent : ∀ c p, PARENT st !! c = Some p → c ≠ s_start →
    p ∈ CLOSED st ∧ c ∈ get_neighbor motions4 p ∧ is_collision obs p c = false
    ∧ ∃ zp, g st !! p = Some (Int zp)
        ∧ g st !! c = Some (Int (zp + get_terrain_cost terrain_cost c));
}.

Definition dij_inv (st : state pyint) : Prop :=
  dij_core st ∧ (s_goal ∉ CLOSED st)
  ∧ ∀ u n, u ∈ CLOSED st → n ∈ get_neighbor motions4 u → relaxed st u n.

Definition dij_mid (v : coord) (done : list coord) (st : state pyint) : Prop :=
  dij_core st ∧ v ∈ CLOSED st
  ∧ (∀ u, u ∈ CLOSED st → u ≠ v → u ≠ s_goal)
  ∧ (∀ u n, u ∈ CLOSED st → u ≠ v → n ∈ get_neighbor motions4 u → relaxed st u n)
  ∧ (∀ n, n ∈ done → relaxed st v n).
End Dijkstra_inv.

(** ** Repeated A* of [Real_Astar.py]

    [repeated_searching] runs the loop of [searching] on dictionaries and
    lists of its own, from the start and to the goal it is given and with
    the weight [e]; the heuristic, the neighbours, the cost and
    [extract_path] are the methods of the object, and the first and the last
    use the start and the goal of the object.  [searching_repeated_astar]
    calls it with the start and the goal of the object for the weights [e],
    [e - 0.5], ... as long as the weight is at least 1, and collects the
    paths and the traces; its weight is a double.  [rounds] bounds the turns
    of that loop, [fuel] the turns of each search. *)

Module Repeated.
Section Repeated.
Context {N : Type} `{!Num N} `{!Metric N}.
Variable obs : gset coord.
Variable terrain_cost : gmap coord Z.
Variables s_start s_goal : coord.
Variable heuristic_type : string.
Variable u_set : list coord.

(** [g[s_n] + e * self.heuristic(s_n)] *)
Definition priority (e : N) (st : state N) (new_cost : N) (s_n : coord) : result N :=
  gs ← getitem (g st) s_n;
  Ok (n_add gs (n_mul e (AStar.heuristic s_goal heuristic_type s_n))).

Definition repeated_searching (s_start' s_goal' : coord) (e : N) (fuel : nat)
    : result (list coord * list coord) :=
  let g0 : gmap coord N := <[s_goal' := n_inf]> {[ s_start' := n_of_Z 0 ]} in
  gs ← getitem g0 s_start';
  let p0 := n_add gs (n_mul e (AStar.heuristic s_goal heuristic_type s_start')) in
  st ← search_loop u_set s_goal' (AStar.cost obs terrain_cost) (priority e) fuel
         (init_state s_start' s_goal' p0);
  path ← extract_path s_start s_goal fuel (PARENT st);
  Ok (path, CLOSED st).
End Repeated.

Section Repeated_float.
Variable obs : gset coord.
Variable terrain_cost : gmap coord Z.
Variables s_start s_goal : coord.
Variable heuristic_type : string.
Variable u_set : list coord.

Fixpoint searching_repeated_astar_loop (rounds fuel : nat) (e : float)
    (path visited : list (list coord))
    : result (list (list coord) * list (list coord)) :=
  if PrimFloat.leb 1 e then
    match rounds with
    | O => NoFuel
    | S rounds' =>
        '(p_k, v_k) ← repeated_searching (N:=float) obs terrain_cost s_start s_goal
                        heuristic_type u_set s_start s_goal e fuel;
        searching_repeated_astar_loop rounds' fuel (PrimFloat.sub e 0.5)
          (path ++ [p_k]) (visited ++ [v_k])
    end
  else Ok (path, visited).

Definition searching_repeated_astar (rounds fuel : nat) (e : float)
    : result (list (list coord) * list (list coord)) :=
  searching_repeated_astar_loop rounds fuel e [] [].
End Repeated_float.
End Repeated.

(** ** plotting.py

    The figure is the list of what the calls of [matplotlib.pyplot] add to
    it, in the order of the calls: [Marker] for [plt.plot] on one point,
    [Plot] for [plt.plot] on lists of coordinates, [Text] for [plt.text]
    with the integer it prints, [Title] and [Axis].  Of their arguments the
    coordinates and the format or colour are kept; sizes, widths and
    transparency are not.  [plt.pause], [plt.show] and the key handler add
    nothing to the figure and are left out.

    A method returns what it has added to the figure, together with the
    lists it has changed in place: [plot_visited] removes the start and the
    goal from the list it is given, which is the list of the caller.  A
    dictionary that is iterated, [terrain_colors], is given by its items in
    the order of the iteration. *)

Module Plotting.
Inductive error := IndexError | OverflowError.

Inductive outcome (A : Type) :=
| Returns (a : A)
| Raises (e : error).
Arguments Returns {A} a.
Arguments Raises {A} e.

#[export] Instance outcome_bind : MBind outcome := fun A B k r =>
  match r with
  | Returns a => k a
  | Raises e => Raises e
  end.

Inductive artist :=
| Marker (x y : Z) (fmt : string)
| Plot (xs ys : list Z) (fmt : string)
| Text (x y : Z) (label : Z)
| Title (name : string)
| Axis (mode : string).

(** A [for] loop whose body may raise. *)
Fixpoint for_loop {A S} (body : S -> A -> outcome S) (l : list A) (st : S) : outcome S :=
  match l with
  | [] => Returns st
  | x :: l' => st' ← body st x; for_loop body l' st'
  end.

(** [if x in l: l.remove(x)]: the first occurrence goes. *)
Fixpoint remove (x : coord) (l : list coord) : list coord :=
  match l with
  | [] => []
  | y :: l' => if bool_decide (y = x) then l' else y :: remove x l'
  end.

(** [l[k]] *)
Definition index {A} (l : list A) (k : nat) : outcome A :=
  match l !! k with
  | Some x => Returns x
  | None => Raises IndexError
  end.

(** [int(distance)] on the costs of [Dijkstra], [BFS] and [DFS]:
    [int(math.inf)] raises [OverflowError]. *)
Definition pyint_int (v : pyint) : outcome Z :=
  match v with
  | Int z => Returns z
  | Inf => Raises OverflowError
  end.

Definition color_list : list string * list string :=
  (["silver"; "wheat"; "lightskyblue"; "royalblue"; "slategray"]%string,
   ["gray"; "orange"; "deepskyblue"; "red"; "m"]%string).

Definition color_list_2 : list string :=
  ["silver"; "steelblue"; "dimgray"; "cornflowerblue"; "dodgerblue"; "royalblue";
   "plum"; "mediumslateblue"; "mediumpurple"; "blueviolet"]%string.

Section Plotting.
Context {N : Type}.
(** [int] on the values of [cost_dict]. *)
Variable to_int : N -> outcome Z.
(** [self.xI], [self.xG] and [self.obs]. *)
Variables xI xG : coord.
Variable obs : list coord.

Definition plot_grid (name : string) : list artist :=
  [Marker xI.1 xI.2 "bs"; Marker xG.1 xG.2 "gs";
   Plot (fst <$> obs) (snd <$> obs) "sk"; Title name; Axis "equal"].

Definition plot_terrain (terrain_colors : list (coord * string)) : list artist :=
  (fun item : coord * string => Marker item.1.1 item.1.2 item.2) <$> terrain_colors.

(** The body of the loop of [plot_visited]: the circle, and the number in
    it when [cost_dict] is given and has the node. *)
Definition plot_visited_node (cl : string) (cost_dict : option (gmap coord N))
    (fig : list artist) (x : coord) : outcome (list artist) :=
  let fig1 := fig ++ [Marker x.1 x.2 cl] in
  match cost_dict with
  | Some d =>
      match d !! x with
      | Some distance => label ← to_int distance; Returns (fig1 ++ [Text x.1 x.2 label])
      | None => Returns fig1
      end
  | None => Returns fig1
  end.

Definition plot_visited (visited : list coord) (cl : string)
    (cost_dict : option (gmap coord N)) : outcome (list coord * list artist) :=
  let visited := remove xI visited in
  let visited := remove xG visited in
  fig ← for_loop (plot_visited_node cl cost_dict) visited [];
  Returns (visited, fig).

(** [plot_path]: one line for every two successive nodes, then the start
    and the goal again. *)
Definition plot_path (path : list coord) (cl : string) (flag : bool) : list artist :=
  let color := if flag then cl else "r"%string in
  ((fun i : nat =>
      Plot [(path !!! i).1; (path !!! S i).1] [(path !!! i).2; (path !!! S i).2] color)
     <$> seq 0 (length path - 1))
  ++ [Marker xI.1 xI.2 "bs"; Marker xG.1 xG.2 "gs"].

Definition animation (path visited : list coord) (name : string)
    (cost_dict : option (gmap coord N)) (terrain_colors : option (list (coord * string)))
    : outcome (list coord * list artist) :=
  let grid := plot_grid name in
  let terrain :=
    match terrain_colors with
    | Some (item :: items) => plot_terrain (item :: items)
    | _ => []
    end in
  '(visited, fig) ← plot_visited visited "gray" cost_dict;
  Returns (visited, grid ++ terrain ++ fig ++ plot_path path "r" false).

(** One turn of the loop of [animation_ara_star]: [visited[k]] loses the
    start and the goal. *)
Definition ara_turn (path : list (list coord))
    (st : list (list coord) * list artist) (k : nat)
    : outcome (list (list coord) * list artist) :=
  v_k ← index st.1 k;
  cl_v ← index color_list.1 k;
  '(v_k, fig) ← plot_visited v_k cl_v None;
  p_k ← index path k;
  cl_p ← index color_list.2 k;
  Returns (<[k := v_k]> st.1, st.2 ++ fig ++ plot_path p_k cl_p true).

Definition animation_ara_star (path visited : list (list coord)) (name : string)
    : outcome (list (list coord) * list artist) :=
  for_loop (ara_turn path) (seq 0 (length path)) (visited, plot_grid name).

(** One turn of the loop of [animation_lrta]; the third component is
    [path_combine]. *)
Definition lrta_turn (path : list (list coord))
    (st : list (list coord) * list artist * list coord) (k : nat)
    : outcome (list (list coord) * list artist * list coord) :=
  v_k ← index st.1.1 k;
  cl ← index color_list_2 k;
  '(v_k, fig) ← plot_visited v_k cl None;
  p_k ← index path k;
  Returns (<[k := v_k]> st.1.1, st.1.2 ++ fig ++ plot_path p_k "r" false, st.2 ++ p_k).

Definition animation_lrta (path visited : list (list coord)) (name : string)
    : outcome (list (list coord) * list artist) :=
  st ← for_loop (lrta_turn path) (seq 0 (length path)) (visited, plot_grid name, []);
  let path_combine := remove xI st.2 in
  Returns (st.1.1, st.1.2 ++ plot_path path_combine "r" false).
End Plotting.
End Plotting.

(** What [main] of [Standard_BFS.py] and of [Standard_Dijkstra.py] shows
    once [searching] has returned, for the state [st] the loop has left:
    [animation] returns; the list [visited] of the caller is left as the
    trace without the start, its first node, and the goal, its last node;
    the figure is the grid, the terrain, a gray circle with its cost in [g]
    for each of the remaining nodes in the order of the trace, and the
    path. *)
Definition animation_labels_trace (s_start s_goal : coord)
    (search : nat → result (state pyint))
    (searching : nat → result (list coord * list coord)) : Prop :=
  ∀ fuel st path closed obs name terrain_colors,
    search fuel = Ok st → searching fuel = Ok (path, closed) →
    ∃ (mid : list coord) (label : coord → Z),
      closed = s_start :: mid ++ [s_goal]
      ∧ (∀ x, x ∈ mid → g st !! x = Some (Int (label x)))
      ∧ Plotting.animation Plotting.pyint_int s_start s_goal obs path closed name
          (Some (g st)) terrain_colors
        = Plotting.Returns
            (mid,
             Plotting.plot_grid s_start s_goal obs name
             ++ Plotting.plot_terrain (default [] terrain_colors)
             ++ flat_map (fun x : coord =>
                            [Plotting.Marker x.1 x.2 "gray";
                             Plotting.Text x.1 x.2 (label x)]) mid
             ++ Plotting.plot_path s_start s_goal path "r" false).

(** The traces of an animation of several rounds after [k] turns, from the
    traces [visited] it is given: as many, the first [k] of them without the
    first occurrence of the start and of the goal. *)
Definition cleaned (xI xG : coord) (visited : list (list coord)) (k : nat)
    (vis : list (list coord)) : Prop :=
  length vis = length visited
  ∧ ∀ (j : nat) v, visited !! j = Some v →
      vis !! j = Some (if bool_decide (j < k)%nat
                       then Plotting.remove xG (Plotting.remove xI v) else v).

(** What the number of colours means for an animation of several rounds,
    [animate path visited]: it returns when there are no more rounds than
    colours and no more paths than traces, and then the trace of each round
    has lost the start and the goal; otherwise it raises an [IndexError]. *)
Definition colours_bound (xI xG : coord) (colours : nat)
    (animate : list (list coord) → list (list coord)
               → Plotting.outcome (list (list coord) * list Plotting.artist)) : Prop :=
  ∀ path visited,
    ((length path ≤ colours)%nat → (length path ≤ length visited)%nat →
       ∃ visited' fig,
         animate path visited = Plotting.Returns (visited', fig)
         ∧ cleaned xI xG visited (length path) visited')
    ∧ ((colours < length path)%nat ∨ (length visited < length path)%nat →
         animate path visited = Plotting.Raises Plotting.IndexError).

(** [list(dict.fromkeys(l))] of [main] in [Standard_DFS.py]: the elements
    of [l] in the order of their first occurrence. *)
Fixpoint dict_fromkeys (l : list coord) : list coord :=
  match l with
  | [] => []
  | x :: l' => x :: filter (fun y => y ≠ x) (dict_fromkeys l')
  end.

(** * Properties *)

(** ** The collision test on diagonal moves *)

Lemma is_collision_endpoint (obs : gset coord) (a b : coord) :
  a ∈ obs ∨ b ∈ obs → is_collision obs a b = true.
Proof.
  intros Hab. unfold is_collision.
  destruct Hab as [Ha | Hb].
  - rewrite (bool_decide_eq_true_2 _ Ha). reflexivity.
  - rewrite (bool_decide_eq_true_2 _ Hb), orb_true_r. reflexivity.
Qed.

Lemma is_collision_free (obs : gset coord) (a b : coord) :
  is_collision obs a b = false → (a ∉ obs) ∧ (b ∉ obs).
Proof.
  intros Hc. split; intros Hin;
    (rewrite is_collision_endpoint in Hc by auto); discriminate.
Qed.

Lemma float_diagonal_cost_finite (dx dy t : Z) :
  Z.abs dx = 1 → Z.abs dy = 1 → 1 ≤ t ≤ 5 →
  PrimFloat.ltb (PrimFloat.mul (float_hypot dx dy) (float_of_Z t)) infinity = true.
Proof.
  intros Hx Hy Ht.
  assert (dx = 1 ∨ dx = -1) as [-> | ->] by lia;
    assert (dy = 1 ∨ dy = -1) as [-> | ->] by lia;
    assert (t = 1 ∨ t = 2 ∨ t = 3 ∨ t = 4 ∨ t = 5) as [-> | [-> | [-> | [-> | ->]]]] by lia;
    vm_compute; reflexivity.
Qed.

(** C1, as the code has it.  For a diagonal move from [a] to [b] the test
    answers true exactly when an endpoint or at least one of the two corner
    cells [(a.x, b.y)], [(b.x, a.y)] is an obstacle: one blocked corner is
    enough.  The A* cost of a blocked move is [inf]; the cost of a diagonal
    step that is not blocked, over a terrain multiplier between 1 and 5, is
    below [inf]. *)
Theorem is_collision_diagonal (obs : gset coord) (terrain_cost : gmap coord Z)
    (a b : coord) :
  Z.abs (b.1 - a.1) = Z.abs (b.2 - a.2) → b.1 ≠ a.1 →
  (is_collision obs a b = true ↔
     a ∈ obs ∨ b ∈ obs ∨ (a.1, b.2) ∈ obs ∨ (b.1, a.2) ∈ obs)
  ∧ (is_collision obs a b = true →
     AStar.cost (N:=float) obs terrain_cost a b = infinity)
  ∧ (is_collision obs a b = false → Z.abs (b.1 - a.1) = 1 →
     1 ≤ get_terrain_cost terrain_cost b ≤ 5 →
     PrimFloat.ltb (AStar.cost (N:=float) obs terrain_cost a b) infinity = true).
Proof.
  intros Habs Hne. split; [| split].
  - destruct a as [x1 y1], b as [x2 y2]. simpl in *.
    unfold is_collision. simpl.
    destruct (decide ((x1, y1) ∈ obs)) as [Ha | Ha].
    { rewrite (bool_decide_eq_true_2 _ Ha). simpl. tauto. }
    rewrite (bool_decide_eq_false_2 _ Ha). simpl.
    destruct (decide ((x2, y2) ∈ obs)) as [Hb | Hb].
    { rewrite (bool_decide_eq_true_2 _ Hb). simpl. tauto. }
    rewrite (bool_decide_eq_false_2 _ Hb). simpl.
    destruct (Z.eqb_spec x1 x2) as [-> | Hx]; [done |].
    destruct (Z.eqb_spec y1 y2) as [-> | Hy]; [lia |]. simpl.
    assert (Hcorners :
      (if x2 - x1 =? y1 - y2
       then ((Z.min x1 x2, Z.min y1 y2), (Z.max x1 x2, Z.max y1 y2))
       else ((Z.min x1 x2, Z.max y1 y2), (Z.max x1 x2, Z.min y1 y2)))
      = ((x1, y2), (x2, y1)) ∨
      (if x2 - x1 =? y1 - y2
       then ((Z.min x1 x2, Z.min y1 y2), (Z.max x1 x2, Z.max y1 y2))
       else ((Z.min x1 x2, Z.max y1 y2), (Z.max x1 x2, Z.min y1 y2)))
      = ((x2, y1), (x1, y2))).
    { destruct (Z.eqb_spec (x2 - x1) (y1 - y2)) as [He | He];
        destruct (Z.lt_ge_cases x1 x2) as [Hlt | Hge].
      - left. rewrite Z.min_l, Z.min_r, Z.max_r, Z.max_l by lia. reflexivity.
      - right. rewrite Z.min_r, Z.min_l, Z.max_l, Z.max_r by lia. reflexivity.
      - left. rewrite Z.min_l, Z.max_r, Z.max_r, Z.min_l by lia. reflexivity.
      - right. rewrite Z.min_r, Z.max_l, Z.max_l, Z.min_r by lia. reflexivity. }
    destruct Hcorners as [-> | ->];
      destruct (decide ((x1, y2) ∈ obs)) as [H1 | H1];
      destruct (decide ((x2, y1) ∈ obs)) as [H2 | H2];
      rewrite ?(bool_decide_eq_true_2 _ H1), ?(bool_decide_eq_false_2 _ H1),
              ?(bool_decide_eq_true_2 _ H2), ?(bool_decide_eq_false_2 _ H2);
      simpl; split; try tauto; try discriminate; intros _; tauto.
  - intros Hc. unfold AStar.cost. rewrite Hc. reflexivity.
  - intros Hc Hunit Ht. unfold AStar.cost. rewrite Hc.
    apply float_diagonal_cost_finite; [done | lia | done].
Qed.

Lemma is_collision_diagonal_witness :
  is_collision {[ (0, 1) ]} (0, 0) (1, 1) = true
  ∧ AStar.cost (N:=float) {[ (0, 1) ]} ∅ (0, 0) (1, 1) = infinity.
Proof.
  pose proof (is_collision_diagonal {[ (0, 1) ]} ∅ (0, 0) (1, 1)) as H.
  simpl in H. destruct H as (Hiff & Hinf & _); [reflexivity | lia |].
  assert (Hc : is_collision {[ (0, 1) ]} (0, 0) (1, 1) = true).
  { apply Hiff. right. right. left. set_solver. }
  split; [exact Hc | exact (Hinf Hc)].
Defined.

(** C1 as the specification words it, with "both corner cells", fails: with
    the single obstacle [(0, 1)] the move from [(0, 0)] to [(1, 1)] has free
    endpoints and one free corner, and is blocked. *)
Lemma is_collision_both_corners_fails :
  let obs : gset coord := {[ (0, 1) ]} in
  ¬ (is_collision obs (0, 0) (1, 1) = true ↔
     (0, 0) ∈ obs ∨ (1, 1) ∈ obs ∨ ((0, 1) ∈ obs ∧ (1, 0) ∈ obs)).
Proof.
  intros obs [Hcode _].
  assert (Hc : is_collision obs (0, 0) (1, 1) = true) by (vm_compute; reflexivity).
  destruct (Hcode Hc) as [H | [H | [_ H]]]; set_solver.
Qed.

(** ** heapq keeps the entries

    Both operations permute the list that holds the heap: a push adds the
    item, a pop removes the item it returns. *)

Section heapq_facts.
Context {A : Type} (lt : A -> A -> bool).
Implicit Types (heap : list A) (x a : A).

Lemma insert_Permutation heap (i : nat) x :
  (i < length heap)%nat → <[i := x]> heap ≡ₚ x :: delete i heap.
Proof.
  intros Hi. rewrite insert_take_drop, delete_take_drop by done.
  symmetry. apply Permutation_middle.
Qed.

Lemma insert_swap_Permutation heap (i j : nat) a x :
  i ≠ j → heap !! i = Some a → (j < length heap)%nat →
  <[i := x]> (<[j := a]> heap) ≡ₚ <[j := x]> heap.
Proof.
  intros Hij Hi Hj.
  assert (Hi' : <[j := a]> heap !! i = Some a)
    by (rewrite list_lookup_insert_ne; done).
  rewrite (insert_Permutation (<[j := a]> heap) i x)
    by (eapply lookup_lt_Some; exact Hi').
  rewrite (insert_Permutation heap j x) by done.
  apply perm_skip.
  apply (Permutation_cons_inv (a := a)).
  rewrite <- (delete_Permutation _ _ _ Hi').
  apply insert_Permutation. done.
Qed.

Lemma parentpos_lt (pos : nat) : (0 < pos)%nat → ((pos - 1) / 2 < pos)%nat.
Proof. intros Hp. apply Nat.Div0.div_lt_upper_bound. lia. Qed.

Lemma siftdown_loop_Permutation (fuel : nat) heap newitem (startpos pos : nat) :
  (pos < length heap)%nat →
  heapq.siftdown_loop lt fuel heap newitem startpos pos ≡ₚ <[pos := newitem]> heap.
Proof.
  revert heap pos. induction fuel as [| fuel IH]; intros heap pos Hpos;
    cbn [heapq.siftdown_loop]; [done |].
  destruct (startpos <? pos)%nat eqn:Hlt; [| done].
  apply Nat.ltb_lt in Hlt.
  destruct (heap !! ((pos - 1) / 2)%nat) as [parent |] eqn:Hparent; [| done].
  destruct (lt newitem parent); [| done].
  rewrite IH.
  - apply insert_swap_Permutation; [| done | done].
    pose proof (parentpos_lt pos). lia.
  - rewrite length_insert. eapply lookup_lt_Some; exact Hparent.
Qed.

Lemma siftdown_Permutation heap (startpos pos : nat) :
  heapq.siftdown lt heap startpos pos ≡ₚ heap.
Proof.
  unfold heapq.siftdown. destruct (heap !! pos) as [newitem |] eqn:Hpos; [| done].
  rewrite siftdown_loop_Permutation by (eapply lookup_lt_Some; exact Hpos).
  rewrite list_insert_id; done.
Qed.

Lemma siftup_loop_Permutation (fuel : nat) heap (endpos pos : nat) heap' (pos' : nat) x :
  (pos < length heap)%nat →
  heapq.siftup_loop lt fuel heap endpos pos = (heap', pos') →
  (pos' < length heap')%nat ∧ <[pos' := x]> heap' ≡ₚ <[pos := x]> heap.
Proof.
  revert heap pos. induction fuel as [| fuel IH]; intros heap pos Hpos Hrun;
    cbn [heapq.siftup_loop] in Hrun.
  { injection Hrun as <- <-. done. }
  destruct (2 * pos + 1 <? endpos)%nat; [| injection Hrun as <- <-; done].
  set (c := match heap !! (2 * pos + 1)%nat, heap !! (2 * pos + 1 + 1)%nat with
            | Some l, Some r => if lt l r then (2 * pos + 1)%nat else (2 * pos + 1 + 1)%nat
            | _, _ => (2 * pos + 1)%nat
            end) in *.
  assert (Hc : c ≠ pos).
  { unfold c. destruct (heap !! (2 * pos + 1)%nat), (heap !! (2 * pos + 1 + 1)%nat);
      try destruct (lt _ _); lia. }
  destruct (heap !! c) as [cv |] eqn:Hcv; [| injection Hrun as <- <-; done].
  apply IH in Hrun as [Hlen Hperm].
  - split; [done |]. rewrite Hperm. apply insert_swap_Permutation; done.
  - rewrite length_insert. eapply lookup_lt_Some; exact Hcv.
Qed.

Lemma siftup_Permutation heap (pos : nat) : heapq.siftup lt heap pos ≡ₚ heap.
Proof.
  unfold heapq.siftup. destruct (heap !! pos) as [newitem |] eqn:Hpos; [| done].
  destruct (heapq.siftup_loop lt (length heap) heap (length heap) pos)
    as [heap' pos'] eqn:Hrun.
  apply (siftup_loop_Permutation _ _ _ _ _ _ newitem) in Hrun as [_ Hperm];
    [| eapply lookup_lt_Some; exact Hpos].
  rewrite siftdown_Permutation, Hperm, list_insert_id; done.
Qed.

Lemma heappush_Permutation heap x : heapq.heappush lt heap x ≡ₚ x :: heap.
Proof.
  unfold heapq.heappush. rewrite siftdown_Permutation.
  symmetry. apply Permutation_cons_append.
Qed.

Lemma heappop_Permutation heap x heap' :
  heapq.heappop lt heap = Ok (x, heap') → heap ≡ₚ x :: heap'.
Proof.
  unfold heapq.heappop. destruct (last heap) as [lastelt |] eqn:Hlast; [| done].
  apply last_Some in Hlast as [l ->]. rewrite removelast_last.
  destruct l as [| r t]; intros Hpop; injection Hpop as <- <-.
  - done.
  - rewrite siftup_Permutation. simpl. apply perm_skip.
    symmetry. apply Permutation_cons_append.
Qed.

Lemma heappop_nonempty a heap :
  ∃ x heap', heapq.heappop lt (a :: heap) = Ok (x, heap').
Proof.
  unfold heapq.heappop.
  destruct (last (a :: heap)) as [lastelt |] eqn:Hlast.
  - destruct (removelast (a :: heap)); eauto.
  - apply last_None in Hlast. done.
Qed.
End heapq_facts.

(** ** The loop of [searching], step by step *)

Lemma bind_Ok {A B} (r : result A) (k : A → result B) (b : B) :
  r ≫= k = Ok b → ∃ a, r = Ok a ∧ k a = Ok b.
Proof. destruct r; simpl; [eauto | done | done]. Qed.

Lemma for_each_invariant {A S} (body : S → A → result S) (Q : S → Prop) (l : list A) :
  (∀ st x st', x ∈ l → Q st → body st x = Ok st' → Q st') →
  ∀ st st', Q st → for_each body l st = Ok st' → Q st'.
Proof.
  induction l as [| x l IH]; intros Hbody st st' HQ Hrun; simpl in Hrun.
  - injection Hrun as <-. done.
  - apply bind_Ok in Hrun as (st1 & Hx & Hrun).
    apply (IH (fun st x st' Hin => Hbody st x st' (list_elem_of_further _ _ _ Hin)) st1);
      [| done].
    eapply Hbody; [apply list_elem_of_here | exact HQ | exact Hx].
Qed.

Section Planner_facts.
Context {N : Type} `{!Num N}.
Variable obs : gset coord.
Variable u_set : list coord.
Variables s_start s_goal : coord.
Variable cost : coord → coord → N.
Variable priority : state N → N → coord → result N.

(** What one relaxation does: nothing but a default entry of [g], or an
    update of [g] and [PARENT] with a push. *)
Lemma relax_Ok (s : coord) (st : state N) (s_n : coord) (st' : state N) :
  relax cost priority s st s_n = Ok st' →
  ∃ gs, g st !! s = Some gs ∧
    let new_cost := n_add gs (cost s s_n) in
    let gn := default n_inf (g st !! s_n) in
    (n_lt new_cost gn = false ∧
     st' = State (OPEN st) (CLOSED st) (PARENT st) (<[s_n := gn]> (g st)))
    ∨ (n_lt new_cost gn = true ∧ ∃ p,
       st' = State (heapq.heappush item_lt (OPEN st) (p, s_n)) (CLOSED st)
                   (<[s_n := s]> (PARENT st)) (<[s_n := new_cost]> (g st))).
Proof.
  unfold relax, getitem. intros Hrun.
  destruct (g st !! s) as [gs |] eqn:Hgs; [| done]. simpl in Hrun.
  exists gs. split; [done |]. simpl.
  destruct (g st !! s_n) as [gn |] eqn:Hgn; simpl in *.
  - rewrite Hgn in Hrun. simpl in Hrun.
    destruct (n_lt (n_add gs (cost s s_n)) gn) eqn:Hlt.
    + right. split; [done |].
      apply bind_Ok in Hrun as (p & _ & Hrun). injection Hrun as <-. eauto.
    + left. split; [done |]. injection Hrun as <-.
      rewrite insert_id; done.
  - rewrite lookup_insert_eq in Hrun. simpl in Hrun.
    destruct (n_lt (n_add gs (cost s s_n)) n_inf) eqn:Hlt.
    + right. split; [done |].
      apply bind_Ok in Hrun as (p & _ & Hrun). injection Hrun as <-.
      rewrite insert_insert_eq. eauto.
    + left. split; [done |]. injection Hrun as <-. done.
Qed.

(** An invariant [P] of the loop, with [Q s] holding while the neighbours of
    the popped node [s] are relaxed. *)
Lemma search_loop_invariant (P : state N → Prop) (Q : coord → state N → Prop) :
  (∀ st p s open', P st → heapq.heappop item_lt (OPEN st) = Ok ((p, s), open') →
     Q s (State open' (CLOSED st ++ [s]) (PARENT st) (g st))) →
  (∀ s st s_n st', Q s st → s_n ∈ get_neighbor u_set s →
     relax cost priority s st s_n = Ok st' → Q s st') →
  (∀ s st, Q s st → P st) →
  ∀ fuel st st', P st → search_loop u_set s_goal cost priority fuel st = Ok st' → P st'.
Proof.
  intros Hpop Hrelax HQP. induction fuel as [| fuel IH]; intros st st' HP Hrun;
    simpl in Hrun.
  - destruct (OPEN st); [injection Hrun as <-; done | done].
  - destruct (OPEN st) as [| e0 rest] eqn:Hopen; [injection Hrun as <-; done |].
    rewrite <- Hopen in Hrun.
    apply bind_Ok in Hrun as ([[p s] open'] & Hp & Hrun). simpl in Hrun.
    pose proof (Hpop st p s open' HP Hp) as HQ.
    destruct (bool_decide (s = s_goal)).
    + injection Hrun as <-. eapply HQP, HQ.
    + apply bind_Ok in Hrun as (st2 & Hfor & Hrun).
      apply (IH st2); [| done]. apply (HQP s).
      eapply (for_each_invariant _ (Q s)); [| exact HQ | exact Hfor].
      intros. eapply Hrelax; eauto.
Qed.
End Planner_facts.

(** ** Obstacles are never reached (C9) *)

(** Adding [inf] gives nothing that is below anything: for Python integers,
    and for doubles by the IEEE rules ([x + inf] is [inf] or [nan]). *)
Lemma pyint_inf_law (x y : pyint) : pyint_lt (pyint_add x Inf) y = false.
Proof. destruct x; reflexivity. Qed.

Lemma float_inf_law (x y : float) :
  PrimFloat.ltb (PrimFloat.add x infinity) y = false.
Proof.
  rewrite ltb_spec, add_spec.
  change (Prim2SF infinity) with (S754_infinity false).
  destruct (Prim2SF x) as [s | [|] | | s m e];
    destruct (Prim2SF y) as [s' | [|] | | s' m' e']; reflexivity.
Qed.

Lemma extract_path_loop_Forall (P : coord → Prop) (s_start : coord)
    (PARENT : gmap coord coord) (fuel : nat) (path0 : list coord) (s : coord)
    (path : list coord) :
  (∀ s p, PARENT !! s = Some p → P p) →
  Forall P path0 →
  extract_path_loop s_start fuel PARENT path0 s = Ok path →
  Forall P path.
Proof.
  intros HP. revert path0 s. induction fuel as [| fuel IH]; intros path0 s H0 Hrun;
    simpl in Hrun; [done |].
  apply bind_Ok in Hrun as (s' & Hs' & Hrun).
  unfold getitem in Hs'. destruct (PARENT !! s) as [p |] eqn:Hp; [| done].
  injection Hs' as ->.
  assert (Forall P (path0 ++ [s'])) as H1.
  { apply Forall_app. split; [done |]. apply Forall_singleton. eauto. }
  destruct (bool_decide (s' = s_start)).
  - injection Hrun as <-. done.
  - eapply IH; eauto.
Qed.

Lemma extract_path_Forall (P : coord → Prop) (s_start s_goal : coord)
    (PARENT : gmap coord coord) (fuel : nat) (path : list coord) :
  (∀ s p, PARENT !! s = Some p → P s ∧ P p) →
  extract_path s_start s_goal fuel PARENT = Ok path →
  Forall P path.
Proof.
  intros HP Hrun. unfold extract_path in Hrun.
  eapply extract_path_loop_Forall; [| | exact Hrun].
  - intros s p Hsp. apply (HP s p Hsp).
  - apply Forall_singleton. destruct fuel as [| fuel]; [done |]. simpl in Hrun.
    apply bind_Ok in Hrun as (s' & Hs' & _). unfold getitem in Hs'.
    destruct (PARENT !! s_goal) as [p |] eqn:Hp; [| done].
    apply (HP s_goal p Hp).
Qed.

Section Blocked.
Context {N : Type} `{!Num N}.
Variable obs : gset coord.
Variable u_set : list coord.
Variables s_start s_goal : coord.
Variable cost : coord → coord → N.
Variable priority : state N → N → coord → result N.

(** A blocked move never improves a cost; this is what [cost] returning
    [inf] amounts to. *)
Hypothesis cost_blocked : ∀ a b x y,
  is_collision obs a b = true → n_lt (n_add x (cost a b)) y = false.

Lemma relax_blocked_inv (s : coord) (st : state N) (s_n : coord) (st' : state N) :
  blocked_inv obs s_start st → relax cost priority s st s_n = Ok st' →
  blocked_inv obs s_start st'.
Proof.
  intros Hinv Hrun c Hc Hcs. destruct (Hinv c Hc Hcs) as [Hpar Hg].
  apply relax_Ok in Hrun as (gs & Hgs & [[_ ->] | [Hlt (p & ->)]]); simpl.
  - split; [done |]. destruct (decide (s_n = c)) as [-> | Hne].
    + rewrite lookup_insert_eq. right. destruct Hg as [-> | ->]; reflexivity.
    + rewrite lookup_insert_ne by done. done.
  - assert (s_n ≠ c) as Hne.
    { intros ->. rewrite cost_blocked in Hlt; [done |].
      apply is_collision_endpoint. auto. }
    rewrite !lookup_insert_ne by done. done.
Qed.

Lemma relax_parents_free (s : coord) (st : state N) (s_n : coord) (st' : state N) :
  parents_free obs st → relax cost priority s st s_n = Ok st' → parents_free obs st'.
Proof.
  intros Hinv Hrun.
  apply relax_Ok in Hrun as (gs & Hgs & [[_ ->] | [Hlt (p & ->)]]); [done |].
  intros c q. simpl. destruct (decide (s_n = c)) as [-> | Hne].
  - rewrite lookup_insert_eq. intros [= <-].
    destruct (is_collision obs s c) eqn:Hcol.
    + rewrite cost_blocked in Hlt; done.
    + apply is_collision_free in Hcol. tauto.
  - rewrite lookup_insert_ne by done. apply Hinv.
Qed.

Lemma search_loop_blocked_inv (fuel : nat) (st st' : state N) :
  blocked_inv obs s_start st →
  search_loop u_set s_goal cost priority fuel st = Ok st' →
  blocked_inv obs s_start st'.
Proof.
  apply (search_loop_invariant u_set s_goal cost priority
           (blocked_inv obs s_start) (fun _ => blocked_inv obs s_start)).
  - intros st0 p s open' Hinv _. exact Hinv.
  - intros s st0 s_n st1 Hinv _. apply relax_blocked_inv. done.
  - done.
Qed.

Lemma search_loop_parents_free (fuel : nat) (st st' : state N) :
  parents_free obs st →
  search_loop u_set s_goal cost priority fuel st = Ok st' →
  parents_free obs st'.
Proof.
  apply (search_loop_invariant u_set s_goal cost priority
           (parents_free obs) (fun _ => parents_free obs)).
  - intros st0 p s open' Hinv _. exact Hinv.
  - intros s st0 s_n st1 Hinv _. apply relax_parents_free. done.
  - done.
Qed.

Lemma init_blocked_inv (p0 : N) : blocked_inv obs s_start (init_state s_start s_goal p0).
Proof.
  intros c Hc Hcs. simpl. split.
  - rewrite lookup_singleton_ne; done.
  - destruct (decide (s_goal = c)) as [-> | Hne].
    + right. apply lookup_insert_eq.
    + left. rewrite lookup_insert_ne, lookup_singleton_ne; done.
Qed.

Lemma init_parents_free (p0 : N) :
  s_start ∉ obs → parents_free obs (init_state s_start s_goal p0).
Proof.
  intros Hs c q. simpl. intros [-> ->]%lookup_singleton_Some. done.
Qed.

Lemma finish_free (fuel : nat) (st : state N) (path closed : list coord) :
  parents_free obs st → finish s_start s_goal fuel st = Ok (path, closed) →
  ∀ c, c ∈ path → c ∉ obs.
Proof.
  intros Hinv Hrun. unfold finish in Hrun.
  apply bind_Ok in Hrun as (path' & Hpath & [= <- _]).
  apply Forall_forall.
  eapply (extract_path_Forall (fun c => c ∉ obs)); [| exact Hpath].
  exact Hinv.
Qed.
End Blocked.

Lemma BFS_cost_blocked (obs : gset coord) (a b : coord) (x y : pyint) :
  is_collision obs a b = true → n_lt (n_add x (BFS.cost obs a b)) y = false.
Proof. intros Hc. unfold BFS.cost. rewrite Hc. apply pyint_inf_law. Qed.

Lemma Dijkstra_cost_blocked (obs : gset coord) (terrain_cost : gmap coord Z)
    (a b : coord) (x y : pyint) :
  is_collision obs a b = true →
  n_lt (n_add x (Dijkstra.cost obs terrain_cost a b)) y = false.
Proof. intros Hc. unfold Dijkstra.cost. rewrite Hc. apply pyint_inf_law. Qed.

Lemma AStar_cost_blocked (obs : gset coord) (terrain_cost : gmap coord Z)
    (a b : coord) (x y : float) :
  is_collision obs a b = true →
  n_lt (n_add x (AStar.cost obs terrain_cost a b)) y = false.
Proof. intros Hc. unfold AStar.cost. rewrite Hc. apply float_inf_law. Qed.

Lemma avoids_obstacles_intro {N : Type} `{!Num N} (obs : gset coord)
    (u_set : list coord) (s_start s_goal : coord) (cost : coord → coord → N)
    (priority : state N → N → coord → result N)
    (search : nat → result (state N)) :
  (∀ a b x y, is_collision obs a b = true → n_lt (n_add x (cost a b)) y = false) →
  (∀ fuel st, search fuel = Ok st →
     ∃ p0, search_loop u_set s_goal cost priority fuel (init_state s_start s_goal p0) = Ok st) →
  avoids_obstacles obs s_start search
    (fun fuel => st ← search fuel; finish s_start s_goal fuel st).
Proof.
  intros Hcost Hsearch. split.
  - intros fuel st (p0 & Hrun)%Hsearch.
    eapply (search_loop_blocked_inv obs u_set s_start s_goal cost priority Hcost);
      [apply init_blocked_inv | exact Hrun].
  - intros Hstart fuel path closed Hrun.
    apply bind_Ok in Hrun as (st & (p0 & Hloop)%Hsearch & Hfin).
    eapply finish_free; [| exact Hfin].
    eapply (search_loop_parents_free obs u_set s_start s_goal cost priority Hcost);
      [| exact Hloop].
    apply init_parents_free. done.
Qed.

(** C9.  In the three heap planners an obstacle other than the start never
    gets a parent or a cost other than [inf], and a returned path avoids the
    obstacles when the start is free.  [AStar] runs on doubles with any
    weight, heuristic and direction set; [Dijkstra] and [BFS] on integers. *)
Theorem obstacles_never_reached (obs : gset coord) (terrain_cost : gmap coord Z)
    (s_start s_goal : coord) (heuristic_type : string) (heuristic_weight : float)
    (u_set : list coord) :
  avoids_obstacles obs s_start
    (AStar.search (N:=float) obs terrain_cost s_start s_goal heuristic_type
       heuristic_weight u_set)
    (AStar.searching (N:=float) obs terrain_cost s_start s_goal heuristic_type
       heuristic_weight u_set)
  ∧ avoids_obstacles obs s_start
      (Dijkstra.search (N:=pyint) obs terrain_cost s_start s_goal)
      (Dijkstra.searching (N:=pyint) obs terrain_cost s_start s_goal)
  ∧ avoids_obstacles obs s_start
      (BFS.search obs s_start s_goal) (BFS.searching obs s_start s_goal).
Proof.
  split; [| split].
  - eapply avoids_obstacles_intro.
    + intros a b x y. apply AStar_cost_blocked.
    + intros fuel st Hrun. unfold AStar.search in Hrun.
      apply bind_Ok in Hrun as (p0 & _ & Hrun). eauto.
  - eapply avoids_obstacles_intro.
    + intros a b x y. apply Dijkstra_cost_blocked.
    + intros fuel st Hrun. eauto.
  - eapply avoids_obstacles_intro.
    + intros a b x y. apply BFS_cost_blocked.
    + intros fuel st Hrun. eauto.
Qed.

Lemma obstacles_never_reached_witness :
  Forall (λ c, c ∉ ({[ (0, 1) ]} : gset coord)) [(1, 0); (0, 0)].
Proof.
  pose proof (obstacles_never_reached {[ (0, 1) ]} ∅ (0, 0) (1, 0)
                "manhattan" 1%float motions8) as (_ & _ & _ & Hbfs).
  assert (Hstart : (0, 0) ∉ ({[ (0, 1) ]} : gset coord)).
  { intros [=]%elem_of_singleton. }
  apply Forall_forall. eapply (Hbfs Hstart 4%nat). vm_compute. reflexivity.
Defined.

(** ** A goal that is not reached (C3) *)

Section Exhausted.
Context {N : Type} `{!Num N}.
Variable u_set : list coord.
Variables s_start s_goal : coord.
Variable cost : coord → coord → N.
Variable priority : state N → N → coord → result N.

Lemma relax_discovered_inv (s : coord) (st : state N) (s_n : coord) (st' : state N) :
  discovered_inv st → relax cost priority s st s_n = Ok st' → discovered_inv st'.
Proof.
  intros Hinv Hrun.
  apply relax_Ok in Hrun as (gs & Hgs & [[_ ->] | [Hlt (p & ->)]]); [done |].
  intros c. simpl. rewrite heappush_Permutation, fmap_cons. simpl.
  destruct (decide (s_n = c)) as [-> | Hne].
  - intros _. left. apply list_elem_of_here.
  - rewrite lookup_insert_ne by done. intros [Hc | Hc]%Hinv; [| by right].
    left. apply list_elem_of_further. done.
Qed.

Lemma search_loop_discovered_inv (fuel : nat) (st st' : state N) :
  discovered_inv st →
  search_loop u_set s_goal cost priority fuel st = Ok st' →
  discovered_inv st'.
Proof.
  apply (search_loop_invariant u_set s_goal cost priority
           discovered_inv (fun _ => discovered_inv)).
  - intros st0 p s open' Hinv Hpop c Hc. simpl.
    apply heappop_Permutation in Hpop.
    destruct (Hinv c Hc) as [Hopen | Hclosed].
    + rewrite Hpop, fmap_cons in Hopen. simpl in Hopen.
      apply elem_of_cons in Hopen as [-> | Hopen]; [| by left].
      right. apply elem_of_app. right. apply list_elem_of_here.
    + right. apply elem_of_app. by left.
  - intros s st0 s_n st1 Hinv _. apply relax_discovered_inv. done.
  - done.
Qed.

Lemma init_discovered_inv (p0 : N) : discovered_inv (init_state s_start s_goal p0).
Proof.
  intros c [q Hq]. simpl in Hq. apply lookup_singleton_Some in Hq as [-> ->].
  left. simpl. apply list_elem_of_here.
Qed.

(** When the loop ends on an empty [OPEN] without having popped the goal,
    [extract_path] looks up a parent the goal does not have: [searching]
    raises [KeyError] whatever the planner. *)
Lemma exhausted_search_raises (p0 : N) (fuel : nat) (st : state N) :
  search_loop u_set s_goal cost priority fuel (init_state s_start s_goal p0) = Ok st →
  OPEN st = [] → s_goal ∉ CLOSED st →
  finish s_start s_goal fuel st = Raise KeyError.
Proof.
  intros Hrun Hopen Hclosed.
  assert (Hpar : PARENT st !! s_goal = None).
  { apply eq_None_not_Some. intros Hsome.
    eapply search_loop_discovered_inv in Hsome;
      [| apply init_discovered_inv | exact Hrun].
    rewrite Hopen in Hsome. destruct Hsome as [Hin | Hin]; [| done].
    simpl in Hin. by apply not_elem_of_nil in Hin. }
  destruct fuel as [| fuel].
  - simpl in Hrun. done.
  - unfold finish, extract_path. simpl. unfold getitem. rewrite Hpar. reflexivity.
Qed.
End Exhausted.

(** C3 on the code.  With the four cells around the start blocked no move
    leaves it, [OPEN] empties after the first pop, and each planner raises
    [KeyError] instead of returning: the loop itself ends normally with
    [CLOSED = [s_start]], the failure is in [extract_path]. *)
Theorem unreachable_goal_raises (terrain_cost : gmap coord Z)
    (heuristic_type : string) (heuristic_weight : float) (fuel : nat) :
  AStar.searching (N:=float) walled_in terrain_cost (0, 0) (3, 3) heuristic_type
    heuristic_weight motions8 (S fuel) = Raise KeyError
  ∧ Dijkstra.searching (N:=pyint) walled_in terrain_cost (0, 0) (3, 3) (S fuel)
    = Raise KeyError
  ∧ BFS.searching walled_in (0, 0) (3, 3) (S fuel) = Raise KeyError
  ∧ DFS.searching walled_in (0, 0) (3, 3) (S fuel) = Raise KeyError
  ∧ ∃ st, BFS.search walled_in (0, 0) (3, 3) (S fuel) = Ok st
      ∧ OPEN st = [] ∧ CLOSED st = [(0, 0)].
Proof.
  destruct fuel.
  all: do 4 (split; [vm_compute; reflexivity |]).
  all: eexists; split; [vm_compute; reflexivity |]; split; reflexivity.
Qed.

(** ** The counter of [BFS] is not a queue (C6) *)

(** C6 on the code.  On the empty grid, from [(0, 0)] to [(1, 0)]: the node
    [(0, 2)], two steps from the start, is popped before [(1, 0)], one step
    from it, and the costs along [CLOSED] read 0, 1, 1, 1, 2, 1.  After the
    first pop the heap list is [(1, _); (3, _); (2, _)], so the next entry
    gets priority [2 + 1], the priority of the waiting [(1, 0)], and the tie
    goes to the smaller node. *)
Theorem BFS_closed_not_layered (k : nat) :
  ∃ st, BFS.search ∅ (0, 0) (1, 0) (6 + k) = Ok st
    ∧ CLOSED st = [(0, 0); (0, 1); (0, -1); (-1, 0); (0, 2); (1, 0)]
    ∧ (λ c, g st !! c) <$> CLOSED st
      = Some <$> [Int 0; Int 1; Int 1; Int 1; Int 2; Int 1]
    ∧ BFS.searching ∅ (0, 0) (1, 0) (6 + k) = Ok ([(1, 0); (0, 0)], CLOSED st).
Proof.
  eexists. split; [vm_compute; reflexivity |].
  repeat split; vm_compute; reflexivity.
Qed.

(** ** Depth-first search visits a node once (C10) *)

Section DFS_facts.
Variable obs : gset coord.
Variables s_start s_goal : coord.

Lemma visit_dfs_inv (s : coord) (st : DFS.dfs_state) (s_n : coord) (st' : DFS.dfs_state) :
  dfs_inv st → DFS.visit obs s st s_n = Ok st' → dfs_inv st'.
Proof.
  intros [Hnd Hvis] Hrun. unfold DFS.visit in Hrun.
  destruct (bool_decide (s_n ∈ DFS.visited st)) eqn:Hin; simpl in Hrun;
    [injection Hrun as <-; done |].
  apply bool_decide_eq_false in Hin.
  destruct (is_collision obs s s_n); simpl in Hrun; [injection Hrun as <-; done |].
  apply bind_Ok in Hrun as (gs & _ & [= <-]). split; simpl.
  - rewrite app_assoc. apply NoDup_app. split; [done |]. split.
    + intros c Hc ->%list_elem_of_singleton. apply Hin, Hvis, Hc.
    + apply NoDup_singleton.
  - intros c. rewrite app_assoc, elem_of_app, list_elem_of_singleton.
    intros [Hc | ->]; [| set_solver]. apply Hvis in Hc. set_solver.
Qed.

Lemma search_loop_dfs_inv (fuel : nat) (st st' : DFS.dfs_state) :
  dfs_inv st → DFS.search_loop obs s_goal fuel st = Ok st' → dfs_inv st'.
Proof.
  revert st. induction fuel as [| fuel IH]; intros st Hinv Hrun;
    cbn [DFS.search_loop] in Hrun.
  - destruct (last (DFS.stack st)); [done | injection Hrun as <-; done].
  - destruct (last (DFS.stack st)) as [s |] eqn:Hlast; [| injection Hrun as <-; done].
    apply last_Some in Hlast as [l Hl].
    assert (Hpop : dfs_inv (DFS.DfsState (removelast (DFS.stack st)) (DFS.visited st)
                              (DFS.CLOSED st ++ [s]) (DFS.PARENT st) (DFS.g st))).
    { destruct Hinv as [Hnd Hvis]. rewrite Hl in *. rewrite removelast_last.
      split; simpl.
      - rewrite <- app_assoc. simpl.
        rewrite (Permutation_cons_append l s). exact Hnd.
      - intros c Hc. apply Hvis. revert Hc.
        rewrite !elem_of_app, list_elem_of_singleton. tauto. }
    destruct (bool_decide (s = s_goal)); [injection Hrun as <-; done |].
    apply bind_Ok in Hrun as (st2 & Hfor & Hrun).
    apply (IH st2); [| done].
    eapply (for_each_invariant _ dfs_inv); [| exact Hpop | exact Hfor].
    intros st0 x st1 _. apply visit_dfs_inv.
Qed.

Lemma init_dfs_inv : dfs_inv (DFS.init_state s_start).
Proof.
  split; simpl.
  - apply NoDup_singleton.
  - intros c ->%list_elem_of_singleton. set_solver.
Qed.
End DFS_facts.

(** C10.  When the depth-first loop ends, the popped nodes followed by the
    nodes still on the stack form a list without repetition: no node was
    pushed twice, and the trace [CLOSED] that [searching] returns has no
    duplicate. *)
Theorem DFS_closed_NoDup (obs : gset coord) (s_start s_goal : coord) (fuel : nat) :
  (∀ st, DFS.search obs s_start s_goal fuel = Ok st →
     NoDup (DFS.CLOSED st ++ DFS.stack st))
  ∧ (∀ path closed, DFS.searching obs s_start s_goal fuel = Ok (path, closed) →
     NoDup closed).
Proof.
  assert (Hsearch : ∀ st, DFS.search obs s_start s_goal fuel = Ok st →
                          NoDup (DFS.CLOSED st ++ DFS.stack st)).
  { intros st Hrun.
    eapply (search_loop_dfs_inv obs s_start s_goal fuel _ st (init_dfs_inv s_start)), Hrun. }
  split; [exact Hsearch |].
  intros path closed Hrun. unfold DFS.searching in Hrun.
  apply bind_Ok in Hrun as (st & Hst & Hrun).
  apply bind_Ok in Hrun as (path' & _ & [= _ <-]).
  apply Hsearch in Hst. apply NoDup_app in Hst. tauto.
Qed.

Lemma DFS_closed_NoDup_witness : NoDup [(0, 0); (1, 0)].
Proof.
  apply (proj2 (DFS_closed_NoDup ∅ (0, 0) (1, 0) 2) [(1, 0); (0, 0)]).
  vm_compute. reflexivity.
Defined.

(** ** The overlay does not depend on earlier draws (C7) *)

(** C7.  [random.seed(42)] puts the generator in a state that does not depend
    on the state it was in.  So two constructions with the same start, goal
    and obstacles build the same [terrain_cost] and [terrain_colors] (and
    leave the generator in the same state), whatever was drawn before each
    of them; this also covers [Dijkstra], which seeds and builds again after
    the constructor of its base class. *)
Theorem terrain_deterministic (rng : Type) (seed : rng → Z → rng)
    (choice : rng → list Z → Z * rng) (obs : gset coord) (s_start s_goal : coord) :
  (∀ r r' a, seed r a = seed r' a) →
  ∀ r1 r2,
    Terrain.init rng seed choice obs s_start s_goal r1
    = Terrain.init rng seed choice obs s_start s_goal r2.
Proof.
  intros Hseed r1 r2. unfold Terrain.init. rewrite (Hseed r1 r2). reflexivity.
Qed.

Lemma terrain_deterministic_witness :
  Terrain.init Z lcg_seed lcg_choice walled_in (5, 5) (45, 25) 0
  = Terrain.init Z lcg_seed lcg_choice walled_in (5, 5) (45, 25) 2024.
Proof.
  apply terrain_deterministic. intros r r' a. reflexivity.
Defined.

(** ** Every popped entry is closed (C2) *)

Section Pops_facts.
Context {N : Type} `{!Num N}.
Variable u_set : list coord.
Variable s_goal : coord.
Variable cost : coord → coord → N.
Variable priority : state N → N → coord → result N.

Lemma for_each_CLOSED (s : coord) (l : list coord) (st st' : state N) :
  for_each (relax cost priority s) l st = Ok st' → CLOSED st' = CLOSED st.
Proof.
  revert st. induction l as [| s_n l IH]; intros st Hrun; simpl in Hrun.
  - injection Hrun as <-. done.
  - apply bind_Ok in Hrun as (st1 & Hrelax & Hrun).
    rewrite (IH st1 Hrun).
    apply relax_Ok in Hrelax as (gs & _ & [[_ ->] | [_ (p & ->)]]); done.
Qed.

(** C2, as the code has it.  The loop has no staleness test: when it ends,
    [CLOSED] is what it was at the beginning followed by the node of every
    entry popped, one element for each pop, whether or not a better cost has
    been recorded for that node since the entry was pushed. *)
Theorem closed_is_pop_trace (fuel : nat) (st st' : state N) :
  search_loop u_set s_goal cost priority fuel st = Ok st' →
  CLOSED st' = CLOSED st ++ pop_trace u_set s_goal cost priority fuel st.
Proof.
  revert st. induction fuel as [| fuel IH]; intros st Hrun; simpl in Hrun.
  - destruct (OPEN st); [| done]. injection Hrun as <-. simpl.
    by rewrite app_nil_r.
  - destruct (OPEN st) as [| e0 rest] eqn:Hopen.
    { injection Hrun as <-. simpl. rewrite Hopen. simpl. by rewrite app_nil_r. }
    rewrite <- Hopen in Hrun. simpl.
    apply bind_Ok in Hrun as ([item open'] & Hpop & Hrun). rewrite Hpop.
    simpl in Hrun.
    destruct (bool_decide (item.2 = s_goal)); [injection Hrun as <-; done |].
    apply bind_Ok in Hrun as (st2 & Hfor & Hrun). rewrite Hfor.
    rewrite (IH st2 Hrun), (for_each_CLOSED _ _ _ _ Hfor). simpl.
    by rewrite <- app_assoc.
Qed.
End Pops_facts.

Lemma closed_is_pop_trace_witness :
  [(0, 0); (0, 1); (0, -1); (-1, 0); (0, 2); (1, 0)]
  = pop_trace BFS.u_set (1, 0) (BFS.cost ∅) BFS.prior 6
      (init_state (0, 0) (1, 0) (Int 0)).
Proof.
  assert (∃ st', search_loop BFS.u_set (1, 0) (BFS.cost ∅) BFS.prior 6
                   (init_state (0, 0) (1, 0) (Int 0)) = Ok st'
                 ∧ CLOSED st' = [(0, 0); (0, 1); (0, -1); (-1, 0); (0, 2); (1, 0)])
    as (st' & Hrun & <-).
  { eexists. split; vm_compute; reflexivity. }
  exact (closed_is_pop_trace BFS.u_set (1, 0) (BFS.cost ∅) BFS.prior 6 _ st' Hrun).
Defined.

(** C2 as the specification words it fails.  [BFS] on the grid [maze], from
    [(0, 0)] to the opening [(4, 1)], returns a trace in which [(3, 1)] and
    [(2, 0)] occur twice: [(3, 1)] is pushed with cost 10 by [(3, 2)] and
    again with cost 8 by [(3, 0)], both entries are popped and both pops are
    appended. *)
Lemma BFS_closed_has_duplicates :
  ∃ path closed,
    BFS.searching maze (0, 0) (4, 1) 41 = Ok (path, closed)
    ∧ (∃ l1 l2, closed = l1 ++ [(3, 1); (3, 1)] ++ l2)
    ∧ ¬ NoDup closed.
Proof.
  eexists _, _. split; [vm_compute; reflexivity |]. split.
  - match goal with
    | |- ∃ l1 l2, ?c = _ => exists (take 37 c), (drop 39 c)
    end. reflexivity.
  - apply (bool_decide_eq_false_1 (NoDup _)). vm_compute. reflexivity.
Qed.

(** ** The returned path (C8) *)

Lemma is_Some_insert {V} (m : gmap coord V) (j k : coord) (v : V) :
  is_Some (m !! k) → is_Some (<[j := v]> m !! k).
Proof.
  intros Hk. destruct (decide (j = k)) as [-> | Hne].
  - rewrite lookup_insert_eq. eauto.
  - rewrite lookup_insert_ne; done.
Qed.

Section Tree_facts.
Context {N : Type} `{!Num N}.
Variable obs : gset coord.
Variable u_set : list coord.
Variables s_start s_goal : coord.
Variable cost : coord → coord → N.
Variable priority : state N → N → coord → result N.

Hypothesis Hord : num_order N.

(** Only a free move improves a cost, and the improved cost is above the
    cost of the node the move starts from. *)
Hypothesis cost_pos : ∀ a b x y,
  b ∈ get_neighbor u_set a →
  n_lt (n_add x (cost a b)) y = true →
  is_collision obs a b = false ∧ n_lt x (n_add x (cost a b)) = true.

Lemma relax_tree_inv (s : coord) (st : state N) (s_n : coord) (st' : state N) :
  tree_inv obs u_set s_start st → s ∈ CLOSED st → s_n ∈ get_neighbor u_set s →
  relax cost priority s st s_n = Ok st' →
  tree_inv obs u_set s_start st' ∧ s ∈ CLOSED st'.
Proof.
  intros Hinv Hs Hnb Hrun. destruct Hord as [Hirr Htr Hinf].
  destruct Hinv as [Hsp Hsg Hnn Hlink Hopen Hclosed].
  apply relax_Ok in Hrun as (gs & Hgs & [[_ ->] | [Hlt (p & ->)]]); simpl.
  - (* no improvement *)
    split; [| done].
    destruct (g st !! s_n) as [v |] eqn:Hv; simpl.
    { rewrite insert_id by done. split; done. }
    assert (Hother : ∀ c v, g st !! c = Some v → <[s_n := n_inf]> (g st) !! c = Some v).
    { intros c v Hc. rewrite lookup_insert_ne; [done |]. intros ->. congruence. }
    split; simpl; try done.
    + apply Hother. done.
    + intros c v. destruct (decide (s_n = c)) as [-> | Hne].
      * rewrite lookup_insert_eq. intros [= <-]. done.
      * rewrite lookup_insert_ne by done. apply Hnn.
    + intros c q Hcq Hc.
      destruct (Hlink c q Hcq Hc) as (H1 & H2 & H3 & H4 & gp & gc & Hgp & Hgc & Hpc).
      repeat split; try done. exists gp, gc. auto.
  - (* improvement *)
    destruct (cost_pos _ _ _ _ Hnb Hlt) as [Hfree Hup].
    assert (Hneg : n_lt (n_add gs (cost s s_n)) (n_of_Z 0) = false).
    { destruct (n_lt (n_add gs (cost s s_n)) (n_of_Z 0)) eqn:Hlt0; [| done].
      rewrite <- (Hnn s gs Hgs). symmetry. eapply Htr; eauto. }
    assert (Hns : s_n ≠ s_start).
    { intros ->. rewrite Hsg in Hlt. simpl in Hlt. congruence. }
    assert (Hnself : s_n ≠ s).
    { intros ->. rewrite Hgs in Hlt. simpl in Hlt.
      pose proof (Htr _ _ _ Hup Hlt) as Hself. rewrite Hirr in Hself. done. }
    split; [| done]. split; simpl.
    + rewrite lookup_insert_ne; done.
    + rewrite lookup_insert_ne; done.
    + intros c v. destruct (decide (s_n = c)) as [-> | Hne].
      * rewrite lookup_insert_eq. intros [= <-]. done.
      * rewrite lookup_insert_ne by done. apply Hnn.
    + intros c q Hcq Hc. destruct (decide (s_n = c)) as [-> | Hne].
      * rewrite lookup_insert_eq in Hcq. injection Hcq as <-.
        repeat split; try done.
        { apply is_Some_insert. apply Hclosed. done. }
        exists gs, (n_add gs (cost s c)).
        rewrite lookup_insert_ne, lookup_insert_eq by done. done.
      * rewrite lookup_insert_ne in Hcq by done.
        destruct (Hlink c q Hcq Hc) as (H1 & H2 & H3 & H4 & gp & gc & Hgp & Hgc & Hpc).
        repeat split; try done.
        { apply is_Some_insert. done. }
        destruct (decide (s_n = q)) as [-> | Hnq].
        -- exists (n_add gs (cost s q)), gc.
           rewrite lookup_insert_eq, lookup_insert_ne by done.
           repeat split; try done.
           rewrite Hgp in Hlt. simpl in Hlt. eapply Htr; eauto.
        -- exists gp, gc. rewrite !lookup_insert_ne by done. done.
    + intros e He. rewrite heappush_Permutation in He.
      apply elem_of_cons in He as [-> | He]; simpl.
      * rewrite lookup_insert_eq. eauto.
      * apply is_Some_insert. apply Hopen. done.
    + intros c Hc. apply is_Some_insert. apply Hclosed. done.
Qed.

Lemma pop_tree_inv (st : state N) (p : N) (s : coord) (open' : list (N * coord)) :
  tree_inv obs u_set s_start st →
  heapq.heappop item_lt (OPEN st) = Ok ((p, s), open') →
  tree_inv obs u_set s_start (State open' (CLOSED st ++ [s]) (PARENT st) (g st))
  ∧ s ∈ CLOSED st ++ [s].
Proof.
  intros [Hsp Hsg Hnn Hlink Hopen Hclosed] Hpop.
  apply heappop_Permutation in Hpop.
  split; [| apply elem_of_app; right; apply list_elem_of_here].
  split; simpl; try done.
  - intros c q Hcq Hc.
    destruct (Hlink c q Hcq Hc) as (H1 & H2 & H3 & H4 & H5).
    repeat split; try done. apply elem_of_app. by left.
  - intros e He. apply Hopen. rewrite Hpop. by apply list_elem_of_further.
  - intros c [Hc | ->%list_elem_of_singleton]%elem_of_app; [by apply Hclosed |].
    apply (Hopen (p, s)). rewrite Hpop. apply list_elem_of_here.
Qed.

Lemma search_loop_tree_inv (fuel : nat) (st st' : state N) :
  tree_inv obs u_set s_start st →
  search_loop u_set s_goal cost priority fuel st = Ok st' →
  tree_inv obs u_set s_start st'.
Proof.
  apply (search_loop_invariant u_set s_goal cost priority
           (tree_inv obs u_set s_start)
           (fun s st => tree_inv obs u_set s_start st ∧ s ∈ CLOSED st)).
  - intros st0 p s open' Hinv Hpop. eapply pop_tree_inv; eauto.
  - intros s st0 s_n st1 [Hinv Hs] Hnb Hrun. eapply relax_tree_inv; eauto.
  - intros s st0 [Hinv _]. done.
Qed.

Lemma init_tree_inv (p0 : N) :
  s_start ≠ s_goal → tree_inv obs u_set s_start (init_state s_start s_goal p0).
Proof.
  intros Hne. destruct Hord as [Hirr Htr Hinf]. split; simpl.
  - apply lookup_singleton_eq.
  - rewrite lookup_insert_ne by done. apply lookup_singleton_eq.
  - intros c v. destruct (decide (s_goal = c)) as [-> | Hc].
    + rewrite lookup_insert_eq. intros [= <-]. done.
    + rewrite lookup_insert_ne by done.
      intros [_ <-]%lookup_singleton_Some. apply Hirr.
  - intros c q [-> _]%lookup_singleton_Some Hc. done.
  - intros e ->%list_elem_of_singleton. simpl. rewrite lookup_singleton_eq. eauto.
  - intros c Hc. by apply not_elem_of_nil in Hc.
Qed.
End Tree_facts.

Lemma cheaper_trans {N : Type} `{!Num N} (g : gmap coord N) (a b c : coord) :
  num_order N → cheaper g a b → cheaper g b c → cheaper g a c.
Proof.
  intros [_ Htr _] (ga & gb & Ha & Hb & Hab) (gb' & gc & Hb' & Hc & Hbc).
  exists ga, gc. repeat split; try done.
  rewrite Hb in Hb'. injection Hb' as <-. eapply Htr; eauto.
Qed.

Lemma cheaper_irrefl {N : Type} `{!Num N} (g : gmap coord N) (a : coord) :
  num_order N → ¬ cheaper g a a.
Proof.
  intros [Hirr _ _] (ga & ga' & Ha & Ha' & Hlt).
  rewrite Ha in Ha'. injection Ha' as <-. rewrite Hirr in Hlt. done.
Qed.

Lemma NoDup_incl_length (l k : list coord) :
  NoDup l → (∀ x, x ∈ l → x ∈ k) → (length l ≤ length k)%nat.
Proof.
  intros Hnd Hincl. apply submseteq_length, NoDup_submseteq; done.
Qed.

Lemma parent_chain_snoc (s_start : coord) (PARENT : gmap coord coord)
    (path : list coord) (s s' : coord) :
  parent_chain s_start PARENT path → last path = Some s →
  PARENT !! s = Some s' → s ≠ s_start →
  parent_chain s_start PARENT (path ++ [s']).
Proof.
  intros Hchain Hlast Hpar Hne i a b Ha Hb.
  rewrite last_lookup in Hlast.
  destruct (decide (S i < length path)%nat) as [Hlt | Hge].
  - rewrite lookup_app_l in Ha by lia. rewrite lookup_app_l in Hb by lia.
    eapply Hchain; eauto.
  - assert (S i = length path) as Hi.
    { apply lookup_lt_Some in Hb. rewrite length_app in Hb. simpl in Hb. lia. }
    rewrite lookup_app_l in Ha by lia.
    rewrite lookup_app_r in Hb by lia.
    replace (S i - length path)%nat with 0%nat in Hb by lia.
    injection Hb as <-.
    replace (pred (length path)) with i in Hlast by lia.
    rewrite Ha in Hlast. injection Hlast as ->. done.
Qed.

Section Extract_facts.
Context {N : Type} `{!Num N}.
Variable obs : gset coord.
Variable u_set : list coord.
Variables s_start s_goal : coord.

Hypothesis Hord : num_order N.

(** With the tree invariant, following the parents from a popped node ends
    at the start before the fuel does: the nodes met are distinct popped
    nodes. *)
Lemma extract_path_loop_total (st : state N) (fuel : nat) :
  tree_inv obs u_set s_start st →
  ∀ (path0 : list coord) (s : coord),
    last path0 = Some s → s ≠ s_start → is_Some (PARENT st !! s) →
    NoDup path0 → (∀ c, c ∈ path0 → c ∈ CLOSED st) →
    (∀ c, c ∈ path0 → c = s ∨ cheaper (g st) s c) →
    parent_chain s_start (PARENT st) path0 →
    (length (CLOSED st) < length path0 + fuel)%nat →
    ∃ path, extract_path_loop s_start fuel (PARENT st) path0 s = Ok path
      ∧ (∃ rest, path = path0 ++ rest) ∧ last path = Some s_start
      ∧ NoDup path ∧ parent_chain s_start (PARENT st) path.
Proof.
  intros Hinv. induction fuel as [| fuel IH];
    intros path0 s Hlast Hs Hpar Hnd Hcl Hch Hchain Hlen.
  { pose proof (NoDup_incl_length _ _ Hnd Hcl). lia. }
  destruct Hpar as [s' Hs'].
  destruct (tree_link _ _ _ _ Hinv s s' Hs' Hs) as (_ & _ & Hs'cl & Hs'par & Hlt).
  fold (cheaper (g st) s' s) in Hlt.
  assert (Hfresh : s' ∉ path0).
  { intros Hin. destruct (Hch s' Hin) as [-> | Hc].
    - by apply cheaper_irrefl in Hlt.
    - apply (cheaper_irrefl (g st) s' Hord). eapply cheaper_trans; eauto. }
  assert (Hnd' : NoDup (path0 ++ [s'])).
  { apply NoDup_app. split; [done |]. split; [| apply NoDup_singleton].
    intros c Hc ->%list_elem_of_singleton. done. }
  assert (Hchain' : parent_chain s_start (PARENT st) (path0 ++ [s']))
    by (eapply parent_chain_snoc; eauto).
  simpl. unfold getitem. rewrite Hs'. simpl.
  destruct (bool_decide (s' = s_start)) eqn:Hstart.
  - apply bool_decide_eq_true in Hstart as ->.
    exists (path0 ++ [s_start]). split; [done |].
    split; [by exists [s_start] |]. split; [apply last_snoc |]. split; done.
  - apply bool_decide_eq_false in Hstart.
    assert (Hcl' : ∀ c, c ∈ path0 ++ [s'] → c ∈ CLOSED st).
    { intros c [Hc | ->%list_elem_of_singleton]%elem_of_app; auto. }
    assert (Hch' : ∀ c, c ∈ path0 ++ [s'] → c = s' ∨ cheaper (g st) s' c).
    { intros c [Hc | ->%list_elem_of_singleton]%elem_of_app; [right | by left].
      destruct (Hch c Hc) as [-> | Hc']; [done |]. eapply cheaper_trans; eauto. }
    assert (Hlen' : (length (CLOSED st) < length (path0 ++ [s']) + fuel)%nat).
    { rewrite length_app. simpl. lia. }
    destruct (IH (path0 ++ [s']) s' (last_snoc _ _) Hstart Hs'par Hnd' Hcl' Hch'
                Hchain' Hlen') as (path & Hrun & [rest ->] & Hres).
    exists ((path0 ++ [s']) ++ rest). split; [done |].
    split; [| done]. exists ([s'] ++ rest). by rewrite app_assoc.
Qed.

Lemma parent_chain_valid_route (st : state N) (path rest : list coord) :
  tree_inv obs u_set s_start st →
  path = s_goal :: rest → last path = Some s_start → NoDup path →
  parent_chain s_start (PARENT st) path →
  valid_route obs u_set s_start s_goal (reverse path).
Proof.
  intros Hinv Hhead Hlast Hnd Hchain. repeat split.
  - rewrite head_reverse. done.
  - rewrite last_reverse, Hhead. done.
  - rewrite reverse_Permutation. done.
  - pose proof (lookup_lt_Some _ _ _ H0) as Hlt. rewrite length_reverse in Hlt.
    rewrite reverse_lookup in H by lia. rewrite reverse_lookup in H0 by lia.
    replace (length path - S i)%nat with (S (length path - S (S i)))%nat in H by lia.
    destruct (Hchain _ _ _ H0 H) as [Hpar Hne].
    destruct (tree_link _ _ _ _ Hinv _ _ Hpar Hne) as (Hnb & _). done.
  - pose proof (lookup_lt_Some _ _ _ H0) as Hlt. rewrite length_reverse in Hlt.
    rewrite reverse_lookup in H by lia. rewrite reverse_lookup in H0 by lia.
    replace (length path - S i)%nat with (S (length path - S (S i)))%nat in H by lia.
    destruct (Hchain _ _ _ H0 H) as [Hpar Hne].
    destruct (tree_link _ _ _ _ Hinv _ _ Hpar Hne) as (_ & Hfree & _). done.
Qed.
End Extract_facts.

Section Path_valid.
Context {N : Type} `{!Num N}.
Variable obs : gset coord.
Variable u_set : list coord.
Variables s_start s_goal : coord.
Variable cost : coord → coord → N.
Variable priority : state N → N → coord → result N.

Lemma search_loop_closed_length (fuel : nat) (st st' : state N) :
  search_loop u_set s_goal cost priority fuel st = Ok st' →
  (length (CLOSED st') ≤ length (CLOSED st) + fuel)%nat.
Proof.
  revert st. induction fuel as [| fuel IH]; intros st Hrun; simpl in Hrun.
  - destruct (OPEN st); [| done]. injection Hrun as <-. lia.
  - destruct (OPEN st) as [| e0 rest] eqn:Hopen; [injection Hrun as <-; lia |].
    rewrite <- Hopen in Hrun.
    apply bind_Ok in Hrun as ([item open'] & Hpop & Hrun). simpl in Hrun.
    destruct (bool_decide (item.2 = s_goal)).
    + injection Hrun as <-. simpl. rewrite length_app. simpl. lia.
    + apply bind_Ok in Hrun as (st2 & Hfor & Hrun).
      apply IH in Hrun. apply for_each_CLOSED in Hfor. rewrite Hfor in Hrun.
      simpl in Hrun. rewrite length_app in Hrun. simpl in Hrun. lia.
Qed.

Hypothesis Hord : num_order N.
Hypothesis cost_pos : ∀ a b x y,
  b ∈ get_neighbor u_set a →
  n_lt (n_add x (cost a b)) y = true →
  is_collision obs a b = false ∧ n_lt x (n_add x (cost a b)) = true.

(** The loop shared by the three heap planners, then [finish]. *)
Lemma search_path_valid (search : nat → result (state N)) :
  s_start ≠ s_goal →
  (∀ fuel st, search fuel = Ok st →
     ∃ p0, search_loop u_set s_goal cost priority fuel (init_state s_start s_goal p0) = Ok st) →
  returns_valid_path obs u_set s_start s_goal search
    (fun fuel => st ← search fuel; finish s_start s_goal fuel st).
Proof.
  intros Hne Hsearch fuel st Hrun Hgoal.
  rewrite Hrun. simpl.
  apply Hsearch in Hrun as (p0 & Hrun).
  assert (Hinv : tree_inv obs u_set s_start st).
  { eapply (search_loop_tree_inv obs u_set s_start s_goal cost priority Hord cost_pos);
      [| exact Hrun].
    apply init_tree_inv; done. }
  apply search_loop_closed_length in Hrun. simpl in Hrun.
  assert (Hin : s_goal ∈ CLOSED st).
  { apply last_Some in Hgoal as [l ->]. apply elem_of_app. right. apply list_elem_of_here. }
  destruct (extract_path_loop_total obs u_set s_start Hord st fuel Hinv [s_goal] s_goal)
    as (path & Hpath & [rest Hrest] & Hlast & Hnd & Hchain).
  - done.
  - done.
  - apply (tree_closed _ _ _ _ Hinv). done.
  - apply NoDup_singleton.
  - intros c ->%list_elem_of_singleton. done.
  - intros c ->%list_elem_of_singleton. by left.
  - intros i a b Ha Hb. destruct i; done.
  - simpl. lia.
  - exists path. unfold finish, extract_path. rewrite Hpath. simpl.
    split; [done |]. split; [done |].
    eapply parent_chain_valid_route; eauto.
Qed.
End Path_valid.

Lemma pyint_num_order : num_order pyint.
Proof.
  split.
  - intros [x |]; simpl; [apply Z.ltb_irrefl | done].
  - intros [x |] [y |] [z |]; simpl; try done.
    intros H1%Z.ltb_lt H2%Z.ltb_lt. apply Z.ltb_lt. lia.
  - done.
Qed.

Lemma BFS_cost_pos (obs : gset coord) (a b : coord) (x y : pyint) :
  n_lt (n_add x (BFS.cost obs a b)) y = true →
  is_collision obs a b = false ∧ n_lt x (n_add x (BFS.cost obs a b)) = true.
Proof.
  unfold BFS.cost. destruct (is_collision obs a b).
  - rewrite pyint_inf_law. done.
  - destruct x as [x |]; simpl; [| done]. intros _. split; [done |].
    apply Z.ltb_lt. lia.
Qed.

Lemma Dijkstra_cost_pos (obs : gset coord) (terrain_cost : gmap coord Z)
    (a b : coord) (x y : pyint) :
  (∀ c t, terrain_cost !! c = Some t → 1 ≤ t) →
  n_lt (n_add x (Dijkstra.cost obs terrain_cost a b)) y = true →
  is_collision obs a b = false
  ∧ n_lt x (n_add x (Dijkstra.cost obs terrain_cost a b)) = true.
Proof.
  intros Hpos. unfold Dijkstra.cost. destruct (is_collision obs a b).
  - rewrite pyint_inf_law. done.
  - destruct x as [x |]; simpl; [| done]. intros _. split; [done |].
    apply Z.ltb_lt. unfold get_terrain_cost.
    destruct (terrain_cost !! b) as [t |] eqn:Ht; [apply Hpos in Ht |]; lia.
Qed.




(** ** Weight zero on four directions is Dijkstra (C5) *)

Lemma for_each_ext {A S} (f h : S → A → result S) (l : list A) (st : S) :
  (∀ st x, x ∈ l → f st x = h st x) → for_each f l st = for_each h l st.
Proof.
  revert st. induction l as [| x l IH]; intros st Hext; simpl; [done |].
  rewrite (Hext st x) by apply list_elem_of_here.
  destruct (h st x) as [st1 | |]; simpl; try done.
  apply IH. intros st2 y Hy. apply Hext. by apply list_elem_of_further.
Qed.

Section Loop_ext.
Context {N : Type} `{!Num N}.
Variable u_set : list coord.
Variables s_start s_goal : coord.
Variables cost1 cost2 : coord → coord → N.
Variables priority1 priority2 : state N → N → coord → result N.

(** The two costs agree on the moves of the direction set, and the two
    priorities agree on a node whose cost has just been set. *)
Hypothesis cost_ext : ∀ s s_n, s_n ∈ get_neighbor u_set s → cost1 s s_n = cost2 s s_n.
Hypothesis priority_ext : ∀ st new_cost s_n,
  g st !! s_n = Some new_cost → priority1 st new_cost s_n = priority2 st new_cost s_n.

Lemma relax_ext (s : coord) (st : state N) (s_n : coord) :
  s_n ∈ get_neighbor u_set s →
  relax cost1 priority1 s st s_n = relax cost2 priority2 s st s_n.
Proof.
  intros Hnb. unfold relax. rewrite (cost_ext s s_n Hnb).
  destruct (getitem (g st) s) as [gs | |]; simpl; try done.
  destruct (getitem _ s_n) as [gn | |]; simpl; try done.
  destruct (n_lt _ gn); [| done].
  rewrite priority_ext; [done |]. simpl. apply lookup_insert_eq.
Qed.

Lemma search_loop_ext (fuel : nat) (st : state N) :
  search_loop u_set s_goal cost1 priority1 fuel st
  = search_loop u_set s_goal cost2 priority2 fuel st.
Proof.
  revert st. induction fuel as [| fuel IH]; intros st; simpl; [done |].
  destruct (OPEN st) as [| e0 rest]; [done |].
  destruct (heapq.heappop item_lt (e0 :: rest)) as [[item open'] | |]; simpl; try done.
  destruct (bool_decide (item.2 = s_goal)); [done |].
  rewrite (for_each_ext (relax cost1 priority1 item.2) (relax cost2 priority2 item.2)).
  - destruct (for_each _ _ _) as [st2 | |]; simpl; try done.
  - intros st0 x Hx. apply relax_ext. done.
Qed.

(** The priority of the first entry does not matter: it is alone in the
    heap when it is popped. *)
Lemma search_loop_init_priority (cost : coord → coord → N)
    (priority : state N → N → coord → result N) (fuel : nat) (p0 p0' : N) :
  search_loop u_set s_goal cost priority fuel (init_state s_start s_goal p0)
  = search_loop u_set s_goal cost priority fuel (init_state s_start s_goal p0').
Proof. destruct fuel; reflexivity. Qed.
End Loop_ext.

Lemma get_neighbor_offset (u_set : list coord) (a b : coord) :
  b ∈ get_neighbor u_set a → (b.1 - a.1, b.2 - a.2) ∈ u_set.
Proof.
  unfold get_neighbor. intros (u & -> & Hu)%list_elem_of_fmap. simpl.
  destruct u as [dx dy]. simpl.
  replace (a.1 + dx - a.1) with dx by lia. replace (a.2 + dy - a.2) with dy by lia.
  done.
Qed.



(** The same run on doubles, with the Euclidean heuristic: [AStar] pops the
    nodes [Dijkstra] pops on integers, and returns its path. *)
Lemma AStar_float_weight_zero_run :
  AStar.searching (N:=float) {[ (1, 0) ]} {[ (0, 1) := 2 ]} (0, 0) (1, 1)
    "euclidean" 0%float motions4 40
  = Dijkstra.searching (N:=pyint) {[ (1, 0) ]} {[ (0, 1) := 2 ]} (0, 0) (1, 1) 40
  ∧ Dijkstra.searching (N:=pyint) {[ (1, 0) ]} {[ (0, 1) := 2 ]} (0, 0) (1, 1) 40
    = Ok ([(1, 1); (0, 1); (0, 0)],
          [(0, 0); (-1, 0); (0, -1); (-2, 0); (-1, -1); (-1, 1); (0, -2); (0, 1);
           (1, -1); (-3, 0); (-2, -1); (-2, 1); (-1, -2); (-1, 2); (0, -3); (0, 2);
           (1, -2); (1, 1)]).
Proof. split; vm_compute; reflexivity. Qed.

(** * Further properties of the planners *)

(** ** The collision test and the neighbours *)

(** [is_collision] gives the same answer for a move and for the move back:
    the endpoints are tested alike, and the two corner cells it picks are
    the same pair for both directions. *)
Theorem is_collision_symmetric (obs : gset coord) (a b : coord) :
  is_collision obs a b = is_collision obs b a.
Proof.
  unfold is_collision. destruct a as [x1 y1], b as [x2 y2]. simpl.
  rewrite (orb_comm (bool_decide ((x2, y2) ∈ obs))).
  rewrite (Z.eqb_sym x2 x1), (Z.eqb_sym y2 y1).
  rewrite (Z.min_comm x2 x1), (Z.max_comm x2 x1), (Z.min_comm y2 y1), (Z.max_comm y2 y1).
  replace (x1 - x2 =? y2 - y1) with (x2 - x1 =? y1 - y2); [reflexivity |].
  destruct (Z.eqb_spec (x2 - x1) (y1 - y2)), (Z.eqb_spec (x1 - x2) (y2 - y1)); lia.
Qed.

Lemma get_neighbor_NoDup (u_set : list coord) (s : coord) :
  NoDup u_set → NoDup (get_neighbor u_set s).
Proof.
  intros Hnd. unfold get_neighbor. apply NoDup_fmap_2; [| done].
  intros [x1 y1] [x2 y2]. simpl. intros [= H1 H2]. f_equal; lia.
Qed.

(** [get_neighbor] does not look at the obstacles.  With the eight
    directions of [AStar] it lists, once each, the cells at Chebyshev
    distance 1 from [s]; with the four directions of the other planners the
    cells at Manhattan distance 1. *)
Theorem get_neighbor_cells (s : coord) :
  (∀ b, b ∈ get_neighbor motions8 s
        ↔ Z.max (Z.abs (b.1 - s.1)) (Z.abs (b.2 - s.2)) = 1)
  ∧ (∀ b, b ∈ get_neighbor motions4 s
          ↔ Z.abs (b.1 - s.1) + Z.abs (b.2 - s.2) = 1)
  ∧ NoDup (get_neighbor motions8 s) ∧ NoDup (get_neighbor motions4 s).
Proof.
  destruct s as [x y]. split; [| split; [| split]].
  - intros [bx by_]. unfold get_neighbor, motions8. simpl.
    rewrite !elem_of_cons, elem_of_nil. split.
    + intros H. repeat destruct H as [H | H]; try done; injection H as -> ->; lia.
    + intros H.
      assert (bx = x + -1 ∨ bx = x + 0 ∨ bx = x + 1) as Hx by lia.
      assert (by_ = y + -1 ∨ by_ = y + 0 ∨ by_ = y + 1) as Hy by lia.
      destruct Hx as [-> | [-> | ->]], Hy as [-> | [-> | ->]]; try lia; tauto.
  - intros [bx by_]. unfold get_neighbor, motions4. simpl.
    rewrite !elem_of_cons, elem_of_nil. split.
    + intros H. repeat destruct H as [H | H]; try done; injection H as -> ->; lia.
    + intros H.
      assert (bx = x + -1 ∨ bx = x + 0 ∨ bx = x + 1) as Hx by lia.
      assert (by_ = y + -1 ∨ by_ = y + 0 ∨ by_ = y + 1) as Hy by lia.
      destruct Hx as [-> | [-> | ->]], Hy as [-> | [-> | ->]]; try lia; tauto.
  - apply get_neighbor_NoDup, (bool_decide_eq_true_1 (NoDup _)). vm_compute. reflexivity.
  - apply get_neighbor_NoDup, (bool_decide_eq_true_1 (NoDup _)). vm_compute. reflexivity.
Qed.

(** ** What [extract_path] returns *)

Lemma extract_path_loop_shape (s_start : coord) (PARENT : gmap coord coord)
    (fuel : nat) (path0 : list coord) (s : coord) (path : list coord) :
  extract_path_loop s_start fuel PARENT path0 s = Ok path →
  ∃ rest, path = path0 ++ rest ∧ last rest = Some s_start
    ∧ (∀ (i : nat) a b, (s :: rest) !! i = Some a → (s :: rest) !! S i = Some b →
         PARENT !! a = Some b)
    ∧ (∀ (i : nat) b, rest !! i = Some b → (S i < length rest)%nat → b ≠ s_start).
Proof.
  revert path0 s. induction fuel as [| fuel IH]; intros path0 s Hrun; simpl in Hrun;
    [done |].
  apply bind_Ok in Hrun as (s' & Hs' & Hrun).
  unfold getitem in Hs'. destruct (PARENT !! s) as [p |] eqn:Hp; [| done].
  injection Hs' as ->.
  destruct (bool_decide (s' = s_start)) eqn:Hstart.
  - apply bool_decide_eq_true in Hstart as ->. injection Hrun as <-.
    exists [s_start]. repeat split; try done.
    + intros [| [| i]] a b Ha Hb; simpl in *; try done. congruence.
    + intros [| i] b Hb Hlt; simpl in *; [lia | done].
  - apply bool_decide_eq_false in Hstart.
    apply IH in Hrun as (rest & -> & Hlast & Hchain & Hmid).
    exists (s' :: rest). split; [by rewrite <- app_assoc |].
    split; [| split].
    + destruct rest; [done | exact Hlast].
    + intros [| i] a b Ha Hb; simpl in *.
      * congruence.
      * eapply Hchain; eauto.
    + intros [| i] b Hb Hlt; simpl in *.
      * congruence.
      * eapply Hmid; [exact Hb | lia].
Qed.

Lemma extract_path_loop_raises (s_start : coord) (PARENT : gmap coord coord)
    (fuel : nat) (path0 : list coord) (s : coord) (e : exn) :
  extract_path_loop s_start fuel PARENT path0 s = Raise e →
  e = KeyError ∧ ∃ c, PARENT !! c = None.
Proof.
  revert path0 s. induction fuel as [| fuel IH]; intros path0 s Hrun; simpl in Hrun;
    [done |].
  unfold getitem in Hrun. destruct (PARENT !! s) as [p |] eqn:Hp; simpl in Hrun.
  - destruct (bool_decide (p = s_start)); [done |]. eapply IH, Hrun.
  - injection Hrun as <-. eauto.
Qed.


(** ** How a run ends *)

Lemma for_each_total {A S} (body : S → A → result S) (Q : S → Prop) (l : list A) :
  (∀ st x, x ∈ l → Q st → ∃ st', body st x = Ok st' ∧ Q st') →
  ∀ st, Q st → ∃ st', for_each body l st = Ok st' ∧ Q st'.
Proof.
  induction l as [| x l IH]; intros Hbody st HQ; simpl; [eauto |].
  destruct (Hbody st x (list_elem_of_here _ _) HQ) as (st1 & -> & HQ1). simpl.
  apply IH; [| done]. intros st0 y Hy. apply Hbody. by apply list_elem_of_further.
Qed.

Section Run_facts.
Context {N : Type} `{!Num N}.
Variable u_set : list coord.
Variables s_start s_goal : coord.
Variable cost : coord → coord → N.
Variable priority : state N → N → coord → result N.

(** The priority of an entry can be computed once the cost of its node has
    been set. *)
Hypothesis priority_ok : ∀ st new_cost s_n,
  g st !! s_n = Some new_cost → ∃ p, priority st new_cost s_n = Ok p.

Lemma relax_known_inv (s : coord) (st : state N) (s_n : coord) :
  known_inv st → s ∈ CLOSED st →
  ∃ st', relax cost priority s st s_n = Ok st' ∧ known_inv st' ∧ s ∈ CLOSED st'.
Proof.
  intros [Hnode Hpar] Hs.
  destruct (Hnode s (or_intror Hs)) as [Hsp [gs Hgs]].
  unfold relax, getitem. rewrite Hgs. simpl.
  set (g1 := match g st !! s_n with Some _ => g st | None => <[s_n := n_inf]> (g st) end).
  assert (Hg1 : ∀ c, is_Some (g st !! c) → is_Some (g1 !! c)).
  { intros c Hc. unfold g1. destruct (g st !! s_n); [done |]. by apply is_Some_insert. }
  assert (is_Some (g1 !! s_n)) as [gn Hgn].
  { unfold g1. destruct (g st !! s_n) eqn:Hn; [by rewrite Hn |].
    rewrite lookup_insert_eq. eauto. }
  rewrite Hgn. simpl. destruct (n_lt (n_add gs (cost s s_n)) gn).
  - edestruct (priority_ok
        (State (OPEN st) (CLOSED st) (<[s_n := s]> (PARENT st))
               (<[s_n := n_add gs (cost s s_n)]> g1))) as [p Hp];
      [apply lookup_insert_eq |].
    rewrite Hp. simpl. eexists. split; [reflexivity |]. split; [| done]. split; simpl.
    + intros c Hc. rewrite heappush_Permutation, fmap_cons in Hc. simpl in Hc.
      split.
      * destruct (decide (s_n = c)) as [-> | Hne]; [rewrite lookup_insert_eq; eauto |].
        apply is_Some_insert, Hnode.
        destruct Hc as [Hc | Hc]; [| by right].
        apply elem_of_cons in Hc as [-> | Hc]; [done | by left].
      * destruct (decide (s_n = c)) as [-> | Hne]; [rewrite lookup_insert_eq; eauto |].
        apply is_Some_insert, Hg1, Hnode.
        destruct Hc as [Hc | Hc]; [| by right].
        apply elem_of_cons in Hc as [-> | Hc]; [done | by left].
    + intros c q Hcq. apply is_Some_insert.
      destruct (decide (s_n = c)) as [-> | Hne].
      * rewrite lookup_insert_eq in Hcq. injection Hcq as <-. done.
      * rewrite lookup_insert_ne in Hcq by done. eapply Hpar, Hcq.
  - eexists. split; [reflexivity |]. split; [| done]. split; simpl.
    + intros c Hc. destruct (Hnode c Hc). auto.
    + exact Hpar.
Qed.

Lemma pop_known_inv (st : state N) (p : N) (s : coord) (open' : list (N * coord)) :
  known_inv st → heapq.heappop item_lt (OPEN st) = Ok ((p, s), open') →
  known_inv (State open' (CLOSED st ++ [s]) (PARENT st) (g st))
  ∧ s ∈ CLOSED st ++ [s].
Proof.
  intros [Hnode Hpar] Hpop. apply heappop_Permutation in Hpop.
  split; [| apply elem_of_app; right; apply list_elem_of_here].
  split; simpl; [| done].
  intros c Hc. apply Hnode. rewrite Hpop, fmap_cons. simpl.
  destruct Hc as [Hc | [Hc | ->%list_elem_of_singleton]%elem_of_app].
  - left. by apply list_elem_of_further.
  - by right.
  - left. apply list_elem_of_here.
Qed.

Lemma search_loop_known_inv (fuel : nat) (st st' : state N) :
  known_inv st →
  search_loop u_set s_goal cost priority fuel st = Ok st' → known_inv st'.
Proof.
  apply (search_loop_invariant u_set s_goal cost priority
           known_inv (fun s st => known_inv st ∧ s ∈ CLOSED st)).
  - intros st0 p s open' Hinv Hpop. eapply pop_known_inv; eauto.
  - intros s st0 s_n st1 [Hinv Hs] _ Hrun.
    destruct (relax_known_inv s st0 s_n Hinv Hs) as (st2 & Hrun2 & Hres).
    rewrite Hrun in Hrun2. injection Hrun2 as <-. done.
  - intros s st0 [Hinv _]. done.
Qed.

Lemma search_loop_never_raises (fuel : nat) (st : state N) (e : exn) :
  known_inv st → search_loop u_set s_goal cost priority fuel st ≠ Raise e.
Proof.
  revert st. induction fuel as [| fuel IH]; intros st Hinv; simpl.
  - destruct (OPEN st); done.
  - destruct (OPEN st) as [| e0 rest] eqn:Hopen; [done |].
    destruct (heappop_nonempty (item_lt (N:=N)) e0 rest) as ([p s] & open' & Hpop).
    rewrite Hpop. simpl.
    rewrite <- Hopen in Hpop. apply (pop_known_inv _ _ _ _ Hinv) in Hpop as HQ.
    destruct (bool_decide (s = s_goal)); [done |].
    destruct (for_each_total (relax cost priority s)
                (fun st => known_inv st ∧ s ∈ CLOSED st) (get_neighbor u_set s))
      with (st := State open' (CLOSED st ++ [s]) (PARENT st) (g st))
      as (st2 & -> & Hinv2 & _); [| exact HQ |].
    + intros st0 x _ [Hinv0 Hs0]. apply relax_known_inv; done.
    + simpl. apply IH. done.
Qed.

Lemma init_known_inv (p0 : N) : known_inv (init_state s_start s_goal p0).
Proof.
  split; simpl.
  - intros c [Hc | Hc]; [| by apply not_elem_of_nil in Hc].
    apply list_elem_of_singleton in Hc as ->. split.
    + rewrite lookup_singleton_eq. eauto.
    + apply is_Some_insert. rewrite lookup_singleton_eq. eauto.
  - intros c q [-> <-]%lookup_singleton_Some. rewrite lookup_singleton_eq. eauto.
Qed.

(** The loop is left on an empty [OPEN], the goal not popped, or right after
    the pop of the goal. *)
Lemma search_loop_last (fuel : nat) (st st' : state N) :
  s_goal ∉ CLOSED st →
  search_loop u_set s_goal cost priority fuel st = Ok st' →
  (OPEN st' = [] ∧ s_goal ∉ CLOSED st') ∨ last (CLOSED st') = Some s_goal.
Proof.
  revert st. induction fuel as [| fuel IH]; intros st Hg Hrun; simpl in Hrun.
  - destruct (OPEN st) eqn:Hopen; [| done]. injection Hrun as <-. by left.
  - destruct (OPEN st) as [| e0 rest] eqn:Hopen; [injection Hrun as <-; by left |].
    rewrite <- Hopen in Hrun.
    apply bind_Ok in Hrun as ([item open'] & Hpop & Hrun). simpl in Hrun.
    destruct (bool_decide (item.2 = s_goal)) eqn:Hgoal.
    + apply bool_decide_eq_true in Hgoal. injection Hrun as <-. right. simpl.
      rewrite last_snoc. by f_equal.
    + apply bool_decide_eq_false in Hgoal.
      apply bind_Ok in Hrun as (st2 & Hfor & Hrun).
      apply (IH st2); [| done].
      rewrite (for_each_CLOSED cost priority _ _ _ _ Hfor). simpl.
      intros [Hin | ->%list_elem_of_singleton]%elem_of_app; done.
Qed.

Lemma search_loop_first_inv (fuel : nat) (st st' : state N) :
  first_inv s_start st →
  search_loop u_set s_goal cost priority fuel st = Ok st' → first_inv s_start st'.
Proof.
  apply (search_loop_invariant u_set s_goal cost priority (first_inv s_start)
           (fun _ st => head (CLOSED st) = Some s_start)).
  - intros st0 p s open' [[Hcl [p0 Hop]] | Hhd] Hpop; simpl.
    + rewrite Hop in Hpop. injection Hpop as _ <- _. by rewrite Hcl.
    + destruct (CLOSED st0); done.
  - intros s st0 s_n st1 Hhd _ Hrun.
    apply relax_Ok in Hrun as (gs & _ & [[_ ->] | [_ (p & ->)]]); done.
  - intros s st0 Hhd. by right.
Qed.

Lemma search_loop_ends (p0 : N) (fuel : nat) (st : state N) :
  search_loop u_set s_goal cost priority fuel (init_state s_start s_goal p0) = Ok st →
  head (CLOSED st) = Some s_start
  ∧ ((OPEN st = [] ∧ s_goal ∉ CLOSED st) ∨ last (CLOSED st) = Some s_goal).
Proof.
  intros Hrun.
  assert (Hlast := search_loop_last fuel (init_state s_start s_goal p0) st
                   (not_elem_of_nil s_goal) Hrun).
  split; [| done].
  destruct (search_loop_first_inv fuel (init_state s_start s_goal p0) st)
    as [[Hcl [q Hop]] | Hhd];
    [left; split; [done | by exists p0] | done | | done].
  destruct Hlast as [[Hop' _] | Hl]; [congruence |]. by rewrite Hcl in Hl.
Qed.

(** With [known_inv], following the parents of a node that has one never
    meets a missing key. *)
Lemma extract_path_loop_known (st : state N) (fuel : nat) (path0 : list coord)
    (s : coord) (e : exn) :
  known_inv st → is_Some (PARENT st !! s) →
  extract_path_loop s_start fuel (PARENT st) path0 s ≠ Raise e.
Proof.
  intros [_ Hpar]. revert path0 s. induction fuel as [| fuel IH];
    intros path0 s [q Hq]; simpl; [done |].
  unfold getitem. rewrite Hq. simpl.
  destruct (bool_decide (q = s_start)); [done |]. apply IH. eapply Hpar, Hq.
Qed.

Lemma finish_ends (p0 : N) (fuel : nat) (st : state N) :
  search_loop u_set s_goal cost priority fuel (init_state s_start s_goal p0) = Ok st →
  (∀ path closed, finish s_start s_goal fuel st = Ok (path, closed) →
     head closed = Some s_start ∧ last closed = Some s_goal
     ∧ head path = Some s_goal ∧ last path = Some s_start)
  ∧ (∀ e, finish s_start s_goal fuel st = Raise e → e = KeyError)
  ∧ (finish s_start s_goal fuel st = Raise KeyError
     ↔ OPEN st = [] ∧ s_goal ∉ CLOSED st).
Proof.
  intros Hrun.
  assert (Hinv : known_inv st)
    by (eapply search_loop_known_inv; [apply init_known_inv | exact Hrun]).
  destruct (search_loop_ends p0 fuel st Hrun) as [Hhd Hlast].
  assert (Hraise : ∀ e, finish s_start s_goal fuel st = Raise e →
                        e = KeyError ∧ OPEN st = [] ∧ s_goal ∉ CLOSED st).
  { intros e He. unfold finish in He.
    destruct (extract_path s_start s_goal fuel (PARENT st)) as [path | e' |] eqn:Hp;
      simpl in He; try done. injection He as ->.
    split; [eapply extract_path_loop_raises, Hp |].
    destruct Hlast as [Hex | Hl]; [done |]. exfalso.
    eapply (extract_path_loop_known st fuel [s_goal] s_goal e Hinv); [| exact Hp].
    apply (proj1 Hinv). right.
    apply last_Some in Hl as [l ->]. apply elem_of_app. right. apply list_elem_of_here. }
  split; [| split].
  - intros path closed Hfin. assert (Hfin' := Hfin). unfold finish in Hfin.
    apply bind_Ok in Hfin as (path' & Hpath & [= <- <-]).
    split; [done |].
    unfold extract_path in Hpath.
    apply extract_path_loop_shape in Hpath as (rest & -> & Hrest & _).
    assert (last ([s_goal] ++ rest) = Some s_start) as Hlp.
    { destruct rest; [done |]. simpl in *. done. }
    destruct Hlast as [[Hop Hng] | Hl]; [| done].
    exfalso. rewrite (exhausted_search_raises u_set s_start s_goal cost priority
                        p0 fuel st Hrun Hop Hng) in Hfin'. done.
  - intros e He. apply (Hraise e He).
  - split.
    + intros He. apply (Hraise _ He).
    + intros [Hop Hng]. eapply exhausted_search_raises; eauto.
Qed.
End Run_facts.

Lemma AStar_search_loop {N : Type} `{!Num N} `{!Metric N} (obs : gset coord)
    (terrain_cost : gmap coord Z) (s_start s_goal : coord) (heuristic_type : string)
    (heuristic_weight : N) (u_set : list coord) (fuel : nat) :
  ∃ p0, AStar.search obs terrain_cost s_start s_goal heuristic_type heuristic_weight
          u_set fuel
        = search_loop u_set s_goal (AStar.cost obs terrain_cost)
            (AStar.priority s_goal heuristic_type heuristic_weight) fuel
            (init_state s_start s_goal p0).
Proof.
  unfold AStar.search, AStar.f_value, getitem. simpl.
  destruct (decide (s_goal = s_start)) as [-> | Hne].
  - rewrite lookup_insert_eq. simpl. eauto.
  - rewrite lookup_insert_ne, lookup_singleton_eq by done. simpl. eauto.
Qed.

Lemma AStar_priority_ok {N : Type} `{!Num N} `{!Metric N} (s_goal : coord)
    (heuristic_type : string) (heuristic_weight : N) (st : state N) (new_cost : N)
    (s_n : coord) :
  g st !! s_n = Some new_cost →
  ∃ p, AStar.priority s_goal heuristic_type heuristic_weight st new_cost s_n = Ok p.
Proof.
  intros Hg. unfold AStar.priority, AStar.f_value, getitem. rewrite Hg. simpl. eauto.
Qed.

Lemma BFS_prior_ok (st : state pyint) (new_cost : pyint) (s_n : coord) :
  ∃ p, BFS.prior st new_cost s_n = Ok p.
Proof. unfold BFS.prior. destruct (last (OPEN st)); eauto. Qed.

Section Run_intro.
Context {N : Type} `{!Num N}.
Variable u_set : list coord.
Variables s_start s_goal : coord.
Variable cost : coord → coord → N.
Variable priority : state N → N → coord → result N.
Variable search : nat → result (state N).

Hypothesis priority_ok : ∀ st new_cost s_n,
  g st !! s_n = Some new_cost → ∃ p, priority st new_cost s_n = Ok p.
Hypothesis search_loop_eq : ∀ fuel, ∃ p0,
  search fuel = search_loop u_set s_goal cost priority fuel (init_state s_start s_goal p0).

Lemma ends_at_goal_intro :
  ends_at_goal s_start s_goal (fun fuel => st ← search fuel; finish s_start s_goal fuel st).
Proof.
  intros fuel path closed Hrun.
  apply bind_Ok in Hrun as (st & Hst & Hfin).
  destruct (search_loop_eq fuel) as [p0 Heq]. rewrite Heq in Hst.
  eapply (finish_ends u_set s_start s_goal cost priority priority_ok p0 fuel st Hst), Hfin.
Qed.

Lemma raises_when_exhausted_intro :
  raises_when_exhausted s_goal search
    (fun fuel => st ← search fuel; finish s_start s_goal fuel st).
Proof.
  assert (Hloop : ∀ fuel e, search fuel ≠ Raise e).
  { intros fuel e. destruct (search_loop_eq fuel) as [p0 ->].
    eapply search_loop_never_raises; [exact priority_ok | apply init_known_inv]. }
  split; [exact Hloop |]. split.
  - intros fuel e Hrun. destruct (search_loop_eq fuel) as [p0 Heq].
    destruct (search fuel) as [st | e' |] eqn:Hst; simpl in Hrun; try done.
    + symmetry in Heq.
      eapply (finish_ends u_set s_start s_goal cost priority priority_ok p0 fuel st Heq), Hrun.
    + by apply Hloop in Hst.
  - intros fuel. destruct (search_loop_eq fuel) as [p0 Heq].
    destruct (search fuel) as [st | e' |] eqn:Hst; simpl.
    + symmetry in Heq.
      destruct (finish_ends u_set s_start s_goal cost priority priority_ok p0 fuel st Heq)
        as (_ & _ & Hiff).
      rewrite Hiff. split; [intros [H1 H2]; eauto |].
      intros (st' & [= <-] & H1 & H2). done.
    + by apply Hloop in Hst.
    + split; [done |]. intros (st' & [=] & _).
Qed.
End Run_intro.

(** In the three heap planners a run that returns has popped the start
    first and the goal last, and its path runs from the goal to the start;
    this holds for [AStar] on doubles with any weight, heuristic and
    direction set. *)
Theorem searching_ends_at_goal (obs : gset coord) (terrain_cost : gmap coord Z)
    (s_start s_goal : coord) (heuristic_type : string) (heuristic_weight : float)
    (u_set : list coord) :
  ends_at_goal s_start s_goal
    (AStar.searching (N:=float) obs terrain_cost s_start s_goal heuristic_type
       heuristic_weight u_set)
  ∧ ends_at_goal s_start s_goal
      (Dijkstra.searching (N:=pyint) obs terrain_cost s_start s_goal)
  ∧ ends_at_goal s_start s_goal (BFS.searching obs s_start s_goal).
Proof.
  split; [| split].
  - eapply ends_at_goal_intro; [apply AStar_priority_ok | apply AStar_search_loop].
  - eapply ends_at_goal_intro; [| intros fuel; eexists; reflexivity].
    intros st new_cost s_n _. eexists. reflexivity.
  - eapply ends_at_goal_intro; [| intros fuel; eexists; reflexivity].
    intros st new_cost s_n _. apply BFS_prior_ok.
Qed.


(** ** The costs of the visited nodes *)

Lemma pyint_num_inf : num_inf pyint.
Proof. split; [done |]. intros [x |] y; done. Qed.

Lemma float_num_inf : num_inf float.
Proof.
  split; [vm_compute; reflexivity |].
  intros x y. simpl. rewrite !ltb_spec.
  change (Prim2SF infinity) with (S754_infinity false).
  destruct (Prim2SF x) as [s | [|] | | s m e];
    destruct (Prim2SF y) as [s' | [|] | | s' m' e']; try done; destruct s; done.
Qed.

Section Finite_facts.
Context {N : Type} `{!Num N}.
Variable u_set : list coord.
Variables s_start s_goal : coord.
Variable cost : coord → coord → N.
Variable priority : state N → N → coord → result N.

Hypothesis Hinf : num_inf N.

Lemma relax_finite_inv (s : coord) (st : state N) (s_n : coord) (st' : state N) :
  finite_inv st → relax cost priority s st s_n = Ok st' → finite_inv st'.
Proof.
  intros Hinv Hrun.
  apply relax_Ok in Hrun as (gs & Hgs & [[_ ->] | [Hlt (p & ->)]]); simpl.
  - intros c Hc. simpl in Hc. destruct (Hinv c Hc) as (v & Hv & Hfin).
    exists v. split; [| done]. simpl.
    destruct (decide (s_n = c)) as [-> | Hne].
    + rewrite lookup_insert_eq, Hv. done.
    + rewrite lookup_insert_ne; done.
  - intros c. simpl. destruct (decide (s_n = c)) as [-> | Hne].
    + intros _. rewrite lookup_insert_eq. eexists. split; [done |].
      eapply (lt_lt_inf _ Hinf), Hlt.
    + rewrite !lookup_insert_ne by done. apply Hinv.
Qed.

Lemma search_loop_finite_inv (fuel : nat) (st st' : state N) :
  finite_inv st →
  search_loop u_set s_goal cost priority fuel st = Ok st' → finite_inv st'.
Proof.
  apply (search_loop_invariant u_set s_goal cost priority
           finite_inv (fun _ => finite_inv)).
  - intros st0 p s open' Hinv _. exact Hinv.
  - intros s st0 s_n st1 Hinv _. apply relax_finite_inv. done.
  - done.
Qed.

Lemma init_finite_inv (p0 : N) :
  s_start ≠ s_goal → finite_inv (init_state s_start s_goal p0).
Proof.
  intros Hne c [q Hq]. simpl in *.
  apply lookup_singleton_Some in Hq as [<- _].
  exists (n_of_Z 0). rewrite lookup_insert_ne, lookup_singleton_eq by done.
  split; [done |]. apply (zero_lt_inf _ Hinf).
Qed.

Hypothesis priority_ok : ∀ st new_cost s_n,
  g st !! s_n = Some new_cost → ∃ p, priority st new_cost s_n = Ok p.

Lemma visited_costs_finite_intro (search : nat → result (state N)) :
  s_start ≠ s_goal →
  (∀ fuel, ∃ p0,
     search fuel = search_loop u_set s_goal cost priority fuel (init_state s_start s_goal p0)) →
  visited_costs_finite search.
Proof.
  intros Hne Heq fuel st Hrun c Hc. destruct (Heq fuel) as [p0 Hp0].
  rewrite Hp0 in Hrun.
  eapply search_loop_finite_inv; [by apply init_finite_inv | exact Hrun |].
  eapply search_loop_known_inv in Hrun; [| exact priority_ok | apply init_known_inv].
  apply (proj1 Hrun). by right.
Qed.
End Finite_facts.

(** When the start is not the goal, every node the three heap planners have
    popped has a cost in [g] below [inf]: an integer for [Dijkstra] and
    [BFS], a double other than [inf] and [nan] for [AStar].  These are the
    numbers [plot_visited] writes into the circles. *)
Theorem visited_costs_are_finite (obs : gset coord) (terrain_cost : gmap coord Z)
    (s_start s_goal : coord) (heuristic_type : string) (heuristic_weight : float)
    (u_set : list coord) :
  s_start ≠ s_goal →
  visited_costs_finite
    (AStar.search (N:=float) obs terrain_cost s_start s_goal heuristic_type
       heuristic_weight u_set)
  ∧ visited_costs_finite (Dijkstra.search (N:=pyint) obs terrain_cost s_start s_goal)
  ∧ visited_costs_finite (BFS.search obs s_start s_goal).
Proof.
  intros Hne. split; [| split].
  - eapply visited_costs_finite_intro;
      [apply float_num_inf | apply AStar_priority_ok | exact Hne | apply AStar_search_loop].
  - eapply visited_costs_finite_intro;
      [apply pyint_num_inf | | exact Hne | intros fuel; eexists; reflexivity].
    intros st new_cost s_n _. eexists. reflexivity.
  - eapply visited_costs_finite_intro;
      [apply pyint_num_inf | | exact Hne | intros fuel; eexists; reflexivity].
    intros st new_cost s_n _. apply BFS_prior_ok.
Qed.

Lemma visited_costs_are_finite_witness :
  ∃ st, BFS.search ∅ (0, 0) (1, 0) 6 = Ok st
    ∧ Forall (λ c, ∃ v, g st !! c = Some v ∧ n_lt v n_inf = true) (CLOSED st).
Proof.
  assert (∃ st, BFS.search ∅ (0, 0) (1, 0) 6 = Ok st) as [st Hrun]
    by (eexists; vm_compute; reflexivity).
  exists st. split; [exact Hrun |]. apply Forall_forall.
  assert (Hne : ((0, 0) : coord) ≠ (1, 0)) by discriminate.
  exact (proj2 (proj2 (visited_costs_are_finite ∅ ∅ (0, 0) (1, 0) "None" 1%float
                         motions8 Hne)) 6%nat st Hrun).
Defined.

(** ** The terrain overlay *)

Lemma elem_of_range (a b z : Z) : z ∈ Terrain.range a b ↔ a ≤ z < b.
Proof.
  unfold Terrain.range. split.
  - intros (i & -> & Hi)%list_elem_of_fmap. apply elem_of_seq in Hi. lia.
  - intros Hz. apply list_elem_of_fmap. exists (Z.to_nat (z - a)).
    split; [lia |]. apply elem_of_seq. lia.
Qed.

Lemma range_nonempty (a b : Z) : a < b → Terrain.range a b ≠ [].
Proof.
  intros Hab Hnil. assert (a ∈ Terrain.range a b) as Ha by (apply elem_of_range; lia).
  rewrite Hnil in Ha. by apply not_elem_of_nil in Ha.
Qed.

Lemma color_map_lookup (c : Z) :
  2 ≤ c ≤ 5 → is_Some (Terrain.color_map !! c).
Proof.
  intros Hc.
  assert (c = 2 ∨ c = 3 ∨ c = 4 ∨ c = 5) as [-> | [-> | [-> | ->]]] by lia;
    vm_compute; eauto.
Qed.

Lemma lcg_choice_draws : draws_from_list lcg_choice.
Proof.
  intros r l Hl. unfold lcg_choice. simpl.
  apply list_elem_of_In, nth_In.
  assert (0 < Z.of_nat (length l)) by (destruct l; [done | simpl; lia]).
  pose proof (Z.mod_pos_bound r (Z.of_nat (length l))). lia.
Qed.

Lemma bind_Ok_l {A B} (a : A) (k : A → result B) : Ok a ≫= k = k a.
Proof. reflexivity. Qed.

Section Terrain_facts.
Variable rng : Type.
Variable choice : rng → list Z → Z * rng.
Variable obs : gset coord.
Variables s_start s_goal : coord.

Hypothesis choice_in : draws_from_list choice.

Lemma choice_high_cost (r : rng) : 2 ≤ (choice r [2; 3; 4; 5]).1 ≤ 5.
Proof.
  pose proof (choice_in r [2; 3; 4; 5]) as Hin.
  rewrite !elem_of_cons, elem_of_nil in Hin. destruct Hin as [-> | [-> | [-> | [-> | []]]]];
    [done | lia..].
Qed.

(** One cell of the double loop of [_set_surrounding_costs]. *)
Lemma ring_cell_Ok (center : coord) (distance : Z) (st : Terrain.overlay * rng)
    (dx dy : Z) :
  let node := (center.1 + dx, center.2 + dy) in
  (Z.abs dx + Z.abs dy = distance ∧ eligible obs s_start s_goal node
   ∧ ∃ color,
       Terrain.color_map !! (choice st.2 [2; 3; 4; 5]).1 = Some color
       ∧ Terrain.ring_cell rng choice obs s_start s_goal center distance st (dx, dy)
         = Ok (Terrain.Overlay
                 (<[node := (choice st.2 [2; 3; 4; 5]).1]> (Terrain.terrain_cost st.1))
                 (<[node := color]> (Terrain.terrain_colors st.1)),
               (choice st.2 [2; 3; 4; 5]).2))
  ∨ (¬ (Z.abs dx + Z.abs dy = distance ∧ eligible obs s_start s_goal node)
     ∧ Terrain.ring_cell rng choice obs s_start s_goal center distance st (dx, dy) = Ok st).
Proof.
  intros node. unfold Terrain.ring_cell. fold node.
  destruct (Z.eqb_spec (Z.abs dx + Z.abs dy) distance) as [Hd | Hd];
    [| right; split; [tauto | done]].
  destruct (decide (node ∈ obs)) as [Ho | Ho].
  { rewrite (bool_decide_eq_true_2 _ Ho). simpl. right. split; [| done].
    intros [_ [H _]]. done. }
  rewrite (bool_decide_eq_false_2 _ Ho). simpl.
  destruct (decide (node = s_start)) as [Hs | Hs].
  { rewrite (bool_decide_eq_true_2 _ Hs). simpl. right. split; [| done].
    intros [_ (_ & H & _)]. done. }
  rewrite (bool_decide_eq_false_2 _ Hs). simpl.
  destruct (decide (node = s_goal)) as [Hg | Hg].
  { rewrite (bool_decide_eq_true_2 _ Hg). simpl. right. split; [| done].
    intros [_ (_ & _ & H)]. done. }
  rewrite (bool_decide_eq_false_2 _ Hg). simpl.
  left. split; [done |]. split; [done |].
  destruct (color_map_lookup _ (choice_high_cost st.2)) as [color Hcolor].
  exists color. split; [done |].
  destruct (choice st.2 [2; 3; 4; 5]) as [cost r] eqn:Hch. simpl in *.
  unfold getitem. rewrite Hcolor. reflexivity.
Qed.

Lemma set_surrounding_costs_total (center : coord) (distance : Z)
    (st : Terrain.overlay * rng) :
  ∃ st', Terrain._set_surrounding_costs rng choice obs s_start s_goal center distance st
         = Ok st'.
Proof.
  unfold Terrain._set_surrounding_costs.
  edestruct (for_each_total
               (Terrain.ring_cell rng choice obs s_start s_goal center distance)
               (fun _ => True)) as (st' & Hrun & _); [| exact I | eauto].
  intros st0 [dx dy] _ _.
  destruct (ring_cell_Ok center distance st0 dx dy) as [(_ & _ & color & _ & ->) | [_ ->]];
    eauto.
Qed.

Lemma ring_cell_overlay_ok (center : coord) (distance : Z)
    (st : Terrain.overlay * rng) (d : coord) (st' : Terrain.overlay * rng) :
  center = s_start ∨ center = s_goal → distance = 3 →
  overlay_ok obs s_start s_goal st.1 →
  Terrain.ring_cell rng choice obs s_start s_goal center distance st d = Ok st' →
  overlay_ok obs s_start s_goal st'.1.
Proof.
  intros Hcenter -> Hinv Hrun. destruct d as [dx dy].
  destruct (ring_cell_Ok center 3 st dx dy) as [(Hd & Hel & color & Hcolor & Heq) | [_ Heq]];
    rewrite Heq in Hrun; injection Hrun as <-; [| done].
  intros node. simpl.
  destruct (decide ((center.1 + dx, center.2 + dy) = node)) as [<- | Hne].
  - rewrite !lookup_insert_eq. split; [apply choice_high_cost |].
    split; [done |]. split; [done |].
    assert (on_ring center 3 (center.1 + dx, center.2 + dy)) as Hring.
    { unfold on_ring. simpl.
      replace (center.1 + dx - center.1) with dx by lia.
      replace (center.2 + dy - center.2) with dy by lia. done. }
    destruct Hcenter as [-> | ->]; auto.
  - rewrite !lookup_insert_ne by done. apply Hinv.
Qed.

Lemma set_surrounding_costs_overlay_ok (center : coord)
    (st st' : Terrain.overlay * rng) :
  center = s_start ∨ center = s_goal →
  overlay_ok obs s_start s_goal st.1 →
  Terrain._set_surrounding_costs rng choice obs s_start s_goal center 3 st = Ok st' →
  overlay_ok obs s_start s_goal st'.1.
Proof.
  intros Hcenter Hinv Hrun. unfold Terrain._set_surrounding_costs in Hrun.
  eapply (for_each_invariant _ (fun st => overlay_ok obs s_start s_goal st.1));
    [| exact Hinv | exact Hrun].
  intros st0 d st1 _. by apply ring_cell_overlay_ok.
Qed.

Lemma place_overlay_ok (budget : nat) (cost_value : Z) (color : string)
    (count placed : nat) (st : Terrain.overlay * rng) :
  2 ≤ cost_value ≤ 5 → Terrain.color_map !! cost_value = Some color →
  overlay_ok obs s_start s_goal st.1 →
  overlay_ok obs s_start s_goal
    (Terrain.place rng choice obs s_start s_goal budget cost_value color count placed st).1.
Proof.
  intros Hcv Hcolor. revert placed st.
  induction budget as [| budget IH]; intros placed st Hinv; simpl; [done |].
  destruct (placed <? count)%nat; [| done].
  pose proof (choice_in st.2 (Terrain.range 8 43) (range_nonempty 8 43 ltac:(lia))) as Hx.
  destruct (choice st.2 (Terrain.range 8 43)) as [x r1]. simpl in Hx.
  pose proof (choice_in r1 (Terrain.range 3 28) (range_nonempty 3 28 ltac:(lia))) as Hy.
  destruct (choice r1 (Terrain.range 3 28)) as [y r2]. simpl in Hy.
  apply elem_of_range in Hx, Hy.
  destruct (bool_decide (is_Some (Terrain.terrain_cost st.1 !! (x, y)))); simpl;
    [apply IH; done |].
  destruct (decide ((x, y) = s_start)) as [Hs | Hs].
  { rewrite (bool_decide_eq_true_2 _ Hs). simpl. apply IH; done. }
  rewrite (bool_decide_eq_false_2 _ Hs). simpl.
  destruct (decide ((x, y) = s_goal)) as [Hg | Hg].
  { rewrite (bool_decide_eq_true_2 _ Hg). simpl. apply IH; done. }
  rewrite (bool_decide_eq_false_2 _ Hg). simpl.
  destruct (decide ((x, y) ∈ obs)) as [Ho | Ho].
  { rewrite (bool_decide_eq_true_2 _ Ho). simpl. apply IH; done. }
  rewrite (bool_decide_eq_false_2 _ Ho). simpl.
  apply IH. intros node. simpl.
  destruct (decide ((x, y) = node)) as [<- | Hne].
  - rewrite !lookup_insert_eq. repeat split; try done; try lia.
    right. right. unfold in_rectangle. simpl. lia.
  - rewrite !lookup_insert_ne by done. apply Hinv.
Qed.

Lemma place_all_overlay_ok (st : Terrain.overlay * rng) :
  overlay_ok obs s_start s_goal st.1 →
  overlay_ok obs s_start s_goal
    (fold_left (fun st '(cost_value, color, count) =>
                  Terrain.place rng choice obs s_start s_goal 1000 cost_value color
                    count 0 st)
               Terrain.terrain_types st).1.
Proof.
  intros Hinv. unfold Terrain.terrain_types. cbn [fold_left].
  repeat (apply place_overlay_ok; [lia | vm_compute; reflexivity |]).
  exact Hinv.
Qed.

Lemma init_overlay_ok (seed : rng → Z → rng) (r : rng) :
  ∃ ov r', Terrain.init rng seed choice obs s_start s_goal r = Ok (ov, r')
    ∧ overlay_ok obs s_start s_goal ov.
Proof.
  unfold Terrain.init, Terrain._initialize_terrain.
  destruct (set_surrounding_costs_total s_start 3 (Terrain.Overlay ∅ ∅, seed r 42))
    as [st1 H1].
  rewrite H1, bind_Ok_l.
  destruct (set_surrounding_costs_total s_goal 3 st1) as [st2 H2].
  rewrite H2, bind_Ok_l.
  assert (Hok2 : overlay_ok obs s_start s_goal st2.1).
  { eapply set_surrounding_costs_overlay_ok; [by right | | exact H2].
    eapply set_surrounding_costs_overlay_ok; [by left | | exact H1].
    intros node. cbn [fst Terrain.terrain_cost Terrain.terrain_colors].
    rewrite !lookup_empty. done. }
  apply place_all_overlay_ok in Hok2.
  destruct (fold_left _ Terrain.terrain_types st2) as [ov r'].
  exists ov, r'. split; [reflexivity | exact Hok2].
Qed.
End Terrain_facts.

Lemma for_each_established {A S} (body : S → A → result S) (R : S → Prop)
    (l : list A) (x0 : A) :
  x0 ∈ l →
  (∀ st x st', body st x = Ok st' → R st → R st') →
  (∀ st st', body st x0 = Ok st' → R st') →
  ∀ st st', for_each body l st = Ok st' → R st'.
Proof.
  intros Hin Hstable Hx0. induction l as [| x l IH]; intros st st' Hrun;
    [by apply not_elem_of_nil in Hin |].
  simpl in Hrun. apply bind_Ok in Hrun as (st1 & Hx & Hrun).
  apply elem_of_cons in Hin as [<- | Hin].
  - eapply (for_each_invariant body R l); [| eapply Hx0, Hx | exact Hrun].
    intros st2 y st3 _ HR Hy. eapply Hstable; eauto.
  - eapply IH; eauto.
Qed.

Lemma ring_offsets (distance dx dy : Z) :
  Z.abs dx + Z.abs dy = distance →
  (dx, dy) ∈ (dx ← Terrain.range (- distance) (distance + 1);
              dy ← Terrain.range (- distance) (distance + 1);
              [(dx, dy)]).
Proof.
  intros Hd. apply list_elem_of_bind. exists dx. split; [| apply elem_of_range; lia].
  apply list_elem_of_bind. exists dy. split; [| apply elem_of_range; lia].
  apply list_elem_of_singleton. done.
Qed.

(** [_set_surrounding_costs] never raises when [random.choice] draws from
    its list.  Afterwards every eligible node at Manhattan distance
    [distance] from [center] has a cost between 2 and 5 and the colour
    [color_map] gives to that cost; the cost and the colour of every other
    node, obstacles, start and goal among them, are what they were. *)
Theorem set_surrounding_costs_ring (rng : Type) (choice : rng → list Z → Z * rng)
    (obs : gset coord) (s_start s_goal center : coord) (distance : Z)
    (st : Terrain.overlay * rng) :
  draws_from_list choice →
  ∃ st',
    Terrain._set_surrounding_costs rng choice obs s_start s_goal center distance st
    = Ok st'
    ∧ ∀ node,
        (on_ring center distance node → eligible obs s_start s_goal node →
           ∃ c, Terrain.terrain_cost st'.1 !! node = Some c ∧ 2 ≤ c ≤ 5
             ∧ Terrain.terrain_colors st'.1 !! node = Terrain.color_map !! c)
        ∧ (¬ (on_ring center distance node ∧ eligible obs s_start s_goal node) →
             Terrain.terrain_cost st'.1 !! node = Terrain.terrain_cost st.1 !! node
             ∧ Terrain.terrain_colors st'.1 !! node
               = Terrain.terrain_colors st.1 !! node).
Proof.
  intros Hch.
  destruct (set_surrounding_costs_total rng choice obs s_start s_goal Hch center
              distance st) as [st' Hrun].
  exists st'. split; [exact Hrun |]. unfold Terrain._set_surrounding_costs in Hrun.
  assert (Hoff : ∀ dx dy, on_ring center distance (center.1 + dx, center.2 + dy)
                          ↔ Z.abs dx + Z.abs dy = distance).
  { intros dx dy. unfold on_ring. simpl.
    replace (center.1 + dx - center.1) with dx by lia.
    replace (center.2 + dy - center.2) with dy by lia. done. }
  intros node. split.
  - intros Hring Hel.
    set (R := fun st0 : Terrain.overlay * rng =>
           ∃ c, Terrain.terrain_cost st0.1 !! node = Some c ∧ 2 ≤ c ≤ 5
             ∧ Terrain.terrain_colors st0.1 !! node = Terrain.color_map !! c).
    assert (Hnode : node = (center.1 + (node.1 - center.1), center.2 + (node.2 - center.2))).
    { destruct node. simpl. f_equal; lia. }
    eapply (for_each_established _ R _ (node.1 - center.1, node.2 - center.2));
      [apply ring_offsets; exact Hring | | | exact Hrun].
    + intros st0 [dx dy] st1 Hcell (c & Hc & Hrange & Hcol).
      destruct (ring_cell_Ok rng choice obs s_start s_goal Hch center distance st0 dx dy)
        as [(_ & _ & color & Hcolor & Heq) | [_ Heq]];
        rewrite Heq in Hcell; injection Hcell as <-; [| by exists c].
      unfold R. simpl.
      destruct (decide ((center.1 + dx, center.2 + dy) = node)) as [<- | Hne].
      * rewrite !lookup_insert_eq. eexists. split; [done |].
        split; [by apply choice_high_cost | done].
      * rewrite !lookup_insert_ne by done. by exists c.
    + intros st0 st1 Hcell.
      destruct (ring_cell_Ok rng choice obs s_start s_goal Hch center distance st0
                  (node.1 - center.1) (node.2 - center.2))
        as [(_ & _ & color & Hcolor & Heq) | [Hno _]].
      * rewrite Heq in Hcell. injection Hcell as <-. unfold R. simpl.
        rewrite <- Hnode, !lookup_insert_eq. eexists. split; [done |].
        split; [by apply choice_high_cost | done].
      * exfalso. apply Hno. rewrite <- Hnode. done.
  - intros Hno.
    eapply (for_each_invariant _
              (fun st0 : Terrain.overlay * rng =>
                 Terrain.terrain_cost st0.1 !! node = Terrain.terrain_cost st.1 !! node
                 ∧ Terrain.terrain_colors st0.1 !! node
                   = Terrain.terrain_colors st.1 !! node));
      [| done | exact Hrun].
    intros st0 [dx dy] st1 _ Hsame Hcell.
    destruct (ring_cell_Ok rng choice obs s_start s_goal Hch center distance st0 dx dy)
      as [(Hd & Hel & color & Hcolor & Heq) | [_ Heq]];
      rewrite Heq in Hcell; injection Hcell as <-; [| done].
    simpl. rewrite !lookup_insert_ne; [done | |];
      intros <-; apply Hno; (split; [by apply Hoff | done]).
Qed.

Lemma set_surrounding_costs_ring_witness :
  ∃ st',
    Terrain._set_surrounding_costs Z lcg_choice walled_in (5, 5) (45, 25) (5, 5) 3
      (Terrain.Overlay ∅ ∅, 42) = Ok st'
    ∧ (∃ c, Terrain.terrain_cost st'.1 !! (6, 7) = Some c ∧ 2 ≤ c ≤ 5
         ∧ Terrain.terrain_colors st'.1 !! (6, 7) = Terrain.color_map !! c)
    ∧ Terrain.terrain_cost st'.1 !! (5, 5) = None.
Proof.
  destruct (set_surrounding_costs_ring Z lcg_choice walled_in (5, 5) (45, 25) (5, 5) 3
              (Terrain.Overlay ∅ ∅, 42) lcg_choice_draws) as (st' & Hrun & Hall).
  exists st'. split; [exact Hrun |]. split.
  - apply (proj1 (Hall (6, 7))); [reflexivity |].
    repeat split; [| discriminate..].
    apply (bool_decide_eq_false_1 (_ ∈ _)). vm_compute. reflexivity.
  - apply (proj2 (Hall (5, 5))). intros [_ (_ & Hs & _)]. apply Hs. reflexivity.
Defined.

(** The constructors of [AStar] and [Dijkstra] build the overlay without
    raising when [random.choice] draws from its list.  Every cost in it is
    between 2 and 5, so [get_terrain_cost] answers between 1 and 5 for every
    node; obstacles, the start and the goal get no cost and answer 1. *)
Theorem terrain_costs_in_range (rng : Type) (seed : rng → Z → rng)
    (choice : rng → list Z → Z * rng) (obs : gset coord) (s_start s_goal : coord)
    (r : rng) :
  draws_from_list choice →
  ∃ ov r', Terrain.init rng seed choice obs s_start s_goal r = Ok (ov, r')
    ∧ (∀ node c, Terrain.terrain_cost ov !! node = Some c → 2 ≤ c ≤ 5)
    ∧ (∀ node, 1 ≤ get_terrain_cost (Terrain.terrain_cost ov) node ≤ 5)
    ∧ (∀ node, node ∈ obs ∨ node = s_start ∨ node = s_goal →
         Terrain.terrain_cost ov !! node = None
         ∧ get_terrain_cost (Terrain.terrain_cost ov) node = 1).
Proof.
  intros Hch.
  destruct (init_overlay_ok rng choice obs s_start s_goal Hch seed r)
    as (ov & r' & Hrun & Hok).
  exists ov, r'. split; [exact Hrun |]. split; [| split].
  - intros node c Hc. specialize (Hok node). rewrite Hc in Hok. tauto.
  - intros node. unfold get_terrain_cost. specialize (Hok node).
    destruct (Terrain.terrain_cost ov !! node); [lia | lia].
  - intros node Hnode. unfold get_terrain_cost. specialize (Hok node).
    destruct (Terrain.terrain_cost ov !! node); [| done].
    destruct Hok as (_ & (Ho & Hs & Hg) & _). exfalso. tauto.
Qed.

Lemma terrain_costs_in_range_witness :
  ∃ ov r', Terrain.init Z lcg_seed lcg_choice walled_in (5, 5) (45, 25) 0 = Ok (ov, r')
    ∧ 1 ≤ get_terrain_cost (Terrain.terrain_cost ov) (20, 10) ≤ 5
    ∧ get_terrain_cost (Terrain.terrain_cost ov) (45, 25) = 1.
Proof.
  destruct (terrain_costs_in_range Z lcg_seed lcg_choice walled_in (5, 5) (45, 25) 0
              lcg_choice_draws) as (ov & r' & Hrun & _ & Hrange & Hfree).
  exists ov, r'. split; [exact Hrun |]. split; [apply Hrange |].
  apply Hfree. right. right. reflexivity.
Defined.

(** In the overlay the constructors build, [terrain_colors] has a colour
    exactly for the nodes that have a cost, and it is the colour
    [color_map] gives to that cost (2 red, 3 yellow, 4 blue, 5 green); every
    such node lies at Manhattan distance 3 from the start or from the goal,
    or in the rectangle [range(8, 43)] by [range(3, 28)]. *)
Theorem terrain_colors_agree (rng : Type) (seed : rng → Z → rng)
    (choice : rng → list Z → Z * rng) (obs : gset coord) (s_start s_goal : coord)
    (r : rng) :
  draws_from_list choice →
  ∃ ov r', Terrain.init rng seed choice obs s_start s_goal r = Ok (ov, r')
    ∧ (∀ node, Terrain.terrain_colors ov !! node
               = Terrain.terrain_cost ov !! node ≫= (Terrain.color_map !!.))
    ∧ (∀ node, is_Some (Terrain.terrain_cost ov !! node) →
         is_Some (Terrain.terrain_colors ov !! node)
         ∧ (on_ring s_start 3 node ∨ on_ring s_goal 3 node ∨ in_rectangle node)).
Proof.
  intros Hch.
  destruct (init_overlay_ok rng choice obs s_start s_goal Hch seed r)
    as (ov & r' & Hrun & Hok).
  exists ov, r'. split; [exact Hrun |]. split.
  - intros node. specialize (Hok node).
    destruct (Terrain.terrain_cost ov !! node); simpl; [tauto | done].
  - intros node [c Hc]. specialize (Hok node). rewrite Hc in Hok.
    destruct Hok as (Hrange & _ & Hcol & Hloc). split; [| done].
    rewrite Hcol. by apply color_map_lookup.
Qed.

Lemma terrain_colors_agree_witness :
  ∃ ov r', Terrain.init Z lcg_seed lcg_choice walled_in (5, 5) (45, 25) 0 = Ok (ov, r')
    ∧ Terrain.terrain_colors ov !! (20, 10)
      = Terrain.terrain_cost ov !! (20, 10) ≫= (Terrain.color_map !!.).
Proof.
  destruct (terrain_colors_agree Z lcg_seed lcg_choice walled_in (5, 5) (45, 25) 0
              lcg_choice_draws) as (ov & r' & Hrun & Hcol & _).
  exists ov, r'. split; [exact Hrun | apply Hcol].
Defined.

(** ** Depth-first search *)

Section DFS_tree_facts.
Variable obs : gset coord.
Variables s_start s_goal : coord.

Lemma visit_Ok (s : coord) (st : DFS.dfs_state) (s_n : coord) (st' : DFS.dfs_state) :
  DFS.visit obs s st s_n = Ok st' →
  ((s_n ∈ DFS.visited st ∨ is_collision obs s s_n = true) ∧ st' = st)
  ∨ ((s_n ∉ DFS.visited st) ∧ is_collision obs s s_n = false
     ∧ ∃ gs, DFS.g st !! s = Some gs
       ∧ st' = DFS.DfsState (DFS.stack st ++ [s_n]) ({[ s_n ]} ∪ DFS.visited st)
                 (DFS.CLOSED st) (<[s_n := s]> (DFS.PARENT st))
                 (<[s_n := gs + 1]> (DFS.g st))).
Proof.
  unfold DFS.visit. intros Hrun.
  destruct (decide (s_n ∈ DFS.visited st)) as [Hin | Hin].
  { rewrite (bool_decide_eq_true_2 _ Hin) in Hrun. injection Hrun as <-. left. auto. }
  rewrite (bool_decide_eq_false_2 _ Hin) in Hrun.
  destruct (is_collision obs s s_n); simpl in Hrun.
  { injection Hrun as <-. left. auto. }
  right. apply bind_Ok in Hrun as (gs & Hgs & [= <-]).
  unfold getitem in Hgs. destruct (DFS.g st !! s) as [v |] eqn:Hv; [| done].
  injection Hgs as ->. repeat split; try done. eauto.
Qed.

Lemma visit_dfs_tree (s : coord) (st : DFS.dfs_state) (s_n : coord) :
  dfs_tree obs s_start st → s ∈ DFS.CLOSED st → s_n ∈ get_neighbor motions4 s →
  ∃ st', DFS.visit obs s st s_n = Ok st' ∧ dfs_tree obs s_start st'
    ∧ DFS.CLOSED st' = DFS.CLOSED st.
Proof.
  intros [Hsp Hsg Hfirst Hvis Hpar Hdepth Hlink] Hs Hnb.
  assert (Hsv : s ∈ DFS.visited st) by (apply Hvis, elem_of_app; by left).
  destruct (Hdepth s Hsv) as (gs & Hgs & Hgs0 & Hgs1). specialize (Hgs1 Hs).
  unfold DFS.visit.
  destruct (decide (s_n ∈ DFS.visited st)) as [Hin | Hin].
  { rewrite (bool_decide_eq_true_2 _ Hin). simpl. eexists. split; [done |]. done. }
  rewrite (bool_decide_eq_false_2 _ Hin).
  destruct (is_collision obs s s_n) eqn:Hcol; simpl.
  { eexists. split; [done |]. done. }
  unfold getitem. rewrite Hgs. simpl. eexists. split; [done |]. split; [| done].
  assert (Hns : s_n ≠ s_start).
  { intros ->. apply Hin, Hpar. rewrite Hsp. eauto. }
  assert (Hne : s_n ≠ s) by (intros ->; done).
  split; simpl.
  - rewrite lookup_insert_ne; done.
  - rewrite lookup_insert_ne; done.
  - destruct Hfirst as [[Hcl _] | Hhd]; [| by right].
    rewrite Hcl in Hs. by apply not_elem_of_nil in Hs.
  - intros c. rewrite app_assoc, elem_of_app, list_elem_of_singleton, <- Hvis.
    rewrite elem_of_union, elem_of_singleton. tauto.
  - intros c. destruct (decide (s_n = c)) as [-> | Hc].
    + rewrite lookup_insert_eq. split; [| eauto].
      intros _. apply elem_of_union. left. by apply elem_of_singleton.
    + rewrite lookup_insert_ne by done. rewrite Hpar, elem_of_union, elem_of_singleton.
      split; [tauto | intros [-> | Hv]; done].
  - intros c Hc. destruct (decide (s_n = c)) as [-> | Hnc].
    + rewrite lookup_insert_eq. eexists. split; [done |]. split; [lia |].
      intros Hcl. exfalso. apply Hin, Hvis, elem_of_app. by left.
    + rewrite lookup_insert_ne by done. apply Hdepth.
      apply elem_of_union in Hc as [->%elem_of_singleton | Hc]; done.
  - intros c p Hcp Hc. destruct (decide (s_n = c)) as [-> | Hnc].
    + rewrite lookup_insert_eq in Hcp. injection Hcp as <-.
      repeat split; try done. exists gs.
      rewrite lookup_insert_ne, lookup_insert_eq by done. done.
    + rewrite lookup_insert_ne in Hcp by done.
      destruct (Hlink c p Hcp Hc) as (H1 & H2 & H3 & gp & Hgp & Hgc).
      repeat split; try done. exists gp.
      assert (s_n ≠ p).
      { intros ->. apply Hin, Hvis, elem_of_app. by left. }
      rewrite !lookup_insert_ne by done. done.
Qed.

Lemma pop_dfs_tree (st : DFS.dfs_state) (l : list coord) (s : coord) :
  dfs_tree obs s_start st → NoDup (DFS.CLOSED st ++ DFS.stack st) →
  DFS.stack st = l ++ [s] →
  dfs_tree obs s_start
    (DFS.DfsState l (DFS.visited st) (DFS.CLOSED st ++ [s]) (DFS.PARENT st) (DFS.g st)).
Proof.
  intros [Hsp Hsg Hfirst Hvis Hpar Hdepth Hlink] Hnd Hst.
  split; simpl; try done.
  - right. destruct Hfirst as [[Hcl Hstack] | Hhd].
    + rewrite Hcl. simpl. rewrite Hst in Hstack.
      destruct l; [by injection Hstack as -> | by destruct l].
    + destruct (DFS.CLOSED st); done.
  - intros c. rewrite Hvis, Hst, !elem_of_app, list_elem_of_singleton. tauto.
  - intros c Hc. destruct (Hdepth c Hc) as (z & Hz & Hz0 & Hz1).
    exists z. split; [done |]. rewrite length_app. simpl. split; [lia |].
    intros [Hin | ->%list_elem_of_singleton]%elem_of_app; [specialize (Hz1 Hin) |]; lia.
  - intros c p Hcp Hc. destruct (Hlink c p Hcp Hc) as (H1 & H2).
    split; [| done]. apply elem_of_app. by left.
Qed.

Lemma init_dfs_tree : dfs_tree obs s_start (DFS.init_state s_start).
Proof.
  split; simpl.
  - apply lookup_singleton_eq.
  - apply lookup_singleton_eq.
  - by left.
  - intros c. rewrite list_elem_of_singleton, elem_of_singleton. done.
  - intros c. split.
    + intros [q [-> _]%lookup_singleton_Some]. by apply elem_of_singleton.
    + intros ->%elem_of_singleton. rewrite lookup_singleton_eq. eauto.
  - intros c ->%elem_of_singleton. exists 0. rewrite lookup_singleton_eq.
    split; [done |]. split; [lia |]. intros Hc. by apply not_elem_of_nil in Hc.
  - intros c p [-> _]%lookup_singleton_Some Hc. done.
Qed.

(** The neighbours of a popped node are all visited without an exception:
    the popped node has its depth in [g]. *)
Lemma for_each_visit (s : coord) (st : DFS.dfs_state) :
  dfs_tree obs s_start st → dfs_inv st → s ∈ DFS.CLOSED st →
  ∃ st', for_each (DFS.visit obs s) (get_neighbor motions4 s) st = Ok st'
    ∧ dfs_tree obs s_start st' ∧ dfs_inv st' ∧ DFS.CLOSED st' = DFS.CLOSED st.
Proof.
  intros Htree Hinv Hs.
  edestruct (for_each_total (DFS.visit obs s)
               (fun st0 => dfs_tree obs s_start st0 ∧ dfs_inv st0
                           ∧ DFS.CLOSED st0 = DFS.CLOSED st)
               (get_neighbor motions4 s)) as (st' & Hrun & Hres);
    [| split; [exact Htree | split; [exact Hinv | reflexivity]] | eauto].
  intros st0 x Hx (Ht0 & Hi0 & Hc0).
  destruct (visit_dfs_tree s st0 x Ht0) as (st1 & Hv & Ht1 & Hc1); [by rewrite Hc0 | done |].
  exists st1. split; [done |]. split; [done |]. split; [| congruence].
  eapply visit_dfs_inv; eauto.
Qed.

Lemma pop_dfs_inv (st : DFS.dfs_state) (l : list coord) (s : coord) :
  dfs_inv st → DFS.stack st = l ++ [s] →
  dfs_inv (DFS.DfsState l (DFS.visited st) (DFS.CLOSED st ++ [s]) (DFS.PARENT st)
             (DFS.g st)).
Proof.
  intros [Hnd Hvis] Hl. rewrite Hl in *. split; simpl.
  - rewrite <- app_assoc. simpl. rewrite (Permutation_cons_append l s). exact Hnd.
  - intros c Hc. apply Hvis. revert Hc.
    rewrite !elem_of_app, list_elem_of_singleton. tauto.
Qed.

(** A step of the loop, from a state with the invariants: the loop is left
    on an empty stack or on the goal, or it goes on from a state with the
    invariants and one more node popped. *)
Lemma dfs_loop_step (fuel : nat) (st : DFS.dfs_state) :
  dfs_tree obs s_start st → dfs_inv st →
  (DFS.stack st = [] ∧ DFS.search_loop obs s_goal fuel st = Ok st)
  ∨ (∃ l s, DFS.stack st = l ++ [s] ∧
       let st1 := DFS.DfsState l (DFS.visited st) (DFS.CLOSED st ++ [s])
                    (DFS.PARENT st) (DFS.g st) in
       dfs_tree obs s_start st1 ∧ dfs_inv st1
       ∧ ((s = s_goal ∧ DFS.search_loop obs s_goal (S fuel) st = Ok st1)
          ∨ (s ≠ s_goal ∧ ∃ st2,
               for_each (DFS.visit obs s) (get_neighbor motions4 s) st1 = Ok st2
               ∧ dfs_tree obs s_start st2 ∧ dfs_inv st2
               ∧ DFS.CLOSED st2 = DFS.CLOSED st ++ [s]
               ∧ DFS.search_loop obs s_goal (S fuel) st
                 = DFS.search_loop obs s_goal fuel st2))).
Proof.
  intros Htree Hinv.
  destruct (last (DFS.stack st)) as [s |] eqn:Hlast.
  - right. apply last_Some in Hlast as [l Hl]. exists l, s. split; [done |].
    pose proof (pop_dfs_tree st l s Htree (proj1 Hinv) Hl) as Ht1.
    pose proof (pop_dfs_inv st l s Hinv Hl) as Hi1.
    split; [done |]. split; [done |].
    cbn [DFS.search_loop]. unfold DFS.u_set. rewrite Hl, last_snoc, removelast_last.
    destruct (decide (s = s_goal)) as [Hg | Hg].
    + left. rewrite (bool_decide_eq_true_2 _ Hg). done.
    + right. rewrite (bool_decide_eq_false_2 _ Hg). split; [done |].
      destruct (for_each_visit s _ Ht1 Hi1) as (st2 & Hfor & Ht2 & Hi2 & Hc2).
      { simpl. apply elem_of_app. right. apply list_elem_of_here. }
      exists st2. rewrite Hfor. simpl. done.
  - left. apply last_None in Hlast. split; [done |].
    destruct fuel; cbn [DFS.search_loop]; rewrite Hlast; done.
Qed.

Lemma dfs_loop_result (fuel : nat) (st st' : DFS.dfs_state) :
  dfs_tree obs s_start st → dfs_inv st → s_goal ∉ DFS.CLOSED st →
  DFS.search_loop obs s_goal fuel st = Ok st' →
  dfs_tree obs s_start st' ∧ dfs_inv st'
  ∧ (length (DFS.CLOSED st') ≤ length (DFS.CLOSED st) + fuel)%nat
  ∧ ((DFS.stack st' = [] ∧ s_goal ∉ DFS.CLOSED st')
     ∨ last (DFS.CLOSED st') = Some s_goal).
Proof.
  revert st. induction fuel as [| fuel IH]; intros st Htree Hinv Hg Hrun.
  - cbn [DFS.search_loop] in Hrun.
    destruct (last (DFS.stack st)) eqn:Hlast; [done |].
    injection Hrun as <-. apply last_None in Hlast.
    split; [done |]. split; [done |]. split; [lia | by left].
  - destruct (dfs_loop_step fuel st Htree Hinv)
      as [[Hst Heq] | (l & s & Hl & Ht1 & Hi1 & [[-> Heq] | (Hns & st2 & Hfor & Ht2 & Hi2 & Hc2 & Heq)])].
    + cbn [DFS.search_loop] in Hrun. rewrite Hst in Hrun. simpl in Hrun.
      injection Hrun as <-. split; [done |]. split; [done |]. split; [lia | by left].
    + rewrite Heq in Hrun. injection Hrun as <-.
      split; [done |]. split; [done |]. simpl. rewrite length_app. simpl.
      split; [lia |]. right. apply last_snoc.
    + rewrite Heq in Hrun. apply IH in Hrun as (H1 & H2 & H3 & H4); try done.
      * rewrite Hc2, length_app in H3. simpl in H3.
        split; [done |]. split; [done |]. split; [lia | done].
      * rewrite Hc2. intros [Hin | ->%list_elem_of_singleton]%elem_of_app; done.
Qed.

Lemma dfs_loop_never_raises (fuel : nat) (st : DFS.dfs_state) (e : exn) :
  dfs_tree obs s_start st → dfs_inv st →
  DFS.search_loop obs s_goal fuel st ≠ Raise e.
Proof.
  revert st. induction fuel as [| fuel IH]; intros st Htree Hinv.
  - cbn [DFS.search_loop]. destruct (last (DFS.stack st)); done.
  - destruct (dfs_loop_step fuel st Htree Hinv)
      as [[Hst Heq] | (l & s & Hl & Ht1 & Hi1 & [[-> Heq] | (Hns & st2 & Hfor & Ht2 & Hi2 & Hc2 & Heq)])].
    + cbn [DFS.search_loop]. rewrite Hst. done.
    + rewrite Heq. done.
    + rewrite Heq. apply IH; done.
Qed.
End DFS_tree_facts.

Section DFS_path_facts.
Variable obs : gset coord.
Variables s_start s_goal : coord.

Lemma dfs_parent_of_parent (st : DFS.dfs_state) (c p : coord) :
  dfs_tree obs s_start st → DFS.PARENT st !! c = Some p → is_Some (DFS.PARENT st !! p).
Proof.
  intros Htree Hcp. destruct (decide (c = s_start)) as [-> | Hc].
  - rewrite (dfs_start_parent _ _ _ Htree) in Hcp. injection Hcp as <-.
    rewrite (dfs_start_parent _ _ _ Htree). eauto.
  - destruct (dfs_link _ _ _ Htree c p Hcp Hc) as (Hp & _).
    apply (dfs_parent _ _ _ Htree), (dfs_visited _ _ _ Htree), elem_of_app. by left.
Qed.

Lemma dfs_extract_never_raises (st : DFS.dfs_state) (fuel : nat) (path0 : list coord)
    (s : coord) (e : exn) :
  dfs_tree obs s_start st → is_Some (DFS.PARENT st !! s) →
  extract_path_loop s_start fuel (DFS.PARENT st) path0 s ≠ Raise e.
Proof.
  intros Htree. revert path0 s. induction fuel as [| fuel IH];
    intros path0 s [q Hq]; simpl; [done |].
  unfold getitem. rewrite Hq. simpl.
  destruct (bool_decide (q = s_start)); [done |].
  apply IH. eapply dfs_parent_of_parent; eauto.
Qed.

(** Following the parents from a node of depth [n] other than the start
    takes [n] steps, one level up each, and ends at the start. *)
Lemma dfs_extract_loop (st : DFS.dfs_state) (n : nat) :
  dfs_tree obs s_start st →
  ∀ (s : coord) (path0 : list coord) (fuel : nat),
    DFS.g st !! s = Some (Z.of_nat n) → is_Some (DFS.PARENT st !! s) → s ≠ s_start →
    (n ≤ fuel)%nat →
    ∃ chain, extract_path_loop s_start fuel (DFS.PARENT st) path0 s = Ok (path0 ++ chain)
      ∧ last (s :: chain) = Some s_start
      ∧ parent_chain s_start (DFS.PARENT st) (s :: chain)
      ∧ (∀ (i : nat) c, (s :: chain) !! i = Some c →
           DFS.g st !! c = Some (Z.of_nat n - Z.of_nat i)).
Proof.
  intros Htree. induction n as [| n IH]; intros s path0 fuel Hg [p Hp] Hs Hfuel.
  { destruct (dfs_link _ _ _ Htree s p Hp Hs) as (Hpc & _ & _ & gp & Hgp & Hgs).
    assert (p ∈ DFS.visited st) as Hpv
      by (apply (dfs_visited _ _ _ Htree), elem_of_app; by left).
    destruct (dfs_depth _ _ _ Htree p Hpv) as (z & Hz & Hz0 & _).
    rewrite Hgp in Hz. injection Hz as ->. rewrite Hg in Hgs. injection Hgs as Hgs. lia. }
  destruct fuel as [| fuel]; [lia |].
  destruct (dfs_link _ _ _ Htree s p Hp Hs) as (Hpc & _ & _ & gp & Hgp & Hgs).
  rewrite Hg in Hgs. injection Hgs as Hgs.
  assert (gp = Z.of_nat n) as -> by lia.
  simpl. unfold getitem. rewrite Hp. simpl.
  destruct (bool_decide (p = s_start)) eqn:Hstart.
  - apply bool_decide_eq_true in Hstart as ->.
    exists [s_start]. split; [done |]. split; [done |]. split.
    + intros [| [| i]] a b Ha Hb; simpl in *; try done.
      injection Ha as <-. injection Hb as <-. done.
    + intros [| [| i]] c Hc; simpl in Hc; try done; injection Hc as <-;
        [rewrite Hg | rewrite Hgp]; f_equal; lia.
  - apply bool_decide_eq_false in Hstart.
    destruct (IH p (path0 ++ [p]) fuel Hgp) as (chain & Hrun & Hlast & Hchain & Hdepth);
      [eapply dfs_parent_of_parent; eauto | done | lia |].
    exists (p :: chain). rewrite Hrun, <- app_assoc. split; [done |].
    split; [exact Hlast |]. split.
    + intros [| i] a b Ha Hb; simpl in *.
      * injection Ha as <-. injection Hb as <-. done.
      * eapply Hchain; eauto.
    + intros [| i] c Hc; simpl in Hc.
      * injection Hc as <-. rewrite Hg. f_equal; lia.
      * rewrite (Hdepth i c Hc). f_equal; lia.
Qed.

Lemma chain_valid_route (u_set : list coord) (PARENT : gmap coord coord)
    (path rest : list coord) :
  (∀ c p, PARENT !! c = Some p → c ≠ s_start →
     c ∈ get_neighbor u_set p ∧ is_collision obs p c = false) →
  path = s_goal :: rest → last path = Some s_start → NoDup path →
  parent_chain s_start PARENT path →
  valid_route obs u_set s_start s_goal (reverse path).
Proof.
  intros Hlink Hhead Hlast Hnd Hchain.
  split; [by rewrite head_reverse |].
  split; [by rewrite last_reverse, Hhead |].
  split; [by rewrite reverse_Permutation |].
  intros i a b Ha Hb.
  pose proof (lookup_lt_Some _ _ _ Hb) as Hlt. rewrite length_reverse in Hlt.
  rewrite reverse_lookup in Ha by lia. rewrite reverse_lookup in Hb by lia.
  replace (length path - S i)%nat with (S (length path - S (S i)))%nat in Ha by lia.
  destruct (Hchain _ _ _ Hb Ha) as [Hpar Hne].
  apply (Hlink _ _ Hpar Hne).
Qed.

Lemma dfs_search_result (fuel : nat) (st : DFS.dfs_state) :
  DFS.search obs s_start s_goal fuel = Ok st →
  dfs_tree obs s_start st ∧ dfs_inv st ∧ (length (DFS.CLOSED st) ≤ fuel)%nat
  ∧ ((DFS.stack st = [] ∧ s_goal ∉ DFS.CLOSED st)
     ∨ last (DFS.CLOSED st) = Some s_goal).
Proof.
  intros Hrun. unfold DFS.search in Hrun.
  apply dfs_loop_result with (s_start := s_start) in Hrun;
    [| apply init_dfs_tree | apply init_dfs_inv | apply not_elem_of_nil].
  simpl in Hrun. done.
Qed.
End DFS_path_facts.

(** A run of [DFS] ends like a run of the heap planners.  The loop never
    raises; a returned trace begins with the start and ends with the goal,
    a returned path begins with the goal and ends with the start; and
    [searching] raises, a [KeyError] from [extract_path], exactly when the
    stack has been emptied without popping the goal. *)
Theorem DFS_run_ends (obs : gset coord) (s_start s_goal : coord) :
  ends_at_goal s_start s_goal (DFS.searching obs s_start s_goal)
  ∧ dfs_raises_when_exhausted obs s_start s_goal.
Proof.
  assert (Hloop : ∀ fuel e, DFS.search obs s_start s_goal fuel ≠ Raise e).
  { intros fuel e. apply dfs_loop_never_raises with (s_start := s_start);
      [apply init_dfs_tree | apply init_dfs_inv]. }
  assert (Hfin : ∀ fuel st, DFS.search obs s_start s_goal fuel = Ok st →
    (∀ path, extract_path s_start s_goal fuel (DFS.PARENT st) = Ok path →
       last (DFS.CLOSED st) = Some s_goal)
    ∧ (∀ e, extract_path s_start s_goal fuel (DFS.PARENT st) = Raise e →
         e = KeyError ∧ DFS.stack st = [] ∧ s_goal ∉ DFS.CLOSED st)
    ∧ (DFS.stack st = [] → s_goal ∉ DFS.CLOSED st →
       extract_path s_start s_goal fuel (DFS.PARENT st) = Raise KeyError)
    ∧ head (DFS.CLOSED st) = Some s_start).
  { intros fuel st Hrun.
    assert (Hfuel : fuel ≠ 0%nat) by (intros ->; done).
    apply dfs_search_result in Hrun as (Htree & Hinv & _ & Hend).
    assert (Hnone : DFS.stack st = [] → s_goal ∉ DFS.CLOSED st →
                    DFS.PARENT st !! s_goal = None).
    { intros Hst Hng. apply eq_None_not_Some. intros Hsome.
      apply (dfs_parent _ _ _ Htree), (dfs_visited _ _ _ Htree) in Hsome.
      rewrite Hst, app_nil_r in Hsome. done. }
    assert (Hsome : last (DFS.CLOSED st) = Some s_goal →
                    is_Some (DFS.PARENT st !! s_goal)).
    { intros Hl. apply (dfs_parent _ _ _ Htree), (dfs_visited _ _ _ Htree), elem_of_app.
      left. apply last_Some in Hl as [l ->]. apply elem_of_app. right.
      apply list_elem_of_here. }
    split; [| split; [| split]].
    - intros path Hpath. destruct Hend as [[Hst Hng] | Hl]; [| done].
      destruct fuel as [| fuel]; [done |].
      unfold extract_path in Hpath. simpl in Hpath. unfold getitem in Hpath.
      rewrite (Hnone Hst Hng) in Hpath. done.
    - intros e He. split; [eapply extract_path_loop_raises, He |].
      destruct Hend as [Hex | Hl]; [done |]. exfalso.
      eapply (dfs_extract_never_raises obs s_start st fuel [s_goal] s_goal e Htree),
        He. auto.
    - intros Hst Hng. destruct fuel as [| fuel]; [done |].
      unfold extract_path. simpl. unfold getitem. rewrite (Hnone Hst Hng). done.
    - destruct (dfs_first _ _ _ Htree) as [[Hcl Hst] | Hhd]; [| done].
      destruct Hend as [[Hst' _] | Hl]; [congruence | by rewrite Hcl in Hl]. }
  split; [| split; [exact Hloop | split]].
  - intros fuel path closed Hrun. unfold DFS.searching in Hrun.
    apply bind_Ok in Hrun as (st & Hst & Hrun).
    apply bind_Ok in Hrun as (path' & Hpath & [= <- <-]).
    destruct (Hfin fuel st Hst) as (Hok & _ & _ & Hhd).
    split; [done |]. split; [eauto |].
    unfold extract_path in Hpath.
    apply extract_path_loop_shape in Hpath as (rest & -> & Hrest & _).
    split; [done |]. destruct rest; [done | exact Hrest].
  - intros fuel e Hrun. unfold DFS.searching in Hrun.
    destruct (DFS.search obs s_start s_goal fuel) as [st | e' |] eqn:Hst;
      simpl in Hrun; [| by apply Hloop in Hst | done].
    destruct (extract_path s_start s_goal fuel (DFS.PARENT st)) as [path | e' |] eqn:Hp;
      simpl in Hrun; try done. injection Hrun as ->.
    apply (Hfin fuel st Hst). done.
  - intros fuel. unfold DFS.searching.
    destruct (DFS.search obs s_start s_goal fuel) as [st | e' |] eqn:Hst; simpl.
    + destruct (Hfin fuel st Hst) as (_ & Hraise & Hex & _). split.
      * intros Hrun. exists st. split; [done |].
        destruct (extract_path s_start s_goal fuel (DFS.PARENT st)) as [path | e' |] eqn:Hp;
          simpl in Hrun; try done. injection Hrun as ->. apply (Hraise KeyError). done.
      * intros (st' & [= <-] & H1 & H2). rewrite (Hex H1 H2). done.
    + by apply Hloop in Hst.
    + split; [done |]. intros (st' & [=] & _).
Qed.

(** When the goal has been popped and is not the start, [DFS.searching]
    returns.  Its path, reversed, is a route from the start to the goal of
    free moves of the four directions without a repeated node, and the
    entry in [g] of the node at position [i] of the route is [i]: the
    number [g] of the goal is the number of moves of the returned path. *)
Theorem DFS_path_valid (obs : gset coord) (s_start s_goal : coord) (fuel : nat)
    (st : DFS.dfs_state) :
  s_start ≠ s_goal →
  DFS.search obs s_start s_goal fuel = Ok st →
  last (DFS.CLOSED st) = Some s_goal →
  ∃ path, DFS.searching obs s_start s_goal fuel = Ok (path, DFS.CLOSED st)
    ∧ valid_route obs motions4 s_start s_goal (reverse path)
    ∧ (∀ (i : nat) c, reverse path !! i = Some c → DFS.g st !! c = Some (Z.of_nat i))
    ∧ DFS.g st !! s_goal = Some (Z.of_nat (length path) - 1).
Proof.
  intros Hne Hrun Hlast. unfold DFS.searching. rewrite Hrun. simpl.
  apply dfs_search_result in Hrun as (Htree & Hinv & Hlen & _).
  assert (Hgc : s_goal ∈ DFS.CLOSED st).
  { apply last_Some in Hlast as [l ->]. apply elem_of_app. right. apply list_elem_of_here. }
  assert (Hgv : s_goal ∈ DFS.visited st)
    by (apply (dfs_visited _ _ _ Htree), elem_of_app; by left).
  destruct (dfs_depth _ _ _ Htree s_goal Hgv) as (z & Hz & Hz0 & Hz1).
  specialize (Hz1 Hgc).
  assert (z = Z.of_nat (Z.to_nat z)) as Hzn by lia. rewrite Hzn in Hz.
  destruct (dfs_extract_loop obs s_start st (Z.to_nat z) Htree s_goal [s_goal] fuel Hz)
    as (chain & Hpath & Hend & Hchain & Hdepth);
    [by apply (dfs_parent _ _ _ Htree) | done | lia |].
  unfold extract_path. rewrite Hpath. simpl.
  assert (Hlenp : (length (s_goal :: chain) = S (Z.to_nat z))%nat).
  { assert (Hl := Hend). rewrite last_lookup in Hl. simpl in Hl.
    apply Hdepth in Hl. rewrite (dfs_start_g _ _ _ Htree) in Hl.
    injection Hl as Hl. simpl. lia. }
  assert (Hnd : NoDup (s_goal :: chain)).
  { apply NoDup_alt. intros i j c Hi Hj.
    apply Hdepth in Hi, Hj. rewrite Hi in Hj. injection Hj as Hj. lia. }
  eexists. split; [reflexivity |]. split; [| split].
  - eapply chain_valid_route; [| reflexivity | exact Hend | exact Hnd | exact Hchain].
    intros c p Hcp Hc. destruct (dfs_link _ _ _ Htree c p Hcp Hc) as (_ & H1 & H2 & _).
    done.
  - intros i c Hc.
    pose proof (lookup_lt_Some _ _ _ Hc) as Hlt. rewrite length_reverse in Hlt.
    rewrite reverse_lookup in Hc by lia. apply Hdepth in Hc. rewrite Hc. f_equal.
    rewrite Hlenp in *. lia.
  - rewrite Hz. f_equal. rewrite Hlenp. lia.
Qed.

Lemma DFS_path_valid_witness :
  ∃ path, DFS.searching {[ (1, 1) ]} (0, 0) (2, 0) 3 = Ok (path, [(0, 0); (1, 0); (2, 0)])
    ∧ valid_route {[ (1, 1) ]} motions4 (0, 0) (2, 0) (reverse path).
Proof.
  assert (∃ st, DFS.search {[ (1, 1) ]} (0, 0) (2, 0) 3 = Ok st
                ∧ DFS.CLOSED st = [(0, 0); (1, 0); (2, 0)])
    as (st & Hrun & Hcl) by (eexists; split; vm_compute; reflexivity).
  assert (Hne : ((0, 0) : coord) ≠ (2, 0)) by discriminate.
  destruct (DFS_path_valid {[ (1, 1) ]} (0, 0) (2, 0) 3 st Hne Hrun) as (path & Hp & Hv & _).
  { rewrite Hcl. reflexivity. }
  exists path. rewrite <- Hcl. split; [exact Hp | exact Hv].
Defined.

Lemma NoDup_in_set_length (l : list coord) (R : gset coord) :
  NoDup l → (∀ c, c ∈ l → c ∈ R) → (length l ≤ size R)%nat.
Proof.
  intros Hnd Hin. rewrite <- (size_list_to_set (C := gset coord) l Hnd).
  apply subseteq_size. intros c Hc. apply elem_of_list_to_set in Hc. auto.
Qed.

Lemma for_each_snoc {A S} (body : S → A → result S) (l : list A) (x : A) (st : S) :
  for_each body (l ++ [x]) st = for_each body l st ≫= λ st', body st' x.
Proof.
  revert st. induction l as [| y l IH]; intros st; simpl.
  - destruct (body st x); done.
  - destruct (body st y) as [st1 | |]; simpl; [apply IH | done | done].
Qed.

Section DFS_region.
Variable obs : gset coord.
Variables s_start s_goal : coord.
Variable R : gset coord.

Hypothesis R_closed : closed_region obs R.

Lemma for_each_visit_region (s : coord) (st st' : DFS.dfs_state) :
  s ∈ R → (∀ c, c ∈ DFS.CLOSED st ++ DFS.stack st → c ∈ R) →
  for_each (DFS.visit obs s) (get_neighbor motions4 s) st = Ok st' →
  ∀ c, c ∈ DFS.CLOSED st' ++ DFS.stack st' → c ∈ R.
Proof.
  intros Hs. apply (for_each_invariant (DFS.visit obs s)
    (fun st0 => ∀ c, c ∈ DFS.CLOSED st0 ++ DFS.stack st0 → c ∈ R)).
  intros st0 x st1 Hx Hinv Hrun.
  apply visit_Ok in Hrun as [[_ ->] | (_ & Hfree & gs & _ & ->)]; [done |].
  simpl. intros c. rewrite app_assoc, elem_of_app, list_elem_of_singleton.
  intros [Hc | ->]; [by apply Hinv |]. eapply R_closed; eauto.
Qed.

Lemma dfs_loop_terminates (fuel : nat) (st : DFS.dfs_state) :
  dfs_tree obs s_start st → dfs_inv st →
  (∀ c, c ∈ DFS.CLOSED st ++ DFS.stack st → c ∈ R) →
  (size R ≤ fuel + length (DFS.CLOSED st))%nat →
  ∃ st', DFS.search_loop obs s_goal fuel st = Ok st'
    ∧ ∀ c, c ∈ DFS.CLOSED st' → c ∈ R.
Proof.
  revert st. induction fuel as [| fuel IH]; intros st Htree Hinv Hreg Hsize.
  - pose proof (NoDup_in_set_length _ R (proj1 Hinv) Hreg) as Hlen.
    rewrite length_app in Hlen.
    assert (DFS.stack st = []) as Hst by (destruct (DFS.stack st); [done | simpl in *; lia]).
    exists st. cbn [DFS.search_loop]. rewrite Hst. simpl. split; [done |].
    intros c Hc. apply Hreg, elem_of_app. by left.
  - destruct (dfs_loop_step obs s_start s_goal fuel st Htree Hinv)
      as [[Hst Heq] | (l & s & Hl & Ht1 & Hi1 & [[-> Heq] | (Hns & st2 & Hfor & Ht2 & Hi2 & Hc2 & Heq)])].
    + exists st. cbn [DFS.search_loop]. rewrite Hst. simpl. split; [done |].
      intros c Hc. apply Hreg, elem_of_app. by left.
    + rewrite Heq. eexists. split; [done |]. simpl.
      intros c Hc. apply Hreg. rewrite Hl. revert Hc.
      rewrite !elem_of_app, list_elem_of_singleton. tauto.
    + rewrite Heq. apply IH; try done.
      * eapply for_each_visit_region; [| | exact Hfor].
        -- apply Hreg. rewrite Hl, !elem_of_app, list_elem_of_singleton. tauto.
        -- simpl. intros c Hc. apply Hreg. rewrite Hl. revert Hc.
           rewrite !elem_of_app, list_elem_of_singleton. tauto.
      * rewrite Hc2, length_app. simpl. lia.
Qed.
End DFS_region.



Section DFS_ray.
Variable obs : gset coord.
Variables s_start s_goal : coord.

(** The cells to the right of the start are free, and the goal is not one
    of them. *)
Hypothesis ray_free : ∀ k, 0 ≤ k → (s_start.1 + k, s_start.2) ∉ obs.
Hypothesis goal_off_ray : ∀ k, 0 ≤ k → s_goal ≠ (s_start.1 + k, s_start.2).

Lemma visit_bounded (s : coord) (st : DFS.dfs_state) (s_n : coord) (st' : DFS.dfs_state)
    (b : Z) :
  s_n.1 ≤ b → (∀ c, c ∈ DFS.visited st → c.1 ≤ b) →
  DFS.visit obs s st s_n = Ok st' → ∀ c, c ∈ DFS.visited st' → c.1 ≤ b.
Proof.
  intros Hb Hinv Hrun.
  apply visit_Ok in Hrun as [[_ ->] | (_ & _ & gs & _ & ->)]; [done |].
  simpl. intros c [->%elem_of_singleton | Hc]%elem_of_union; auto.
Qed.

(** One turn of the loop with the cell [k] steps to the right of the start
    on top of the stack: the cell one step further is pushed last. *)
Lemma dfs_ray_step (k : Z) (fuel : nat) (st : DFS.dfs_state) :
  0 ≤ k →
  dfs_tree obs s_start st → dfs_inv st →
  last (DFS.stack st) = Some (s_start.1 + k, s_start.2) →
  (∀ c, c ∈ DFS.visited st → c.1 ≤ s_start.1 + k) →
  ∃ st2, DFS.search_loop obs s_goal (S fuel) st = DFS.search_loop obs s_goal fuel st2
    ∧ dfs_tree obs s_start st2 ∧ dfs_inv st2
    ∧ last (DFS.stack st2) = Some (s_start.1 + (k + 1), s_start.2)
    ∧ (∀ c, c ∈ DFS.visited st2 → c.1 ≤ s_start.1 + (k + 1)).
Proof.
  intros Hk Htree Hinv Hlast Hbound.
  destruct (dfs_loop_step obs s_start s_goal fuel st Htree Hinv)
    as [[Hst _] | (l & s & Hl & Ht1 & Hi1 & Hcase)].
  { rewrite Hst in Hlast. done. }
  rewrite Hl, last_snoc in Hlast. injection Hlast as ->.
  destruct Hcase as [[Hg _] | (_ & st2 & Hfor & Ht2 & Hi2 & Hc2 & Heq)].
  { exfalso. eapply goal_off_ray; [exact Hk | by symmetry]. }
  exists st2. split; [exact Heq |]. split; [done |]. split; [done |].
  set (x := s_start.1) in *. set (y := s_start.2) in *.
  change (get_neighbor motions4 (x + k, y))
    with ([(x + k + 0, y + 1); (x + k + 0, y + -1); (x + k + -1, y + 0)]
          ++ [(x + k + 1, y + 0)]) in Hfor.
  rewrite for_each_snoc in Hfor. apply bind_Ok in Hfor as (st3 & Hfor & Hright).
  assert (Hb3 : ∀ c, c ∈ DFS.visited st3 → c.1 ≤ x + k).
  { refine (for_each_invariant _ (fun st0 => ∀ c, c ∈ DFS.visited st0 → c.1 ≤ x + k)
              _ _ _ _ _ Hfor); [| exact Hbound].
    intros st0 n st1 Hn Hinv0 Hrun. eapply visit_bounded; [| exact Hinv0 | exact Hrun].
    repeat (apply elem_of_cons in Hn as [-> | Hn]); [| | | by apply not_elem_of_nil in Hn];
      simpl; lia. }
  apply visit_Ok in Hright as [[[Hin | Hcol] _] | (_ & _ & gs & _ & ->)].
  - apply Hb3 in Hin. simpl in Hin. lia.
  - exfalso. unfold is_collision in Hcol. simpl in Hcol.
    replace (y + 0) with y in Hcol by lia.
    rewrite (bool_decide_eq_false_2 _ (ray_free k Hk)) in Hcol.
    replace (x + k + 1) with (x + (k + 1)) in Hcol by lia.
    rewrite (bool_decide_eq_false_2 _ (ray_free (k + 1) ltac:(lia))) in Hcol.
    rewrite Z.eqb_refl, andb_false_r in Hcol. done.
  - simpl. split.
    + rewrite last_snoc. f_equal. f_equal; lia.
    + intros c [->%elem_of_singleton | Hc]%elem_of_union; [simpl; lia |].
      apply Hb3 in Hc. lia.
Qed.

Lemma dfs_ray_loop (fuel : nat) (k : Z) (st : DFS.dfs_state) :
  0 ≤ k →
  dfs_tree obs s_start st → dfs_inv st →
  last (DFS.stack st) = Some (s_start.1 + k, s_start.2) →
  (∀ c, c ∈ DFS.visited st → c.1 ≤ s_start.1 + k) →
  DFS.search_loop obs s_goal fuel st = NoFuel.
Proof.
  revert k st. induction fuel as [| fuel IH]; intros k st Hk Htree Hinv Hlast Hbound.
  - cbn [DFS.search_loop]. rewrite Hlast. done.
  - destruct (dfs_ray_step k fuel st Hk Htree Hinv Hlast Hbound)
      as (st2 & -> & Ht2 & Hi2 & Hl2 & Hb2).
    apply (IH (k + 1)); [lia | done..].
Qed.
End DFS_ray.

(** Without a wall [DFS] does not come back.  When the cells to the right
    of the start are free and the goal is not among them, the loop pops them
    one after the other, each pushed last by the one before, and never
    ends: no number of turns gives a result, wherever the goal is. *)
Theorem DFS_runs_forever_on_free_ray (obs : gset coord) (s_start s_goal : coord) :
  (∀ k, 0 ≤ k → (s_start.1 + k, s_start.2) ∉ obs) →
  (∀ k, 0 ≤ k → s_goal ≠ (s_start.1 + k, s_start.2)) →
  ∀ fuel, DFS.search obs s_start s_goal fuel = NoFuel
          ∧ DFS.searching obs s_start s_goal fuel = NoFuel.
Proof.
  intros Hray Hgoal fuel.
  assert (DFS.search obs s_start s_goal fuel = NoFuel) as Hrun.
  { apply (dfs_ray_loop obs s_start s_goal Hray Hgoal fuel 0);
      [lia | apply init_dfs_tree | apply init_dfs_inv | |].
    - simpl. destruct s_start. simpl. do 2 f_equal. lia.
    - simpl. intros c ->%elem_of_singleton. lia. }
  split; [exact Hrun |]. unfold DFS.searching. rewrite Hrun. done.
Qed.

Lemma DFS_runs_forever_on_free_ray_witness :
  DFS.search {[ (0, 3) ]} (0, 0) (0, 1) 7 = NoFuel
  ∧ DFS.searching {[ (0, 3) ]} (0, 0) (0, 1) 7 = NoFuel.
Proof.
  apply DFS_runs_forever_on_free_ray.
  - intros k Hk Hin. apply elem_of_singleton in Hin. simpl in Hin.
    injection Hin as Hin. discriminate.
  - intros k Hk Heq. simpl in Heq. injection Heq as Heq. discriminate.
Defined.

(** ** [OPEN] is a heap *)

Lemma heap_parent_child (c pos : nat) :
  (0 < c)%nat → heap_parent c = pos ↔ c = (2 * pos + 1)%nat ∨ c = (2 * pos + 2)%nat.
Proof.
  intros Hc. unfold heap_parent.
  pose proof (Nat.div_mod_eq (c - 1) 2) as H1.
  pose proof (Nat.mod_upper_bound (c - 1) 2 ltac:(lia)) as H2.
  split; intros H; [lia |].
  destruct H as [-> | ->].
  - replace (2 * pos + 1 - 1)%nat with (pos * 2)%nat by lia. apply Nat.div_mul. lia.
  - replace (2 * pos + 2 - 1)%nat with (1 + pos * 2)%nat by lia.
    rewrite Nat.div_add by lia. reflexivity.
Qed.

Lemma heap_parent_lt (i : nat) : (0 < i)%nat → (heap_parent i < i)%nat.
Proof.
  intros Hi. destruct (proj1 (heap_parent_child i (heap_parent i) Hi) eq_refl); lia.
Qed.

Section heap_facts.
Context {A : Type} (lt : A → A → bool).
Hypothesis Hlt : strict_weak lt.
Implicit Types (heap : list A) (x a : A).

Lemma is_heap_nil : is_heap lt [].
Proof. intros i x p _ Hx. done. Qed.

(** The root of a heap is a least item. *)
Lemma heap_root_least heap r :
  is_heap lt heap → heap !! 0%nat = Some r →
  ∀ y, y ∈ heap → lt y r = false.
Proof.
  intros Hheap Hr y [i Hy]%list_elem_of_lookup. revert y Hy.
  induction (lt_wf i) as [i _ IH]. intros y Hy.
  destruct (decide (i = 0)%nat) as [-> | Hi].
  - rewrite Hr in Hy. injection Hy as <-. apply (sw_irrefl _ Hlt).
  - assert (0 < i)%nat as Hpos by lia.
    pose proof (heap_parent_lt i Hpos) as Hlt_i.
    destruct (lookup_lt_is_Some_2 heap (heap_parent i)) as [p Hp].
    { apply lookup_lt_Some in Hy. lia. }
    eapply (sw_negtrans _ Hlt); [eapply Hheap; eauto | eapply IH; eauto].
Qed.

Lemma heap_but_insert (pos : nat) heap x :
  heap_but lt pos heap → heap_but lt pos (<[pos := x]> heap).
Proof.
  intros [H1 H2]. split.
  - intros i y p Hi Hne Hpne. rewrite !list_lookup_insert_ne by done. by apply H1.
  - intros c y q Hpos Hc Hcp.
    pose proof (heap_parent_lt pos Hpos).
    assert (c ≠ pos) by (pose proof (heap_parent_lt c Hc); lia).
    rewrite !list_lookup_insert_ne by lia. by apply H2.
Qed.

(** Filling the hole with an item that is in order with the children of the
    hole and with its parent gives a heap. *)
Lemma heap_but_fill (pos : nat) heap newitem :
  heap_but lt pos heap →
  (∀ (c : nat) x, (0 < c)%nat → heap_parent c = pos → heap !! c = Some x →
     lt x newitem = false) →
  (∀ q, (0 < pos)%nat → heap !! heap_parent pos = Some q → lt newitem q = false) →
  is_heap lt (<[pos := newitem]> heap).
Proof.
  intros [H1 H2] Hchild Hparent i x p Hi Hx Hp.
  pose proof (heap_parent_lt i Hi) as Hpi.
  apply list_lookup_insert_Some in Hx as [(<- & <- & Hlen) | [Hne Hx]].
  - rewrite list_lookup_insert_ne in Hp by lia. eapply Hparent; eauto.
  - apply list_lookup_insert_Some in Hp as [(Heq & <- & Hlen) | [Hpne Hp]].
    + eapply Hchild; eauto.
    + eapply H1; eauto.
Qed.

Lemma siftdown_loop_is_heap (fuel : nat) heap newitem (pos : nat) :
  (pos ≤ fuel)%nat → (pos < length heap)%nat →
  heap_but lt pos heap →
  (∀ (c : nat) x, (0 < c)%nat → heap_parent c = pos → heap !! c = Some x →
     lt x newitem = false) →
  is_heap lt (heapq.siftdown_loop lt fuel heap newitem 0 pos).
Proof.
  revert heap pos. induction fuel as [| fuel IH]; intros heap pos Hfuel Hlen Hbut Hchild;
    cbn [heapq.siftdown_loop].
  { apply heap_but_fill; [done | done |]. intros q Hpos. lia. }
  destruct (0 <? pos)%nat eqn:Hpos.
  2: { apply Nat.ltb_ge in Hpos. apply heap_but_fill; [done | done |].
       intros q Hpos'. lia. }
  apply Nat.ltb_lt in Hpos. fold (heap_parent pos).
  pose proof (heap_parent_lt pos Hpos) as Hpp.
  destruct (heap !! heap_parent pos) as [q |] eqn:Hq.
  2: { apply heap_but_fill; [done | done |]. intros q' _ Hq'. congruence. }
  destruct (lt newitem q) eqn:Hnq.
  2: { apply heap_but_fill; [done | done |]. intros q' _ Hq'. congruence. }
  destruct Hbut as [H1 H2].
  assert (Hqn : lt q newitem = false) by (by apply (sw_asym _ Hlt)).
  apply IH; [lia | rewrite length_insert; lia | |].
  - split.
    + intros i x p Hi Hne Hpne Hx Hp.
      apply list_lookup_insert_Some in Hx as [(<- & _ & _) | [Hxne Hx]]; [done |].
      apply list_lookup_insert_Some in Hp as [(Heq & <- & _) | [Hpn Hp]].
      * eapply H2; eauto.
      * eapply H1; eauto.
    + intros c x g Hpos1 Hc Hcp Hx Hg.
      pose proof (heap_parent_lt _ Hpos1) as Hgp.
      rewrite list_lookup_insert_ne in Hg by lia.
      assert (Hqg : lt q g = false).
      { apply (H1 (heap_parent pos) q g Hpos1); [lia | lia | done | done]. }
      apply list_lookup_insert_Some in Hx as [(<- & <- & _) | [Hxne Hx]]; [done |].
      eapply (sw_negtrans _ Hlt); [| exact Hqg].
      apply (H1 c x q Hc); [done | lia | done | by rewrite Hcp].
  - intros c x Hc Hcp Hx.
    apply list_lookup_insert_Some in Hx as [(<- & <- & _) | [Hxne Hx]]; [done |].
    eapply (sw_negtrans _ Hlt); [| exact Hqn].
    apply (H1 c x q Hc); [done | lia | done | by rewrite Hcp].
Qed.

Lemma heappush_is_heap heap x : is_heap lt heap → is_heap lt (heapq.heappush lt heap x).
Proof.
  intros Hheap. unfold heapq.heappush, heapq.siftdown.
  rewrite lookup_app_r, Nat.sub_diag by lia. simpl.
  apply siftdown_loop_is_heap; [lia | rewrite length_app; simpl; lia | |].
  - split.
    + intros i y p Hi Hne Hpne Hy Hp.
      pose proof (heap_parent_lt i Hi).
      assert (i < length heap)%nat.
      { apply lookup_lt_Some in Hy. rewrite length_app in Hy. simpl in Hy. lia. }
      rewrite lookup_app_l in Hy, Hp by lia. eapply Hheap; eauto.
    + intros c y q Hpos Hc Hcp Hy.
      apply lookup_lt_Some in Hy. rewrite length_app in Hy. simpl in Hy.
      apply heap_parent_child in Hcp; lia.
  - intros c y Hc Hcp Hy.
    apply lookup_lt_Some in Hy. rewrite length_app in Hy. simpl in Hy.
    apply heap_parent_child in Hcp; lia.
Qed.

Lemma siftup_loop_heap_but (fuel : nat) heap (pos : nat) heap' (pos' : nat) :
  heap_but lt pos heap → (pos < length heap)%nat → (length heap - pos ≤ fuel)%nat →
  heapq.siftup_loop lt fuel heap (length heap) pos = (heap', pos') →
  heap_but lt pos' heap' ∧ (pos' < length heap')%nat
  ∧ (length heap' ≤ 2 * pos' + 1)%nat.
Proof.
  revert heap pos. induction fuel as [| fuel IH]; intros heap pos Hbut Hlen Hfuel Hrun;
    cbn [heapq.siftup_loop] in Hrun; [lia |].
  destruct (2 * pos + 1 <? length heap)%nat eqn:Hchild.
  2: { apply Nat.ltb_ge in Hchild. injection Hrun as <- <-. done. }
  apply Nat.ltb_lt in Hchild.
  destruct (lookup_lt_is_Some_2 heap (2 * pos + 1)%nat Hchild) as [l Hl].
  rewrite Hl in Hrun.
  set (c := match heap !! (2 * pos + 1 + 1)%nat with
            | Some r => if lt l r then (2 * pos + 1)%nat else (2 * pos + 1 + 1)%nat
            | None => (2 * pos + 1)%nat
            end) in *.
  assert (Hc : (c = 2 * pos + 1 ∨ c = 2 * pos + 2)%nat).
  { unfold c. destruct (heap !! (2 * pos + 1 + 1)%nat); [destruct (lt l _) |]; lia. }
  assert (is_Some (heap !! c)) as [cv Hcv].
  { unfold c. destruct (heap !! (2 * pos + 1 + 1)%nat) eqn:Hr; [destruct (lt l _) |];
      eauto. }
  rewrite Hcv in Hrun.
  (* the other child is not below the chosen one *)
  assert (Hother : ∀ (d : nat) x, (d = 2 * pos + 1 ∨ d = 2 * pos + 2)%nat → d ≠ c →
                            heap !! d = Some x → lt x cv = false).
  { intros d x Hd Hdc Hx. unfold c in *.
    destruct (heap !! (2 * pos + 1 + 1)%nat) as [r |] eqn:Hr.
    - destruct (lt l r) eqn:Hlr.
      + assert (d = 2 * pos + 1 + 1)%nat as -> by lia.
        rewrite Hr in Hx. injection Hx as <-. rewrite Hl in Hcv. injection Hcv as <-.
        by apply (sw_asym _ Hlt).
      + assert (d = 2 * pos + 1)%nat as -> by lia.
        rewrite Hl in Hx. injection Hx as <-. rewrite Hr in Hcv. injection Hcv as <-.
        done.
    - assert (d = 2 * pos + 1 + 1)%nat as -> by lia. congruence. }
  destruct Hbut as [H1 H2].
  assert (Hcp : heap_parent c = pos) by (apply heap_parent_child; lia).
  rewrite <- (length_insert heap pos cv) in Hrun.
  apply IH in Hrun; [| | rewrite length_insert; apply lookup_lt_Some in Hcv; lia
                     | rewrite length_insert; lia].
  { done. }
  split.
  - intros i x p Hi Hne Hpne Hx Hp.
    pose proof (heap_parent_lt i Hi) as Hpi.
    apply list_lookup_insert_Some in Hx as [(<- & <- & _) | [Hxne Hx]].
    + rewrite list_lookup_insert_ne in Hp by lia. eapply (H2 c); eauto; lia.
    + apply list_lookup_insert_Some in Hp as [(Heq & <- & _) | [Hpn Hp]].
      * apply (Hother i x); [| done | done].
        apply (proj1 (heap_parent_child i pos Hi)). by symmetry.
      * eapply H1; eauto.
  - intros gc x q Hc0 Hgc Hgcp Hx Hq.
    rewrite Hcp, list_lookup_insert_eq in Hq by done. injection Hq as <-.
    assert (gc ≠ pos) by (apply heap_parent_child in Hgcp; lia).
    rewrite list_lookup_insert_ne in Hx by done.
    eapply (H1 gc); eauto; [lia | congruence].
Qed.

Lemma siftup_root_is_heap heap newitem :
  heap !! 0%nat = Some newitem → heap_but lt 0 heap →
  is_heap lt (heapq.siftup lt heap 0).
Proof.
  intros H0 Hbut. unfold heapq.siftup. rewrite H0.
  destruct (heapq.siftup_loop lt (length heap) heap (length heap) 0)
    as [heap' pos'] eqn:Hrun.
  apply siftup_loop_heap_but in Hrun as (Hbut' & Hlen & Hleaf);
    [| done | apply lookup_lt_Some in H0; lia | lia].
  unfold heapq.siftdown. rewrite list_lookup_insert_eq by done.
  apply siftdown_loop_is_heap;
    [lia | rewrite length_insert; lia | by apply heap_but_insert |].
  intros c x Hc Hcp Hx. apply lookup_lt_Some in Hx. rewrite length_insert in Hx.
  apply heap_parent_child in Hcp; lia.
Qed.

Lemma heappop_is_heap heap x heap' :
  is_heap lt heap → heapq.heappop lt heap = Ok (x, heap') →
  is_heap lt heap' ∧ ∀ y, y ∈ heap → lt y x = false.
Proof.
  intros Hheap. unfold heapq.heappop.
  destruct (last heap) as [lastelt |] eqn:Hlast; [| done].
  apply last_Some in Hlast as [l ->]. rewrite removelast_last.
  destruct l as [| r t]; intros Hpop; injection Hpop as <- <-.
  - split; [apply is_heap_nil |].
    intros y ->%list_elem_of_singleton. apply (sw_irrefl _ Hlt).
  - split; [| by apply (heap_root_least _ r Hheap)].
    apply (siftup_root_is_heap _ lastelt); [done |]. split.
    + intros i y p Hi Hne Hpne Hy Hp.
      destruct i as [| i]; [lia |].
      destruct (heap_parent (S i)) as [| j] eqn:Hj; [done |].
      simpl in Hy, Hp.
      apply (Hheap (S i) y p); [lia | |].
      * simpl. by apply lookup_app_l_Some.
      * rewrite Hj. simpl. by apply lookup_app_l_Some.
    + intros c y q Hpos. lia.
Qed.
End heap_facts.

Lemma pyint_item_lt_strict_weak : strict_weak (item_lt (N := pyint)).
Proof.
  split.
  - intros [[x |] [a1 a2]]; unfold item_lt, coord_lt; simpl;
      rewrite ?Z.eqb_refl; apply Z.ltb_irrefl.
  - intros [[x |] [a1 a2]] [[y |] [b1 b2]]; unfold item_lt, coord_lt; simpl;
      repeat match goal with
             | |- context [?u =? ?v] => destruct (Z.eqb_spec u v)
             | |- context [?u <? ?v] => destruct (Z.ltb_spec u v)
             end; try done; lia.
  - intros [[x |] [a1 a2]] [[y |] [b1 b2]] [[z |] [c1 c2]];
      unfold item_lt, coord_lt; simpl;
      repeat match goal with
             | |- context [?u =? ?v] => destruct (Z.eqb_spec u v)
             | |- context [?u <? ?v] => destruct (Z.ltb_spec u v)
             end; try done; lia.
Qed.

Section Heap_run.
Context {N : Type} `{!Num N}.
Variable u_set : list coord.
Variables s_start s_goal : coord.
Variable cost : coord → coord → N.
Variable priority : state N → N → coord → result N.

Hypothesis Hlt : strict_weak (item_lt (N := N)).

Lemma relax_is_heap (s : coord) (st : state N) (s_n : coord) (st' : state N) :
  is_heap item_lt (OPEN st) → relax cost priority s st s_n = Ok st' →
  is_heap item_lt (OPEN st').
Proof.
  intros Hheap Hrun.
  apply relax_Ok in Hrun as (gs & _ & [[_ ->] | [_ (p & ->)]]); [done |].
  simpl. by apply heappush_is_heap.
Qed.

Lemma for_each_relax_is_heap (s : coord) (l : list coord) (st st' : state N) :
  is_heap item_lt (OPEN st) → for_each (relax cost priority s) l st = Ok st' →
  is_heap item_lt (OPEN st').
Proof.
  apply (for_each_invariant _ (fun st0 => is_heap item_lt (OPEN st0))).
  intros st0 x st1 _. apply relax_is_heap.
Qed.

Lemma search_loop_is_heap (fuel : nat) (st st' : state N) :
  is_heap item_lt (OPEN st) →
  search_loop u_set s_goal cost priority fuel st = Ok st' →
  is_heap item_lt (OPEN st').
Proof.
  apply (search_loop_invariant u_set s_goal cost priority
           (fun st0 => is_heap item_lt (OPEN st0))
           (fun _ st0 => is_heap item_lt (OPEN st0))).
  - intros st0 p s open' Hheap Hpop. simpl.
    eapply (heappop_is_heap _ Hlt); eauto.
  - intros s st0 s_n st1 Hheap _. by apply relax_is_heap.
  - done.
Qed.

Lemma init_is_heap (p0 : N) : is_heap item_lt (OPEN (init_state s_start s_goal p0)).
Proof. simpl. apply (heappush_is_heap _ Hlt), is_heap_nil. Qed.

Lemma is_heap_pops_least (fuel : nat) (st : state N) :
  is_heap item_lt (OPEN st) → pops_least u_set s_goal cost priority fuel st.
Proof.
  revert st. induction fuel as [| fuel IH]; intros st Hheap; simpl; [done |].
  destruct (heapq.heappop item_lt (OPEN st)) as [[item open'] | |] eqn:Hpop; [| done..].
  destruct (heappop_is_heap _ Hlt _ _ _ Hheap Hpop) as [Hheap' Hleast].
  split; [exact Hleast |].
  destruct (bool_decide (item.2 = s_goal)); [done |].
  destruct (for_each _ _ _) as [st2 | |] eqn:Hfor; [| done..].
  apply IH. eapply for_each_relax_is_heap; [| exact Hfor]. done.
Qed.
End Heap_run.


(** ** The shortest path of [Dijkstra] *)

Lemma for_each_prefix {A S} (body : S → A → result S) (Q : list A → S → Prop)
    (l : list A) :
  (∀ done x st st', Q done st → x ∈ l → body st x = Ok st' → Q (done ++ [x]) st') →
  ∀ done st st', Q done st → for_each body l st = Ok st' → Q (done ++ l) st'.
Proof.
  induction l as [| x l IH]; intros Hbody done st st' HQ Hrun; simpl in Hrun.
  - injection Hrun as <-. by rewrite app_nil_r.
  - apply bind_Ok in Hrun as (st1 & Hx & Hrun).
    rewrite (cons_middle x done l), app_assoc.
    apply (IH (fun done x st st' HQ Hin => Hbody done x st st' HQ
                 (list_elem_of_further _ _ _ Hin)) (done ++ [x]) st1); [| done].
    eapply Hbody; [exact HQ | apply list_elem_of_here | exact Hx].
Qed.

Section Route_facts.
Context {N : Type} `{!Num N}.
Variable u_set : list coord.
Variable cost : coord → coord → N.

Lemma route_cost_from_snoc (acc : N) (a : coord) (rest : list coord) (x : coord) :
  route_cost_from cost acc a (rest ++ [x])
  = n_add (route_cost_from cost acc a rest) (cost (default a (last rest)) x).
Proof.
  revert acc a. induction rest as [| b rest IH]; intros acc a; simpl; [done |].
  rewrite IH. f_equal. f_equal. destruct rest as [| c r]; [done |].
  change (last (b :: c :: r)) with (last (c :: r)).
  destruct (last (c :: r)) eqn:E; [done | by apply last_None in E].
Qed.

Lemma route_cost_snoc (route : list coord) (x' x : coord) :
  last route = Some x' →
  route_cost cost (route ++ [x]) = n_add (route_cost cost route) (cost x' x).
Proof.
  destruct route as [| a rest]; [done |]. intros Hlast. simpl.
  rewrite route_cost_from_snoc. f_equal. f_equal.
  destruct rest; simpl in *; [congruence |]. by rewrite Hlast.
Qed.

Lemma walk_singleton (a : coord) : walk u_set a a [a].
Proof. split; [done |]. split; [done |]. intros [| i] x y Hx Hy; done. Qed.

Lemma walk_snoc (a x' x : coord) (route : list coord) :
  walk u_set a x' route → x ∈ get_neighbor u_set x' → walk u_set a x (route ++ [x]).
Proof.
  intros (Hhd & Hlast & Hmoves) Hx. split; [| split].
  - destruct route; done.
  - apply last_snoc.
  - intros i y z Hy Hz.
    destruct (decide (S i < length route)%nat) as [Hlt | Hge].
    + rewrite lookup_app_l in Hy, Hz by lia. eauto.
    + assert (S i = length route) as Hi.
      { apply lookup_lt_Some in Hz. rewrite length_app in Hz. simpl in Hz. lia. }
      rewrite lookup_app_l in Hy by lia. rewrite lookup_app_r in Hz by lia.
      replace (S i - length route)%nat with 0%nat in Hz by lia. injection Hz as <-.
      rewrite last_lookup in Hlast. replace (pred (length route)) with i in Hlast by lia.
      rewrite Hy in Hlast. injection Hlast as ->. done.
Qed.

Lemma walk_snoc_inv (a b x : coord) (route : list coord) :
  route ≠ [] → walk u_set a b (route ++ [x]) →
  b = x ∧ ∃ x', last route = Some x' ∧ walk u_set a x' route
            ∧ x ∈ get_neighbor u_set x'.
Proof.
  intros Hne (Hhd & Hlast & Hmoves). rewrite last_snoc in Hlast. injection Hlast as <-.
  split; [done |].
  destruct (last route) as [x' |] eqn:Hx'; [| by apply last_None in Hx'].
  exists x'. split; [done |]. split; [split; [| split] |].
  - destruct route; done.
  - done.
  - intros i y z Hy Hz. apply (Hmoves i); by apply lookup_app_l_Some.
  - rewrite last_lookup in Hx'.
    apply (Hmoves (pred (length route))).
    + by apply lookup_app_l_Some.
    + assert (0 < length route)%nat by (destruct route; [done | simpl; lia]).
      rewrite lookup_app_r by lia.
      replace (S (pred (length route)) - length route)%nat with 0%nat by lia. done.
Qed.
End Route_facts.

Lemma pyint_item_lt_false (a b : Z) (y v : coord) :
  item_lt (Int a, y) (Int b, v) = false → b ≤ a.
Proof.
  unfold item_lt. simpl. destruct (Z.eqb_spec a b) as [-> | Hne]; [lia |].
  intros H%Z.ltb_ge. lia.
Qed.

Section Dijkstra_facts.
Variable obs : gset coord.
Variable terrain_cost : gmap coord Z.
Variables s_start s_goal : coord.

Hypothesis terrain_pos : ∀ c t, terrain_cost !! c = Some t → 1 ≤ t.

Local Abbreviation cost := (Dijkstra.cost (N:=pyint) obs terrain_cost).
Local Abbreviation tc := (get_terrain_cost terrain_cost).

Lemma get_terrain_cost_pos (n : coord) : 1 ≤ tc n.
Proof.
  unfold get_terrain_cost. destruct (terrain_cost !! n) as [t |] eqn:Ht; [| lia].
  eapply terrain_pos, Ht.
Qed.

Lemma Dijkstra_cost_cases (a b : coord) :
  (is_collision obs a b = true ∧ cost a b = Inf)
  ∨ (is_collision obs a b = false ∧ cost a b = Int (tc b)).
Proof. unfold Dijkstra.cost. destruct (is_collision obs a b); auto. Qed.

Lemma route_cost_nonneg (route : list coord) (w : Z) :
  route_cost cost route = Int w → 0 ≤ w.
Proof.
  revert w. induction route as [| x route IH] using rev_ind; intros w Hw.
  { injection Hw as <-. lia. }
  destruct (last route) as [x' |] eqn:Hlast.
  - rewrite (route_cost_snoc cost route x' x Hlast) in Hw. simpl in Hw.
    destruct (route_cost cost route) as [w' |]; [| done].
    destruct (Dijkstra_cost_cases x' x) as [[_ Hc] | [_ Hc]]; rewrite Hc in Hw; [done |].
    injection Hw as <-. pose proof (IH w' eq_refl). pose proof (get_terrain_cost_pos x). lia.
  - apply last_None in Hlast as ->. injection Hw as <-. lia.
Qed.

(** A walk from the start of integer cost [w] ends in a popped node whose
    cost is at most [w], or some entry of [OPEN] has a priority of at most
    [w]. *)
Lemma walk_meets (st : state pyint) (route : list coord) :
  dij_inv obs terrain_cost s_start s_goal st →
  ∀ x w, walk motions4 s_start x route → route_cost cost route = Int w →
    (x ∈ CLOSED st ∧ ∃ zx, g st !! x = Some (Int zx) ∧ zx ≤ w)
    ∨ (∃ q y, (Int q, y) ∈ OPEN st ∧ q ≤ w).
Proof.
  intros (Hcore & Hgoal & Hrel).
  induction route as [| x route IH] using rev_ind; intros b w Hwalk Hw.
  { destruct Hwalk as [Hhd _]. done. }
  destruct (decide (route = [])) as [-> | Hne].
  - destruct Hwalk as (Hhd & Hlast & _). simpl in *.
    injection Hhd as ->. injection Hlast as <-. injection Hw as <-.
    destruct (decide (s_start ∈ CLOSED st)) as [Hin | Hin].
    + left. split; [done |]. exists 0. split; [apply Hcore | lia].
    + right. exists 0, s_start. split; [| lia].
      apply (dij_fresh _ _ _ _ Hcore); [apply Hcore | done].
  - apply walk_snoc_inv in Hwalk as (-> & x' & Hlast & Hwalk' & Hnb); [| done].
    rewrite (route_cost_snoc cost route x' x Hlast) in Hw. simpl in Hw.
    destruct (route_cost cost route) as [w' |] eqn:Hw'; [| done].
    destruct (Dijkstra_cost_cases x' x) as [[_ Hc] | [Hfree Hc]]; rewrite Hc in Hw; [done |].
    injection Hw as <-. pose proof (get_terrain_cost_pos x) as Ht.
    destruct (IH x' w' Hwalk' eq_refl) as [(Hcl & zx & Hzx & Hle) | (q & y & Hin & Hle)].
    + destruct (Hrel x' x Hcl Hnb Hfree) as (zu & zn & Hzu & Hzn & Hrelax).
      rewrite Hzx in Hzu. injection Hzu as <-.
      destruct (decide (x ∈ CLOSED st)) as [Hxc | Hxc].
      * left. split; [done |]. exists zn. split; [done | lia].
      * right. exists zn, x. split; [| lia]. by apply (dij_fresh _ _ _ _ Hcore).
    + right. exists q, y. split; [done | lia].
Qed.

Lemma pop_dij (st : state pyint) (p : pyint) (v : coord) (open' : list (pyint * coord)) :
  dij_inv obs terrain_cost s_start s_goal st →
  heapq.heappop item_lt (OPEN st) = Ok ((p, v), open') →
  dij_mid obs terrain_cost s_start s_goal v []
    (State open' (CLOSED st ++ [v]) (PARENT st) (g st)).
Proof.
  intros Hinv Hpop. pose proof Hinv as (Hcore & Hgoal & Hrel).
  destruct (heappop_is_heap _ pyint_item_lt_strict_weak _ _ _ (dij_heap _ _ _ _ Hcore) Hpop)
    as [Hheap Hleast].
  apply heappop_Permutation in Hpop as Hperm.
  assert (Hv : (p, v) ∈ OPEN st) by (rewrite Hperm; apply list_elem_of_here).
  destruct (dij_entry _ _ _ _ Hcore p v Hv) as (q & z & -> & Hz & Hzq).
  split; [| split; [| split; [| split]]].
  - split; simpl.
    + exact Hheap.
    + apply Hcore.
    + apply Hcore.
    + intros p' v' Hin. apply (dij_entry _ _ _ _ Hcore). rewrite Hperm.
      by apply list_elem_of_further.
    + intros x zx Hzx Hx.
      assert ((x ∉ CLOSED st) ∧ x ≠ v) as [Hxc Hxv].
      { split; [intros H | intros ->]; apply Hx, elem_of_app;
          [by left | right; apply list_elem_of_here]. }
      pose proof (dij_fresh _ _ _ _ Hcore x zx Hzx Hxc) as Hin.
      rewrite Hperm in Hin. apply elem_of_cons in Hin as [[= _ ->] | Hin]; done.
    + intros u [Hu | ->%list_elem_of_singleton]%elem_of_app;
        [by apply (dij_closed _ _ _ _ Hcore) |].
      exists z. split; [done |]. intros route w Hwalk Hw.
      destruct (walk_meets st route Hinv v w Hwalk Hw)
        as [(_ & zx & Hzx & Hle) | (q' & y & Hin & Hle)].
      * rewrite Hz in Hzx. injection Hzx as <-. done.
      * apply Hleast, pyint_item_lt_false in Hin. lia.
    + intros c q' Hcq Hc.
      destruct (dij_parent _ _ _ _ Hcore c q' Hcq Hc) as (H1 & H2).
      split; [apply elem_of_app; by left | done].
  - simpl. apply elem_of_app. right. apply list_elem_of_here.
  - simpl. intros u [Hu | ->%list_elem_of_singleton]%elem_of_app Huv; [| done].
    intros ->. done.
  - simpl. intros u n [Hu | ->%list_elem_of_singleton]%elem_of_app Huv Hn; [| done].
    intros Hfree. apply (Hrel u n Hu Hn Hfree).
  - intros n Hn. by apply not_elem_of_nil in Hn.
Qed.

(** One relaxation in [Dijkstra]: the priority pushed is the new cost. *)
Lemma relax_Dijkstra (v : coord) (st : state pyint) (n : coord) (st' : state pyint) :
  relax cost Dijkstra.priority v st n = Ok st' →
  ∃ gs, g st !! v = Some gs ∧
    let new_cost := pyint_add gs (cost v n) in
    let gn := default Inf (g st !! n) in
    (pyint_lt new_cost gn = false ∧
     st' = State (OPEN st) (CLOSED st) (PARENT st) (<[n := gn]> (g st)))
    ∨ (pyint_lt new_cost gn = true ∧
       st' = State (heapq.heappush item_lt (OPEN st) (new_cost, n)) (CLOSED st)
                   (<[n := v]> (PARENT st)) (<[n := new_cost]> (g st))).
Proof.
  unfold relax, getitem, Dijkstra.priority. intros Hrun.
  destruct (g st !! v) as [gs |] eqn:Hgs; [| done]. simpl in Hrun.
  exists gs. split; [done |]. simpl.
  destruct (g st !! n) as [gn |] eqn:Hgn; simpl in *.
  - rewrite Hgn in Hrun. simpl in Hrun.
    destruct (pyint_lt (pyint_add gs (cost v n)) gn) eqn:Hlt.
    + right. split; [done |]. simpl in Hrun. injection Hrun as <-. done.
    + left. split; [done |]. injection Hrun as <-. rewrite insert_id; done.
  - rewrite lookup_insert_eq in Hrun. simpl in Hrun.
    destruct (pyint_lt (pyint_add gs (cost v n)) Inf) eqn:Hlt.
    + right. split; [done |]. simpl in Hrun. injection Hrun as <-.
      rewrite insert_insert_eq. done.
    + left. split; [done |]. injection Hrun as <-. done.
Qed.

(** A state that differs only by entries [inf] of [g]. *)
Lemma dij_mid_same_ints (v : coord) (done : list coord) (st : state pyint)
    (g' : gmap coord pyint) :
  (∀ x z, g' !! x = Some (Int z) ↔ g st !! x = Some (Int z)) →
  dij_mid obs terrain_cost s_start s_goal v done st →
  dij_mid obs terrain_cost s_start s_goal v done
    (State (OPEN st) (CLOSED st) (PARENT st) g').
Proof.
  intros Hsame (Hcore & Hv & Hgoal & Hrel & Hdone).
  assert (Hrelaxed : ∀ u n, relaxed obs terrain_cost st u n →
            relaxed obs terrain_cost (State (OPEN st) (CLOSED st) (PARENT st) g') u n).
  { intros u n Hr Hfree. destruct (Hr Hfree) as (zu & zn & Hzu & Hzn & Hle).
    exists zu, zn. simpl. rewrite !Hsame. done. }
  split; [| split; [done | split; [done | split]]].
  - destruct Hcore as [H1 H2 H3 H4 H5 H6 H7]. split; simpl.
    + done.
    + by apply Hsame.
    + intros x z Hx. apply H3. by apply Hsame.
    + intros p x Hin. destruct (H4 p x Hin) as (q & z & -> & Hz & Hle).
      exists q, z. rewrite Hsame. done.
    + intros x z Hx. apply H5. by apply Hsame.
    + intros u Hu. destruct (H6 u Hu) as (zu & Hzu & Hch). exists zu. rewrite Hsame. done.
    + intros c p Hcp Hc. destruct (H7 c p Hcp Hc) as (Ha & Hb & Hd & zp & Hzp & Hzc).
      repeat split; try done. exists zp. rewrite !Hsame. done.
  - intros u n Hu Huv Hn. apply Hrelaxed. by apply Hrel.
  - intros n Hn. apply Hrelaxed. by apply Hdone.
Qed.

Lemma relax_dij (v : coord) (done : list coord) (st : state pyint) (n : coord)
    (st' : state pyint) :
  dij_mid obs terrain_cost s_start s_goal v done st →
  n ∈ get_neighbor motions4 v →
  relax cost Dijkstra.priority v st n = Ok st' →
  dij_mid obs terrain_cost s_start s_goal v (done ++ [n]) st'.
Proof.
  intros Hmid Hnb Hrun. pose proof Hmid as (Hcore & Hv & Hgoal & Hrel & Hdone).
  destruct (dij_closed _ _ _ _ Hcore v Hv) as (zv & Hzv & Hcheap).
  apply relax_Dijkstra in Hrun as (gs & Hgs & Hcases).
  rewrite Hzv in Hgs. injection Hgs as <-. simpl in Hcases.
  pose proof (get_terrain_cost_pos n) as Ht.
  destruct Hcases as [[Hlt ->] | [Hlt ->]].
  - (* no improvement *)
    assert (Hsame : ∀ x z, <[n := default Inf (g st !! n)]> (g st) !! x = Some (Int z)
                           ↔ g st !! x = Some (Int z)).
    { intros x z. destruct (decide (n = x)) as [-> | Hne].
      - rewrite lookup_insert_eq. destruct (g st !! x) as [gx |]; simpl; [done |].
        split; done.
      - rewrite lookup_insert_ne; done. }
    pose proof (dij_mid_same_ints v done st _ Hsame Hmid) as (Hc' & Hv' & Hg' & Hr' & Hd').
    split; [done |]. split; [done |]. split; [done |]. split; [done |].
    intros m [Hm | ->%list_elem_of_singleton]%elem_of_app; [by apply Hd' |].
    intros Hfree. simpl.
    destruct (Dijkstra_cost_cases v n) as [[Hcol _] | [_ Hc]]; [congruence |].
    rewrite Hc in Hlt. simpl in Hlt.
    destruct (g st !! n) as [[zm |] |] eqn:Hzm; simpl in Hlt; try done.
    exists zv, zm. rewrite (proj2 (Hsame v zv) Hzv).
    rewrite lookup_insert_eq. simpl. apply Z.ltb_ge in Hlt. done.
  - (* improvement *)
    destruct (Dijkstra_cost_cases v n) as [[_ Hc] | [Hfree Hc]]; rewrite Hc in Hlt |- *;
      simpl in Hlt; [done |]. simpl.
    (* the old cost of [n], when it is an integer, is above the new one *)
    assert (Hold : ∀ zn, g st !! n = Some (Int zn) → zv + tc n < zn).
    { intros zn Hzn. rewrite Hzn in Hlt. simpl in Hlt. by apply Z.ltb_lt in Hlt. }
    destruct (dij_walk _ _ _ _ Hcore v zv Hzv) as (rv & Hwalk & Hcost).
    assert (Hwalk_n : walk motions4 s_start n (rv ++ [n])) by (eapply walk_snoc; eauto).
    assert (Hcost_n : route_cost cost (rv ++ [n]) = Int (zv + tc n)).
    { rewrite (route_cost_snoc cost rv v n (proj1 (proj2 Hwalk))), Hcost, Hc. done. }
    assert (Hnc : n ∉ CLOSED st).
    { intros Hin. destruct (dij_closed _ _ _ _ Hcore n Hin) as (zn & Hzn & Hch).
      pose proof (Hold zn Hzn). pose proof (Hch _ _ Hwalk_n Hcost_n). lia. }
    assert (Hns : n ≠ s_start).
    { intros ->. pose proof (Hold 0 (dij_start _ _ _ _ Hcore)).
      pose proof (route_cost_nonneg _ _ Hcost). lia. }
    assert (Hnv : n ≠ v) by (intros ->; done).
    assert (Hrelaxed : ∀ u m, u ∈ CLOSED st → relaxed obs terrain_cost st u m →
              relaxed obs terrain_cost
                (State (heapq.heappush item_lt (OPEN st) (Int (zv + tc n), n)) (CLOSED st)
                   (<[n := v]> (PARENT st)) (<[n := Int (zv + tc n)]> (g st))) u m).
    { intros u m Hu Hr Hfree'. destruct (Hr Hfree') as (zu & zm & Hzu & Hzm & Hle).
      assert (u ≠ n) by (intros ->; done). simpl.
      rewrite (lookup_insert_ne _ n u) by done.
      destruct (decide (n = m)) as [-> | Hnm].
      - rewrite lookup_insert_eq. exists zu, (zv + tc m). split; [done |]. split; [done |].
        pose proof (Hold zm Hzm). lia.
      - rewrite lookup_insert_ne by done. exists zu, zm. done. }
    destruct Hcore as [H1 H2 H3 H4 H5 H6 H7].
    split; [| split; [done | split; [done | split]]].
    + split; simpl.
      * by apply (heappush_is_heap _ pyint_item_lt_strict_weak).
      * rewrite lookup_insert_ne; done.
      * intros x z. destruct (decide (n = x)) as [-> | Hne].
        -- rewrite lookup_insert_eq. intros [= <-]. eauto.
        -- rewrite lookup_insert_ne by done. apply H3.
      * intros p x Hin. rewrite heappush_Permutation in Hin.
        apply elem_of_cons in Hin as [[= -> ->] | Hin].
        -- exists (zv + tc n), (zv + tc n). rewrite lookup_insert_eq.
           split; [done |]. split; [done | lia].
        -- destruct (H4 p x Hin) as (q & z & -> & Hz & Hle).
           destruct (decide (n = x)) as [-> | Hne].
           ++ exists q, (zv + tc x). rewrite lookup_insert_eq.
              split; [done |]. split; [done |]. pose proof (Hold z Hz). lia.
           ++ exists q, z. rewrite lookup_insert_ne; done.
      * intros x z Hx Hxc. rewrite heappush_Permutation.
        destruct (decide (n = x)) as [-> | Hne].
        -- rewrite lookup_insert_eq in Hx. injection Hx as <-. apply list_elem_of_here.
        -- rewrite lookup_insert_ne in Hx by done. apply list_elem_of_further. by apply H5.
      * intros u Hu. assert (u ≠ n) by (intros ->; done).
        rewrite lookup_insert_ne by done. by apply H6.
      * intros c p Hcp Hcs. destruct (decide (n = c)) as [-> | Hne].
        -- rewrite lookup_insert_eq in Hcp. injection Hcp as <-.
           repeat split; try done. exists zv.
           rewrite lookup_insert_ne, lookup_insert_eq by done. done.
        -- rewrite lookup_insert_ne in Hcp by done.
           destruct (H7 c p Hcp Hcs) as (Ha & Hb & Hd & zp & Hzp & Hzc).
           repeat split; try done. exists zp.
           assert (n ≠ p) by (intros ->; done).
           rewrite !lookup_insert_ne by done. done.
    + intros u m Hu Huv Hm. apply Hrelaxed; [done |]. by apply Hrel.
    + intros m [Hm | ->%list_elem_of_singleton]%elem_of_app.
      * apply Hrelaxed; [done |]. by apply Hdone.
      * intros _. simpl. exists zv, (zv + tc n).
        rewrite lookup_insert_ne, lookup_insert_eq by done. split; [done |].
        split; [done | lia].
Qed.

Lemma dij_mid_inv (v : coord) (st : state pyint) :
  v ≠ s_goal →
  dij_mid obs terrain_cost s_start s_goal v (get_neighbor motions4 v) st →
  dij_inv obs terrain_cost s_start s_goal st.
Proof.
  intros Hvg (Hcore & Hv & Hgoal & Hrel & Hdone). split; [done |]. split.
  - intros Hin. destruct (decide (s_goal = v)) as [-> | Hne]; [done |].
    by apply (Hgoal s_goal Hin).
  - intros u n Hu Hn. destruct (decide (u = v)) as [-> | Hne]; [by apply Hdone |].
    by apply Hrel.
Qed.

Lemma search_loop_dij (fuel : nat) (st st' : state pyint) :
  dij_inv obs terrain_cost s_start s_goal st →
  search_loop motions4 s_goal cost Dijkstra.priority fuel st = Ok st' →
  last (CLOSED st') = Some s_goal →
  dij_mid obs terrain_cost s_start s_goal s_goal [] st'.
Proof.
  revert st. induction fuel as [| fuel IH]; intros st Hinv Hrun Hlast;
    cbn [search_loop] in Hrun.
  - destruct (OPEN st); [| done]. injection Hrun as <-.
    destruct Hinv as (_ & Hg & _). exfalso. apply Hg.
    apply last_Some in Hlast as [l ->]. apply elem_of_app. right. apply list_elem_of_here.
  - destruct (OPEN st) as [| e0 rest] eqn:Hopen.
    { injection Hrun as <-. destruct Hinv as (_ & Hg & _). exfalso. apply Hg.
      apply last_Some in Hlast as [l ->]. apply elem_of_app. right.
      apply list_elem_of_here. }
    rewrite <- Hopen in Hrun.
    apply bind_Ok in Hrun as ([[p v] open'] & Hpop & Hrun). cbn [snd] in Hrun.
    pose proof (pop_dij st p v open' Hinv Hpop) as Hmid.
    destruct (bool_decide (v = s_goal)) eqn:Hgoal.
    + apply bool_decide_eq_true in Hgoal as ->. injection Hrun as <-. done.
    + apply bool_decide_eq_false in Hgoal.
      apply bind_Ok in Hrun as (st2 & Hfor & Hrun).
      apply (IH st2); [| done | done].
      apply (dij_mid_inv v); [done |].
      refine (for_each_prefix _ (fun done st0 => dij_mid obs terrain_cost s_start s_goal
                                                   v done st0) _ _ [] _ _ Hmid Hfor).
      intros done n st0 st1 Hm Hn Hr. eapply relax_dij; eauto.
Qed.

Lemma init_dij_inv :
  s_start ≠ s_goal →
  dij_inv obs terrain_cost s_start s_goal (init_state s_start s_goal (Int 0)).
Proof.
  intros Hne.
  assert (Hg : ∀ v z, (<[s_goal := Inf]> {[s_start := Int 0]} : gmap coord pyint) !! v
                      = Some (Int z) → v = s_start ∧ z = 0).
  { intros v z. destruct (decide (s_goal = v)) as [-> | Hv].
    - rewrite lookup_insert_eq. done.
    - rewrite lookup_insert_ne by done. intros [-> [= <-]]%lookup_singleton_Some. done. }
  split; [| split].
  - split; simpl.
    + apply (init_is_heap s_start s_goal pyint_item_lt_strict_weak (Int 0)).
    + rewrite lookup_insert_ne, lookup_singleton_eq; done.
    + intros v z [-> ->]%Hg. exists [s_start]. split; [apply walk_singleton | done].
    + intros p v [= -> ->]%list_elem_of_singleton. exists 0, 0.
      rewrite lookup_insert_ne, lookup_singleton_eq by done. done.
    + intros v z [-> ->]%Hg _. apply list_elem_of_here.
    + intros u Hu. by apply not_elem_of_nil in Hu.
    + intros c p [-> _]%lookup_singleton_Some Hc. done.
  - simpl. apply not_elem_of_nil.
  - simpl. intros u n Hu. by apply not_elem_of_nil in Hu.
Qed.
End Dijkstra_facts.

Section Dijkstra_path.
Variable obs : gset coord.
Variable terrain_cost : gmap coord Z.
Variables s_start s_goal : coord.

(** Along the list [extract_path] builds, read from the start, the costs of
    the moves add up to the cost of its first node. *)
Lemma chain_cost (st : state pyint) (path : list coord) (a : coord) :
  dij_core obs terrain_cost s_start st →
  head path = Some a → last path = Some s_start →
  parent_chain s_start (PARENT st) path →
  ∃ za, g st !! a = Some (Int za)
    ∧ route_cost (Dijkstra.cost (N:=pyint) obs terrain_cost) (reverse path) = Int za.
Proof.
  intros Hcore. revert a. induction path as [| x path IH]; intros a Hhd Hlast Hchain;
    [done |].
  injection Hhd as ->. destruct path as [| b rest].
  - injection Hlast as ->. exists 0. split; [apply Hcore | done].
  - destruct (Hchain 0%nat a b eq_refl eq_refl) as [Hpar Hne].
    destruct (dij_parent _ _ _ _ Hcore a b Hpar Hne) as (_ & _ & Hfree & zb & Hzb & Hza).
    destruct (IH b eq_refl Hlast) as (zb' & Hzb' & Hcost).
    { intros i u w Hu Hw. apply (Hchain (S i)); done. }
    rewrite Hzb in Hzb'. injection Hzb' as <-.
    exists (zb + get_terrain_cost terrain_cost a). split; [done |].
    rewrite (reverse_cons (b :: rest) a).
    rewrite (route_cost_snoc _ _ b a); [| by rewrite last_reverse].
    rewrite Hcost. unfold Dijkstra.cost. rewrite Hfree. done.
Qed.
End Dijkstra_path.

(** [Dijkstra] finds a cheapest path.  Over terrain multipliers of at least
    1 (the constructor builds them between 2 and 5, 1 by default), with the
    start different from the goal: when the goal has been popped,
    [searching] returns; the returned path, reversed, is a walk of the four
    directions from the start to the goal; the costs of its moves add up to
    [g] of the goal; and no walk of the four directions from the start to
    the goal costs less, a walk through a blocked move costing [inf]. *)
Theorem Dijkstra_path_optimal (obs : gset coord) (terrain_cost : gmap coord Z)
    (s_start s_goal : coord) (fuel : nat) (st : state pyint) :
  (∀ c t, terrain_cost !! c = Some t → 1 ≤ t) →
  s_start ≠ s_goal →
  Dijkstra.search (N:=pyint) obs terrain_cost s_start s_goal fuel = Ok st →
  last (CLOSED st) = Some s_goal →
  ∃ path z,
    Dijkstra.searching (N:=pyint) obs terrain_cost s_start s_goal fuel
    = Ok (path, CLOSED st)
    ∧ g st !! s_goal = Some (Int z)
    ∧ walk motions4 s_start s_goal (reverse path)
    ∧ route_cost (Dijkstra.cost (N:=pyint) obs terrain_cost) (reverse path) = Int z
    ∧ ∀ route, walk motions4 s_start s_goal route →
        pyint_lt (route_cost (Dijkstra.cost (N:=pyint) obs terrain_cost) route) (Int z)
        = false.
Proof.
  intros Hpos Hne Hrun Hlast. unfold Dijkstra.searching. rewrite Hrun. simpl.
  unfold Dijkstra.search in Hrun.
  pose proof (search_loop_dij obs terrain_cost s_start s_goal Hpos fuel _ st
                (init_dij_inv obs terrain_cost s_start s_goal Hne) Hrun Hlast)
    as (Hcore & Hgc & _).
  assert (Htree : tree_inv obs motions4 s_start st).
  { eapply (search_loop_tree_inv obs motions4 s_start s_goal
              (Dijkstra.cost obs terrain_cost) Dijkstra.priority pyint_num_order
              (λ a b x y _, Dijkstra_cost_pos obs terrain_cost a b x y Hpos));
      [| exact Hrun].
    apply init_tree_inv; [apply pyint_num_order | done]. }
  apply search_loop_closed_length in Hrun. simpl in Hrun.
  destruct (extract_path_loop_total obs motions4 s_start pyint_num_order st fuel Htree
              [s_goal] s_goal)
    as (path & Hpath & [rest Hrest] & Hend & Hnd & Hchain).
  - done.
  - done.
  - apply (tree_closed _ _ _ _ Htree). done.
  - apply NoDup_singleton.
  - intros c ->%list_elem_of_singleton. done.
  - intros c ->%list_elem_of_singleton. by left.
  - intros i a b Ha Hb. destruct i; done.
  - simpl. lia.
  - destruct (chain_cost obs terrain_cost s_start st path s_goal Hcore)
      as (z & Hz & Hcost); [by rewrite Hrest | done | done |].
    exists path, z. unfold finish, extract_path. rewrite Hpath. simpl.
    split; [done |]. split; [done |]. split; [| split; [done |]].
    + destruct (parent_chain_valid_route obs motions4 s_start s_goal st path rest Htree
                  Hrest Hend Hnd Hchain) as (H1 & H2 & _ & H4).
      split; [done |]. split; [done |]. intros i x y Hx Hy. by apply (H4 i).
    + intros route Hwalk.
      destruct (dij_closed _ _ _ _ Hcore s_goal Hgc) as (z' & Hz' & Hcheap).
      rewrite Hz in Hz'. injection Hz' as <-.
      destruct (route_cost _ route) as [w |] eqn:Hw; [| done].
      simpl. apply Z.ltb_ge. eapply Hcheap; eauto.
Qed.

Lemma Dijkstra_path_optimal_witness :
  ∃ path z,
    Dijkstra.searching (N:=pyint) {[ (1, 0) ]} {[ (0, 1) := 2 ]} (0, 0) (1, 1) 40
    = Ok (path, [(0, 0); (-1, 0); (0, -1); (-2, 0); (-1, -1); (-1, 1); (0, -2); (0, 1);
                 (1, -1); (-3, 0); (-2, -1); (-2, 1); (-1, -2); (-1, 2); (0, -3); (0, 2);
                 (1, -2); (1, 1)])
    ∧ route_cost (Dijkstra.cost (N:=pyint) {[ (1, 0) ]} {[ (0, 1) := 2 ]}) (reverse path)
      = Int z
    ∧ pyint_lt (route_cost (Dijkstra.cost (N:=pyint) {[ (1, 0) ]} {[ (0, 1) := 2 ]})
                  [(0, 0); (0, -1); (1, -1); (2, -1); (2, 0); (2, 1); (1, 1)]) (Int z)
      = false.
Proof.
  assert (∃ st, Dijkstra.search (N:=pyint) {[ (1, 0) ]} {[ (0, 1) := 2 ]} (0, 0) (1, 1) 40
                = Ok st
                ∧ CLOSED st
                  = [(0, 0); (-1, 0); (0, -1); (-2, 0); (-1, -1); (-1, 1); (0, -2); (0, 1);
                     (1, -1); (-3, 0); (-2, -1); (-2, 1); (-1, -2); (-1, 2); (0, -3);
                     (0, 2); (1, -2); (1, 1)])
    as (st & Hrun & Hcl) by (eexists; split; vm_compute; reflexivity).
  assert (Hpos : ∀ c t, ({[ (0, 1) := 2 ]} : gmap coord Z) !! c = Some t → 1 ≤ t).
  { intros c t [_ <-]%lookup_singleton_Some. lia. }
  assert (Hne : ((0, 0) : coord) ≠ (1, 1)) by discriminate.
  destruct (Dijkstra_path_optimal {[ (1, 0) ]} {[ (0, 1) := 2 ]} (0, 0) (1, 1) 40 st
              Hpos Hne Hrun) as (path & z & Hp & _ & _ & Hcost & Hopt).
  { rewrite Hcl. reflexivity. }
  exists path, z. rewrite <- Hcl. split; [exact Hp |]. split; [exact Hcost |].
  apply Hopt. split; [reflexivity |]. split; [reflexivity |].
  intros i x y Hx Hy.
  do 6 (destruct i as [| i];
        [simpl in Hx, Hy; injection Hx as <-; injection Hy as <-;
         repeat first [apply list_elem_of_here | apply list_elem_of_further] |]).
  simpl in Hy. destruct i; done.
Defined.

(** ** The cost of a move of [AStar] on doubles *)

(** Over a multiplier between 1 and 5, for the eight moves of [AStar]:
    a blocked move costs [inf]; a free move has a cost below [inf] that is
    not below the multiplier; an axis move costs exactly the multiplier, a
    diagonal move strictly more (the rounded product with the square root
    of 2). *)
Theorem AStar_cost_of_move (obs : gset coord) (terrain_cost : gmap coord Z)
    (a b : coord) :
  b ∈ get_neighbor motions8 a →
  1 ≤ get_terrain_cost terrain_cost b ≤ 5 →
  (is_collision obs a b = true →
   AStar.cost (N:=float) obs terrain_cost a b = infinity)
  ∧ (is_collision obs a b = false →
     PrimFloat.ltb (AStar.cost (N:=float) obs terrain_cost a b) infinity = true
     ∧ PrimFloat.leb (float_of_Z (get_terrain_cost terrain_cost b))
         (AStar.cost (N:=float) obs terrain_cost a b) = true
     ∧ (b.1 = a.1 ∨ b.2 = a.2 →
        AStar.cost (N:=float) obs terrain_cost a b
        = float_of_Z (get_terrain_cost terrain_cost b))
     ∧ (b.1 ≠ a.1 → b.2 ≠ a.2 →
        PrimFloat.ltb (float_of_Z (get_terrain_cost terrain_cost b))
          (AStar.cost (N:=float) obs terrain_cost a b) = true)).
Proof.
  intros Hnb Ht. apply get_neighbor_offset in Hnb.
  unfold AStar.cost. split; [intros ->; reflexivity |]. intros ->.
  set (t := get_terrain_cost terrain_cost b) in *.
  set (dx := b.1 - a.1) in *. set (dy := b.2 - a.2) in *.
  assert (Hx : b.1 = a.1 ↔ dx = 0) by (unfold dx; lia).
  assert (Hy : b.2 = a.2 ↔ dy = 0) by (unfold dy; lia).
  rewrite Hx, Hy. clearbody dx dy t. clear Hx Hy.
  assert (t = 1 ∨ t = 2 ∨ t = 3 ∨ t = 4 ∨ t = 5) as Hcases by lia.
  unfold motions8 in Hnb.
  repeat (apply elem_of_cons in Hnb as [[= -> ->] | Hnb]);
    [.. | by apply not_elem_of_nil in Hnb];
    destruct Hcases as [-> | [-> | [-> | [-> | ->]]]];
    (split; [vm_compute; reflexivity |]);
    (split; [vm_compute; reflexivity |]);
    (split; [intros [H | H]; try discriminate H; vm_compute; reflexivity |]);
    intros H1 H2; try (exfalso; by (apply H1 || apply H2)); vm_compute; reflexivity.
Qed.

Lemma AStar_cost_of_move_witness :
  PrimFloat.ltb 3%float (AStar.cost (N:=float) ∅ {[ (1, 1) := 3 ]} (0, 0) (1, 1)) = true
  ∧ AStar.cost (N:=float) ∅ {[ (1, 0) := 4 ]} (0, 0) (1, 0) = 4%float.
Proof.
  split.
  - refine (proj2 (proj2 (proj2 (proj2 (AStar_cost_of_move ∅ {[ (1, 1) := 3 ]} (0, 0) (1, 1)
                                          _ _) _))) _ _).
    + unfold get_neighbor, motions8. simpl.
      repeat first [apply list_elem_of_here | apply list_elem_of_further].
    + vm_compute. split; discriminate.
    + vm_compute. reflexivity.
    + discriminate.
    + discriminate.
  - refine (proj1 (proj2 (proj2 (proj2 (AStar_cost_of_move ∅ {[ (1, 0) := 4 ]} (0, 0) (1, 0)
                                          _ _) _))) _).
    + unfold get_neighbor, motions8. simpl.
      repeat first [apply list_elem_of_here | apply list_elem_of_further].
    + vm_compute. split; discriminate.
    + vm_compute. reflexivity.
    + right. reflexivity.
Defined.

(** ** Repeated A* *)

Lemma repeated_searching_is_searching {N : Type} `{!Num N} `{!Metric N}
    (obs : gset coord) (terrain_cost : gmap coord Z) (s_start s_goal : coord)
    (heuristic_type : string) (u_set : list coord) (e : N) (fuel : nat) :
  Repeated.repeated_searching obs terrain_cost s_start s_goal heuristic_type u_set
    s_start s_goal e fuel
  = AStar.searching obs terrain_cost s_start s_goal heuristic_type e u_set fuel.
Proof.
  unfold Repeated.repeated_searching, AStar.searching, AStar.search, AStar.f_value, finish.
  destruct (getitem _ s_start) as [gs | |]; reflexivity.
Qed.

Section Repeated_facts.
Variable obs : gset coord.
Variable terrain_cost : gmap coord Z.
Variables s_start s_goal : coord.
Variable heuristic_type : string.
Variable u_set : list coord.

Local Abbreviation loop :=
  (Repeated.searching_repeated_astar_loop obs terrain_cost s_start s_goal heuristic_type
     u_set).

Lemma repeated_loop_acc (rounds fuel : nat) (e : float) (path visited : list (list coord)) :
  loop rounds fuel e path visited
  = '(ps, vs) ← loop rounds fuel e [] []; Ok (path ++ ps, visited ++ vs).
Proof.
  revert e path visited. induction rounds as [| rounds IH]; intros e path visited;
    cbn [Repeated.searching_repeated_astar_loop];
    (destruct (PrimFloat.leb 1 e); [| simpl; by rewrite !app_nil_r]); [done |].
  destruct (Repeated.repeated_searching _ _ _ _ _ _ _ _ _ _) as [[p v] | |]; simpl;
    try done.
  rewrite (IH _ (path ++ [p]) (visited ++ [v])), (IH _ ([] ++ [p]) ([] ++ [v])).
  destruct (loop rounds fuel _ [] []) as [[ps vs] | |]; simpl; try done.
  by rewrite <- !app_assoc.
Qed.

Lemma repeated_loop_inf (rounds fuel : nat) (path visited : list (list coord))
    (r : list (list coord) * list (list coord)) :
  loop rounds fuel infinity path visited ≠ Ok r.
Proof.
  revert path visited. induction rounds as [| rounds IH]; intros path visited;
    cbn [Repeated.searching_repeated_astar_loop];
    change (PrimFloat.leb 1 infinity) with true; cbn beta iota; [done |].
  destruct (Repeated.repeated_searching _ _ _ _ _ _ _ _ _ _) as [[p v] | |];
    cbn [mbind result_bind]; [| done | done].
  change (PrimFloat.sub infinity 0.5) with infinity. apply IH.
Qed.

Lemma repeated_loop_lengths (rounds fuel : nat) (e : float)
    (path visited ps vs : list (list coord)) :
  loop rounds fuel e path visited = Ok (ps, vs) →
  length path = length visited → length ps = length vs.
Proof.
  revert e path visited. induction rounds as [| rounds IH]; intros e path visited;
    cbn [Repeated.searching_repeated_astar_loop];
    (destruct (PrimFloat.leb 1 e); [| intros [= <- <-]; done]); [done |].
  destruct (Repeated.repeated_searching _ _ _ _ _ _ _ _ _ _) as [[p v] | |]; simpl;
    try done.
  intros Hrun Hlen. eapply IH; [exact Hrun |]. rewrite !length_app. simpl. lia.
Qed.
End Repeated_facts.

(** [searching_repeated_astar] is [searching] run again and again.  With a
    weight that is not at least 1, [nan] included, it returns two empty
    lists without searching.  Otherwise its first path and trace are what
    [searching] returns for the weight [e] on an object whose lists and
    dictionaries are fresh, whatever the state of the object at hand, and the
    rest is what the method returns for [e - 0.5]; an exception of a search
    ends the whole call.  The two lists returned have the same length.  With
    the weight [inf] the loop never ends, [inf - 0.5] being [inf]. *)
Theorem searching_repeated_astar_unrolls (obs : gset coord)
    (terrain_cost : gmap coord Z) (s_start s_goal : coord) (heuristic_type : string)
    (u_set : list coord) (fuel : nat) :
  (∀ rounds e,
     Repeated.searching_repeated_astar obs terrain_cost s_start s_goal heuristic_type
       u_set rounds fuel e
     = if PrimFloat.leb 1 e then
         match rounds with
         | O => NoFuel
         | S rounds' =>
             '(p, v) ← AStar.searching (N:=float) obs terrain_cost s_start s_goal
                         heuristic_type e u_set fuel;
             '(ps, vs) ← Repeated.searching_repeated_astar obs terrain_cost s_start
                           s_goal heuristic_type u_set rounds' fuel
                           (PrimFloat.sub e 0.5);
             Ok (p :: ps, v :: vs)
         end
       else Ok ([], []))
  ∧ (∀ rounds e ps vs,
       Repeated.searching_repeated_astar obs terrain_cost s_start s_goal heuristic_type
         u_set rounds fuel e = Ok (ps, vs) → length ps = length vs)
  ∧ (∀ rounds r,
       Repeated.searching_repeated_astar obs terrain_cost s_start s_goal heuristic_type
         u_set rounds fuel infinity ≠ Ok r).
Proof.
  split; [| split].
  - intros rounds e. unfold Repeated.searching_repeated_astar.
    destruct rounds as [| rounds]; cbn [Repeated.searching_repeated_astar_loop];
      [done |].
    destruct (PrimFloat.leb 1 e); [| done].
    rewrite repeated_searching_is_searching.
    destruct (AStar.searching _ _ _ _ _ _ _ _) as [[p v] | |]; simpl; try done.
    apply repeated_loop_acc.
  - intros rounds e ps vs Hrun. eapply repeated_loop_lengths; [exact Hrun | done].
  - intros rounds r. apply repeated_loop_inf.
Qed.

(** [repeated_searching] searches from the start and to the goal it is
    given, but extracts the path with the start and the goal of the object.
    When it returns, the trace begins with the start given and ends with the
    goal given, unless [OPEN] was emptied without popping it; the path
    begins with the goal of the object and ends with the start of the
    object, whatever the arguments are. *)
Theorem repeated_searching_ends {N : Type} `{!Num N} `{!Metric N} (obs : gset coord)
    (terrain_cost : gmap coord Z) (s_start s_goal : coord) (heuristic_type : string)
    (u_set : list coord) (a b : coord) (e : N) (fuel : nat)
    (path closed : list coord) :
  Repeated.repeated_searching obs terrain_cost s_start s_goal heuristic_type u_set
    a b e fuel = Ok (path, closed) →
  head closed = Some a
  ∧ (last closed = Some b ∨ b ∉ closed)
  ∧ head path = Some s_goal ∧ last path = Some s_start
  ∧ ∀ (i : nat) x y, path !! i = Some x → path !! S i = Some y → x ∈ closed ∨ x = s_goal.
Proof.
  unfold Repeated.repeated_searching. intros Hrun.
  apply bind_Ok in Hrun as (gs & _ & Hrun).
  apply bind_Ok in Hrun as (st & Hst & Hrun).
  apply bind_Ok in Hrun as (path' & Hpath & [= <- <-]).
  assert (Hprio : ∀ (st0 : state N) new_cost s_n, g st0 !! s_n = Some new_cost →
            ∃ p, Repeated.priority s_goal heuristic_type e st0 new_cost s_n = Ok p).
  { intros st0 new_cost s_n Hg. unfold Repeated.priority, getitem. rewrite Hg. simpl. eauto. }
  destruct (search_loop_ends u_set a b _ _ _ fuel st Hst) as [Hhd Hlast].
  pose proof (search_loop_known_inv u_set b _ _ Hprio fuel _ st (init_known_inv a b _) Hst)
    as [Hnode Hpar].
  unfold extract_path in Hpath.
  apply extract_path_loop_shape in Hpath as (rest & -> & Hrest & Hchain & _).
  split; [done |]. split; [destruct Hlast as [[_ H] | H]; auto |].
  split; [done |]. split; [destruct rest; [done | exact Hrest] |].
  intros i x y Hx Hy. destruct i as [| i]; [right; by injection Hx as <- |].
  left. simpl in Hx.
  assert (∃ w, (s_goal :: rest) !! i = Some w) as [w Hw].
  { apply lookup_lt_is_Some_2. apply lookup_lt_Some in Hx. simpl. lia. }
  pose proof (Hchain i w x Hw Hx) as Hwx.
  destruct (decide (x ∈ CLOSED st)) as [Hin | Hnin]; [done |]. exfalso.
  (* a parent is the start given or a popped node *)
  assert (Hparents : ∀ c q, PARENT st !! c = Some q → q = a ∨ q ∈ CLOSED st).
  { clear -Hst. revert Hst.
    generalize (n_add gs (n_mul e (AStar.heuristic s_goal heuristic_type a))). intros p0 Hst.
    eapply (search_loop_invariant u_set b (AStar.cost obs terrain_cost)
              (Repeated.priority s_goal heuristic_type e)
              (fun st0 => ∀ c q, PARENT st0 !! c = Some q → q = a ∨ q ∈ CLOSED st0)
              (fun s st0 => s ∈ CLOSED st0
                 ∧ ∀ c q, PARENT st0 !! c = Some q → q = a ∨ q ∈ CLOSED st0));
      [| | | | exact Hst].
    - intros st0 p s open' Hinv _. simpl. split.
      + apply elem_of_app. right. apply list_elem_of_here.
      + intros c q Hcq. destruct (Hinv c q Hcq); [by left | right].
        apply elem_of_app. by left.
    - intros s st0 s_n st1 [Hs Hinv] _ Hrelax.
      apply relax_Ok in Hrelax as (gs' & _ & [[_ ->] | [_ (p & ->)]]); [done |].
      simpl. split; [done |]. intros c q.
      destruct (decide (s_n = c)) as [-> | Hne].
      + rewrite lookup_insert_eq. intros [= <-]. by right.
      + rewrite lookup_insert_ne by done. apply Hinv.
    - intros s st0 [_ Hinv]. done.
    - simpl. intros c q [_ <-]%lookup_singleton_Some. by left. }
  destruct (Hparents w x Hwx) as [-> | Hin]; [| done].
  apply Hnin. destruct (CLOSED st) as [| c0 cl]; [done |].
  injection Hhd as ->. apply list_elem_of_here.
Qed.

Lemma repeated_searching_ends_witness :
  ∃ path closed,
    Repeated.repeated_searching (N:=pyint) ∅ ∅ (0, 0) (1, 0) "manhattan" motions4
      (0, 0) (2, 0) (Int 1) 10 = Ok (path, closed)
    ∧ head closed = Some (0, 0) ∧ last closed = Some (2, 0)
    ∧ head path = Some (1, 0) ∧ last path = Some (0, 0).
Proof.
  assert (∃ path closed,
            Repeated.repeated_searching (N:=pyint) ∅ ∅ (0, 0) (1, 0) "manhattan" motions4
              (0, 0) (2, 0) (Int 1) 10 = Ok (path, closed)
            ∧ last closed = Some (2, 0)) as (path & closed & Hrun & Hlast)
    by (eexists _, _; split; vm_compute; reflexivity).
  destruct (repeated_searching_ends (N:=pyint) ∅ ∅ (0, 0) (1, 0) "manhattan" motions4
              (0, 0) (2, 0) (Int 1) 10 path closed Hrun) as (H1 & _ & H2 & H3 & _).
  exists path, closed. exact (conj Hrun (conj H1 (conj Hlast (conj H2 H3)))).
Defined.

(** ** The animation of a run *)

Lemma remove_head (x : coord) (l : list coord) : Plotting.remove x (x :: l) = l.
Proof. simpl. by rewrite bool_decide_eq_true_2. Qed.

Lemma remove_absent (x : coord) (l : list coord) : x ∉ l → Plotting.remove x l = l.
Proof.
  induction l as [| y l IH]; intros Hx; simpl; [done |].
  apply not_elem_of_cons in Hx as [Hne Hx].
  rewrite bool_decide_eq_false_2 by done. by rewrite IH.
Qed.

Lemma remove_last (x : coord) (l : list coord) :
  x ∉ l → Plotting.remove x (l ++ [x]) = l.
Proof.
  induction l as [| y l IH]; intros Hx; simpl.
  - by rewrite bool_decide_eq_true_2.
  - apply not_elem_of_cons in Hx as [Hne Hx].
    rewrite bool_decide_eq_false_2 by done. by rewrite IH.
Qed.

Lemma for_loop_plot_visited_node {N : Type} (to_int : N → Plotting.outcome Z)
    (cl : string) (d : gmap coord N) (label : coord → Z) (l : list coord)
    (fig : list Plotting.artist) :
  (∀ x, x ∈ l → ∃ v, d !! x = Some v ∧ to_int v = Plotting.Returns (label x)) →
  Plotting.for_loop (Plotting.plot_visited_node to_int cl (Some d)) l fig
  = Plotting.Returns
      (fig ++ flat_map (fun x : coord =>
                          [Plotting.Marker x.1 x.2 cl; Plotting.Text x.1 x.2 (label x)]) l).
Proof.
  revert fig. induction l as [| x l IH]; intros fig Hl; simpl.
  - by rewrite app_nil_r.
  - destruct (Hl x (list_elem_of_here _ _)) as (v & Hv & Hint).
    unfold Plotting.plot_visited_node at 1. rewrite Hv, Hint. simpl.
    rewrite IH by (intros y Hy; apply Hl; by apply list_elem_of_further).
    by rewrite <- !app_assoc.
Qed.

Section Goal_once.
Context {N : Type} `{!Num N}.
Variable u_set : list coord.
Variables s_start s_goal : coord.
Variable cost : coord → coord → N.
Variable priority : state N → N → coord → result N.

(** The goal is popped once. *)
Lemma search_loop_goal_once (fuel : nat) (st st' : state N) :
  s_goal ∉ CLOSED st →
  search_loop u_set s_goal cost priority fuel st = Ok st' →
  last (CLOSED st') = Some s_goal →
  ∃ l, CLOSED st' = l ++ [s_goal] ∧ s_goal ∉ l.
Proof.
  assert (Hno : ∀ st0 : state N, s_goal ∉ CLOSED st0 → last (CLOSED st0) ≠ Some s_goal).
  { intros st0 Hg Hl. apply Hg. destruct (CLOSED st0) as [| c l] using rev_ind; [done |].
    rewrite last_snoc in Hl. injection Hl as ->.
    apply elem_of_app. right. apply list_elem_of_here. }
  revert st. induction fuel as [| fuel IH]; intros st Hg Hrun Hlast; simpl in Hrun.
  - destruct (OPEN st) eqn:Hopen; [| done]. injection Hrun as <-. by apply Hno in Hlast.
  - destruct (OPEN st) as [| e0 rest] eqn:Hopen;
      [injection Hrun as <-; by apply Hno in Hlast |].
    rewrite <- Hopen in Hrun.
    apply bind_Ok in Hrun as ([item open'] & Hpop & Hrun). simpl in Hrun.
    destruct (bool_decide (item.2 = s_goal)) eqn:Hgoal.
    + apply bool_decide_eq_true in Hgoal. injection Hrun as <-. simpl.
      exists (CLOSED st). by rewrite Hgoal.
    + apply bool_decide_eq_false in Hgoal.
      apply bind_Ok in Hrun as (st2 & Hfor & Hrun).
      apply (IH st2); [| done | done].
      rewrite (for_each_CLOSED cost priority _ _ _ _ Hfor). simpl.
      intros [Hin | ->%list_elem_of_singleton]%elem_of_app; done.
Qed.
End Goal_once.

Section Animation_facts.
Variable u_set : list coord.
Variables s_start s_goal : coord.
Variable cost : coord → coord → pyint.
Variable priority : state pyint → pyint → coord → result pyint.
Variable search : nat → result (state pyint).

Hypothesis priority_ok : ∀ st new_cost s_n,
  g st !! s_n = Some new_cost → ∃ p, priority st new_cost s_n = Ok p.
Hypothesis search_loop_eq : ∀ fuel, ∃ p0,
  search fuel = search_loop u_set s_goal cost priority fuel (init_state s_start s_goal p0).

Lemma animation_labels_trace_intro :
  s_start ≠ s_goal →
  animation_labels_trace s_start s_goal search
    (fun fuel => st ← search fuel; finish s_start s_goal fuel st).
Proof.
  intros Hne fuel st path closed obs name terrain_colors Hst Hrun.
  rewrite Hst in Hrun. simpl in Hrun.
  assert (Hfin : visited_costs_finite search)
    by (eapply visited_costs_finite_intro;
          [apply pyint_num_inf | exact priority_ok | exact Hne | exact search_loop_eq]).
  specialize (Hfin fuel st Hst).
  destruct (search_loop_eq fuel) as [p0 Heq]. rewrite Heq in Hst.
  destruct (finish_ends u_set s_start s_goal cost priority priority_ok p0 fuel st Hst)
    as (Hends & _ & _).
  assert (Hcl : closed = CLOSED st).
  { unfold finish in Hrun. apply bind_Ok in Hrun as (p & _ & [= _ <-]). done. }
  destruct (Hends path closed Hrun) as (Hhd & Hlast & _). subst closed.
  destruct (search_loop_goal_once u_set s_goal cost priority fuel
              (init_state s_start s_goal p0) st (not_elem_of_nil s_goal) Hst Hlast)
    as (l & Hl & Hgl).
  destruct l as [| c mid].
  { rewrite Hl in Hhd. simpl in Hhd. congruence. }
  rewrite Hl in Hhd. simpl in Hhd. injection Hhd as ->.
  apply not_elem_of_cons in Hgl as [_ Hgl].
  set (label := fun x : coord =>
                  match g st !! x with Some (Int z) => z | _ => 0 end).
  assert (Hlab : ∀ x, x ∈ mid → g st !! x = Some (Int (label x))).
  { intros x Hx. destruct (Hfin x) as (v & Hv & Hlt).
    - rewrite Hl. apply list_elem_of_further, elem_of_app. by left.
    - unfold label. rewrite Hv. by destruct v. }
  exists mid, label. split; [exact Hl |]. split; [exact Hlab |].
  unfold Plotting.animation, Plotting.plot_visited.
  rewrite Hl, <- app_comm_cons, remove_head, remove_last by done.
  rewrite (for_loop_plot_visited_node Plotting.pyint_int "gray" (g st) label mid []).
  - simpl. do 3 f_equal. by destruct terrain_colors as [[| item items] |].
  - intros x Hx. exists (Int (label x)). split; [by apply Hlab | done].
Qed.
End Animation_facts.

(** [main] of [Standard_BFS.py] and [main] of [Standard_Dijkstra.py] hand
    the result of [searching] and the costs [g] to [animation].  When the
    start is not the goal and [searching] has returned, [animation] returns
    as well: [int] never meets [inf] in a circle.  The caller's list
    [visited] is left without its first node, the start, and its last node,
    the goal, and each of the nodes between them is drawn once, in the order
    of the trace, as a gray circle with its cost. *)
Theorem animation_of_search (obs : gset coord) (terrain_cost : gmap coord Z)
    (s_start s_goal : coord) :
  s_start ≠ s_goal →
  animation_labels_trace s_start s_goal
    (BFS.search obs s_start s_goal) (BFS.searching obs s_start s_goal)
  ∧ animation_labels_trace s_start s_goal
      (Dijkstra.search (N:=pyint) obs terrain_cost s_start s_goal)
      (Dijkstra.searching (N:=pyint) obs terrain_cost s_start s_goal).
Proof.
  intros Hne. split.
  - eapply animation_labels_trace_intro; [| intros fuel; eexists; reflexivity | exact Hne].
    intros st new_cost s_n _. apply BFS_prior_ok.
  - eapply animation_labels_trace_intro; [| intros fuel; eexists; reflexivity | exact Hne].
    intros st new_cost s_n _. eexists. reflexivity.
Qed.

Lemma animation_of_search_witness :
  ∃ st path mid fig,
    BFS.search ∅ (0, 0) (1, 0) 6 = Ok st
    ∧ BFS.searching ∅ (0, 0) (1, 0) 6 = Ok (path, (0, 0) :: mid ++ [(1, 0)])
    ∧ Plotting.animation Plotting.pyint_int (0, 0) (1, 0) [] path
        ((0, 0) :: mid ++ [(1, 0)]) "BFS" (Some (g st)) None
      = Plotting.Returns (mid, fig).
Proof.
  assert (∃ st path closed, BFS.search ∅ (0, 0) (1, 0) 6 = Ok st
            ∧ BFS.searching ∅ (0, 0) (1, 0) 6 = Ok (path, closed))
    as (st & path & closed & Hst & Hrun) by (eexists _, _, _; split; vm_compute; reflexivity).
  assert (Hne : ((0, 0) : coord) ≠ (1, 0)) by discriminate.
  destruct (proj1 (animation_of_search ∅ ∅ (0, 0) (1, 0) Hne) 6%nat st path closed []
              "BFS"%string None Hst Hrun) as (mid & label & Hcl & _ & Hanim).
  rewrite Hcl in Hrun, Hanim. eauto 10.
Defined.

(** ** The animation of a depth-first run *)

Lemma filter_ne_absent (x : coord) (l : list coord) :
  x ∉ l → filter (fun y => y ≠ x) l = l.
Proof.
  induction l as [| y l IH]; intros Hx; [done |].
  apply not_elem_of_cons in Hx as [Hne Hx].
  rewrite filter_cons_True by done. by rewrite IH.
Qed.

Lemma dict_fromkeys_NoDup (l : list coord) : NoDup l → dict_fromkeys l = l.
Proof.
  induction l as [| x l IH]; intros Hnd; simpl; [done |].
  apply NoDup_cons in Hnd as [Hx Hnd]. rewrite IH by done. f_equal.
  by apply filter_ne_absent.
Qed.

(** [main] of [Standard_DFS.py] removes the repetitions from the trace
    before it hands it to [animation], with the depths [g].  The trace has
    none, so this step returns it as it is.  When
    the start is not the goal and [searching] has returned, [animation]
    returns, leaves the list without the start and the goal, and draws each
    node between them once with its depth. *)
Theorem DFS_animation (obs : gset coord) (s_start s_goal : coord) (fuel : nat)
    (st : DFS.dfs_state) (path closed : list coord) (obs_map : list coord)
    (name : string) :
  s_start ≠ s_goal →
  DFS.search obs s_start s_goal fuel = Ok st →
  DFS.searching obs s_start s_goal fuel = Ok (path, closed) →
  dict_fromkeys closed = closed
  ∧ ∃ mid, closed = s_start :: mid ++ [s_goal]
      ∧ (∀ x, x ∈ mid → is_Some (DFS.g st !! x))
      ∧ Plotting.animation Plotting.Returns s_start s_goal obs_map path
          (dict_fromkeys closed) name (Some (DFS.g st)) None
        = Plotting.Returns
            (mid,
             Plotting.plot_grid s_start s_goal obs_map name
             ++ flat_map (fun x : coord =>
                            [Plotting.Marker x.1 x.2 "gray";
                             Plotting.Text x.1 x.2 (default 0 (DFS.g st !! x))]) mid
             ++ Plotting.plot_path s_start s_goal path "r" false).
Proof.
  intros Hne Hst Hrun.
  destruct (dfs_search_result obs s_start s_goal fuel st Hst) as (Htree & Hinv & _ & Hend).
  unfold DFS.searching in Hrun. rewrite Hst in Hrun. simpl in Hrun.
  apply bind_Ok in Hrun as (p & Hp & [= -> <-]).
  assert (Hnd : NoDup (DFS.CLOSED st)).
  { pose proof (proj1 Hinv) as H. by apply NoDup_app in H as [H _]. }
  split; [by apply dict_fromkeys_NoDup |].
  rewrite dict_fromkeys_NoDup by done.
  destruct Hend as [[Hstack Hno] | Hlast].
  { exfalso. unfold extract_path in Hp.
    assert (Hg : DFS.PARENT st !! s_goal = None).
    { destruct (DFS.PARENT st !! s_goal) eqn:Hpg; [| done]. exfalso. apply Hno.
      assert (Hv : s_goal ∈ DFS.visited st) by (apply (dfs_parent _ _ _ Htree); eauto).
      apply (dfs_visited _ _ _ Htree) in Hv. by rewrite Hstack, app_nil_r in Hv. }
    destruct fuel; simpl in Hp; [done |].
    unfold getitem in Hp. by rewrite Hg in Hp. }
  destruct (DFS.CLOSED st) as [| c l] eqn:Hcl using rev_ind; [done |]. clear IHl.
  rewrite last_snoc in Hlast. injection Hlast as ->.
  assert (Hhd : head (l ++ [s_goal]) = Some s_start).
  { destruct (dfs_first _ _ _ Htree) as [[Hc _] | Hhd]; [| by rewrite Hcl in Hhd].
    rewrite Hcl in Hc. by destruct l. }
  destruct l as [| c mid]; simpl in Hhd; [congruence |]. injection Hhd as ->.
  apply NoDup_app in Hnd as (Hnd & Hdisj & _).
  assert (Hgm : s_goal ∉ mid).
  { intros Hin. apply (Hdisj s_goal); [by apply list_elem_of_further | apply list_elem_of_here]. }
  assert (Hlab : ∀ x, x ∈ mid → is_Some (DFS.g st !! x)).
  { intros x Hx.
    destruct (dfs_depth _ _ _ Htree x) as (z & Hz & _); [| by rewrite Hz; eauto].
    apply (dfs_visited _ _ _ Htree), elem_of_app. left. rewrite Hcl.
    apply list_elem_of_further, elem_of_app. by left. }
  exists mid. split; [done |]. split; [exact Hlab |].
  unfold Plotting.animation, Plotting.plot_visited.
  rewrite <- app_comm_cons, remove_head, remove_last by done.
  rewrite (for_loop_plot_visited_node Plotting.Returns "gray" (DFS.g st)
             (fun x => default 0 (DFS.g st !! x)) mid []).
  - done.
  - intros x Hx. destruct (Hlab x Hx) as [z Hz]. exists z. by rewrite Hz.
Qed.

Lemma DFS_animation_witness :
  ∃ st path mid fig,
    DFS.searching {[ (1, 1) ]} (0, 0) (2, 0) 3 = Ok (path, (0, 0) :: mid ++ [(2, 0)])
    ∧ Plotting.animation Plotting.Returns (0, 0) (2, 0) [(1, 1)] path
        (dict_fromkeys ((0, 0) :: mid ++ [(2, 0)])) "DFS" (Some (DFS.g st)) None
      = Plotting.Returns (mid, fig).
Proof.
  assert (∃ st path closed, DFS.search {[ (1, 1) ]} (0, 0) (2, 0) 3 = Ok st
            ∧ DFS.searching {[ (1, 1) ]} (0, 0) (2, 0) 3 = Ok (path, closed))
    as (st & path & closed & Hst & Hrun) by (eexists _, _, _; split; vm_compute; reflexivity).
  assert (Hne : ((0, 0) : coord) ≠ (2, 0)) by discriminate.
  destruct (DFS_animation {[ (1, 1) ]} (0, 0) (2, 0) 3 st path closed [(1, 1)] "DFS"%string
              Hne Hst Hrun) as (_ & mid & Hcl & _ & Hanim).
  rewrite Hcl in Hrun, Hanim. eauto 10.
Defined.

(** ** The colours of the animations of several rounds *)

Lemma for_loop_seq {S : Type} (turn : S → nat → Plotting.outcome S)
    (I : nat → S → Prop) (n : nat) :
  (∀ st (k : nat), (k < n)%nat → I k st →
     ∃ st', turn st k = Plotting.Returns st' ∧ I (Datatypes.S k) st') →
  ∀ (m i : nat) st, (i + m ≤ n)%nat → I i st →
    ∃ st', Plotting.for_loop turn (seq i m) st = Plotting.Returns st' ∧ I (i + m)%nat st'.
Proof.
  intros Hturn. induction m as [| m IH]; intros i st Hle Hi; simpl.
  - exists st. by rewrite Nat.add_0_r.
  - destruct (Hturn st i) as (st1 & -> & H1); [lia | done |]. simpl.
    destruct (IH (Datatypes.S i) st1) as (st2 & Hrun & H2); [lia | done |].
    exists st2. split; [done |]. by replace (i + Datatypes.S m)%nat with (Datatypes.S i + m)%nat by lia.
Qed.

Lemma for_loop_seq_raises {S : Type} (turn : S → nat → Plotting.outcome S)
    (I : nat → S → Prop) (n : nat) (e : Plotting.error) :
  (∀ st (k : nat), (k < n)%nat → I k st →
     ∃ st', turn st k = Plotting.Returns st' ∧ I (Datatypes.S k) st') →
  (∀ st, I n st → turn st n = Plotting.Raises e) →
  ∀ (m i : nat) st, (i ≤ n)%nat → (n < i + m)%nat → I i st →
    Plotting.for_loop turn (seq i m) st = Plotting.Raises e.
Proof.
  intros Hturn Hraise. induction m as [| m IH]; intros i st Hle Hlt Hi; simpl; [lia |].
  destruct (decide (i = n)) as [-> | Hne].
  - by rewrite Hraise.
  - destruct (Hturn st i) as (st1 & -> & H1); [lia | done |]. simpl.
    apply IH; [lia | lia | done].
Qed.

Section Colours.
Context {N : Type}.
Variable to_int : N → Plotting.outcome Z.
Variables xI xG : coord.
Variable obs : list coord.

Lemma plot_visited_plain (visited : list coord) (cl : string) :
  ∃ fig, Plotting.plot_visited to_int xI xG visited cl None
         = Plotting.Returns (Plotting.remove xG (Plotting.remove xI visited), fig).
Proof.
  unfold Plotting.plot_visited.
  assert (∀ l fig0, ∃ fig,
            Plotting.for_loop (Plotting.plot_visited_node to_int cl None) l fig0
            = Plotting.Returns fig) as Hloop.
  { induction l as [| x l IH]; intros fig0; simpl; eauto. }
  destruct (Hloop (Plotting.remove xG (Plotting.remove xI visited)) []) as [fig ->].
  simpl. eauto.
Qed.

Lemma cleaned_init (visited : list (list coord)) : cleaned xI xG visited 0 visited.
Proof. split; [done |]. intros j v Hv. by rewrite bool_decide_eq_false_2 by lia. Qed.

Lemma cleaned_turn (visited vis : list (list coord)) (k : nat) (v : list coord) :
  cleaned xI xG visited k vis → vis !! k = Some v →
  cleaned xI xG visited (Datatypes.S k) (<[k := Plotting.remove xG (Plotting.remove xI v)]> vis).
Proof.
  intros [Hlen Hvis] Hk. split; [by rewrite length_insert |].
  intros j w Hw. specialize (Hvis j w Hw).
  destruct (decide (j = k)) as [-> | Hne].
  - rewrite list_lookup_insert_eq by (by apply lookup_lt_Some in Hk).
    rewrite bool_decide_eq_true_2 by lia.
    rewrite bool_decide_eq_false_2 in Hvis by lia. congruence.
  - rewrite list_lookup_insert_ne by done. rewrite Hvis.
    f_equal. destruct (decide (j < k)%nat).
    + by rewrite !bool_decide_eq_true_2 by lia.
    + by rewrite !bool_decide_eq_false_2 by lia.
Qed.

Lemma index_lt {A} (l : list A) (k : nat) :
  (k < length l)%nat → ∃ x, l !! k = Some x ∧ Plotting.index l k = Plotting.Returns x.
Proof.
  intros Hk. destruct (lookup_lt_is_Some_2 l k Hk) as [x Hx].
  exists x. unfold Plotting.index. by rewrite Hx.
Qed.

Lemma index_ge {A} (l : list A) (k : nat) :
  (length l ≤ k)%nat → Plotting.index l k = Plotting.Raises Plotting.IndexError.
Proof. intros Hk. unfold Plotting.index. by rewrite lookup_ge_None_2. Qed.

Lemma ara_turn_returns (path visited : list (list coord)) (k : nat)
    (st : list (list coord) * list Plotting.artist) :
  (k < 5)%nat → (k < length path)%nat → (k < length visited)%nat →
  cleaned xI xG visited k st.1 →
  ∃ st', Plotting.ara_turn to_int xI xG path st k = Plotting.Returns st'
    ∧ cleaned xI xG visited (Datatypes.S k) st'.1.
Proof.
  intros H5 Hp Hv Hcl. unfold Plotting.ara_turn.
  destruct (index_lt st.1 k) as (v & Hvk & ->); [by rewrite (proj1 Hcl) |].
  destruct (index_lt Plotting.color_list.1 k) as (cv & _ & ->); [simpl; lia |].
  destruct (index_lt path k) as (p & _ & Hpk); [done |].
  destruct (index_lt Plotting.color_list.2 k) as (cp & _ & Hcp); [simpl; lia |].
  destruct (plot_visited_plain v cv) as [fig Hfig].
  cbn [mbind Plotting.outcome_bind]. rewrite Hfig.
  cbn [mbind Plotting.outcome_bind]. rewrite Hpk.
  cbn [mbind Plotting.outcome_bind]. rewrite Hcp.
  cbn [mbind Plotting.outcome_bind]. eexists. split; [reflexivity |].
  by apply cleaned_turn.
Qed.

Lemma ara_turn_raises (path visited : list (list coord)) (k : nat)
    (st : list (list coord) * list Plotting.artist) :
  k = (5 `min` length visited)%nat → cleaned xI xG visited k st.1 →
  Plotting.ara_turn to_int xI xG path st k = Plotting.Raises Plotting.IndexError.
Proof.
  intros Hk Hcl. unfold Plotting.ara_turn.
  destruct (decide (k < length visited)%nat) as [Hlt | Hge].
  - destruct (index_lt st.1 k) as (v & Hvk & ->); [by rewrite (proj1 Hcl) |].
    rewrite (index_ge Plotting.color_list.1 k) by (simpl; lia). done.
  - rewrite (index_ge st.1 k) by (rewrite (proj1 Hcl); lia). done.
Qed.

Lemma lrta_turn_returns (path visited : list (list coord)) (k : nat)
    (st : list (list coord) * list Plotting.artist * list coord) :
  (k < 10)%nat → (k < length path)%nat → (k < length visited)%nat →
  cleaned xI xG visited k st.1.1 →
  ∃ st', Plotting.lrta_turn to_int xI xG path st k = Plotting.Returns st'
    ∧ cleaned xI xG visited (Datatypes.S k) st'.1.1.
Proof.
  intros H10 Hp Hv Hcl. unfold Plotting.lrta_turn.
  destruct (index_lt st.1.1 k) as (v & Hvk & ->); [by rewrite (proj1 Hcl) |].
  destruct (index_lt Plotting.color_list_2 k) as (cv & _ & ->); [simpl; lia |].
  destruct (index_lt path k) as (p & _ & Hpk); [done |].
  destruct (plot_visited_plain v cv) as [fig Hfig].
  cbn [mbind Plotting.outcome_bind]. rewrite Hfig.
  cbn [mbind Plotting.outcome_bind]. rewrite Hpk.
  cbn [mbind Plotting.outcome_bind]. eexists. split; [reflexivity |].
  by apply cleaned_turn.
Qed.

Lemma lrta_turn_raises (path visited : list (list coord)) (k : nat)
    (st : list (list coord) * list Plotting.artist * list coord) :
  k = (10 `min` length visited)%nat → cleaned xI xG visited k st.1.1 →
  Plotting.lrta_turn to_int xI xG path st k = Plotting.Raises Plotting.IndexError.
Proof.
  intros Hk Hcl. unfold Plotting.lrta_turn.
  destruct (decide (k < length visited)%nat) as [Hlt | Hge].
  - destruct (index_lt st.1.1 k) as (v & Hvk & ->); [by rewrite (proj1 Hcl) |].
    rewrite (index_ge Plotting.color_list_2 k) by (simpl; lia). done.
  - rewrite (index_ge st.1.1 k) by (rewrite (proj1 Hcl); lia). done.
Qed.

Lemma ara_colours_bound (name : string) :
  colours_bound xI xG 5
    (fun path visited => Plotting.animation_ara_star to_int xI xG obs path visited name).
Proof.
  intros path visited. unfold Plotting.animation_ara_star. split.
  - intros H5 Hlen.
    destruct (for_loop_seq (Plotting.ara_turn to_int xI xG path)
                (fun k st => cleaned xI xG visited k st.1) (length path))
      with (m := length path) (i := 0%nat)
           (st := (visited, Plotting.plot_grid xI xG obs name))
      as ([vis fig] & Hrun & Hcl);
      [| lia | apply cleaned_init |].
    + intros st k Hk Hcl. apply ara_turn_returns; [lia | done | lia | done].
    + exists vis, fig. done.
  - intros Hout.
    apply (for_loop_seq_raises (Plotting.ara_turn to_int xI xG path)
             (fun k st => cleaned xI xG visited k st.1) (5 `min` length visited)%nat);
      [| | lia | lia | apply cleaned_init].
    + intros st k Hk Hcl. apply ara_turn_returns; [lia | lia | lia | done].
    + intros st Hcl. by eapply ara_turn_raises.
Qed.

Lemma lrta_colours_bound (name : string) :
  colours_bound xI xG 10
    (fun path visited => Plotting.animation_lrta to_int xI xG obs path visited name).
Proof.
  intros path visited. unfold Plotting.animation_lrta. split.
  - intros H10 Hlen.
    destruct (for_loop_seq (Plotting.lrta_turn to_int xI xG path)
                (fun k st => cleaned xI xG visited k st.1.1) (length path))
      with (m := length path) (i := 0%nat)
           (st := (visited, Plotting.plot_grid xI xG obs name, @nil coord))
      as ([[vis fig] comb] & Hrun & Hcl);
      [| lia | apply cleaned_init |].
    + intros st k Hk Hcl. apply lrta_turn_returns; [lia | done | lia | done].
    + rewrite Hrun. simpl. eexists _, _. done.
  - intros Hout.
    rewrite (for_loop_seq_raises (Plotting.lrta_turn to_int xI xG path)
               (fun k st => cleaned xI xG visited k st.1.1) (10 `min` length visited)%nat
               Plotting.IndexError);
      [done | | | lia | lia | apply cleaned_init].
    + intros st k Hk Hcl. apply lrta_turn_returns; [lia | lia | lia | done].
    + intros st Hcl. by eapply lrta_turn_raises.
Qed.
End Colours.

